(** * Serial line monitor: frame rendering and monitor loop

    A shallow embedding of the two [serial_debug_test.py] scripts
    ([backend/] and [raspberrypi/]): the hex and ASCII rendering of a
    received block, and [monitor_serial] with its [try]/[except]/[finally]
    structure, run against an explicit environment (serial device, log
    file, clock, signals). *)

From Stdlib Require Import List String Ascii Strings.Byte NArith ZArith QArith.
From Stdlib Require Import Bool Lia Lqa DecimalString.
Import ListNotations.

Close Scope Q_scope.
Open Scope nat_scope.
Open Scope string_scope.

(* ================================================================= *)
(** * Frame rendering *)

(** A received block: Python [bytes]; iterating over it yields the
    integers [0 .. 255]. *)
Definition bytes := list byte.

Module Render.

(** [bytes.hex()]: two lowercase digits per byte, high nibble first. *)
Definition hexdigits : string := "0123456789abcdef".

Definition hexdigit (n : N) : ascii :=
  match String.get (N.to_nat n) hexdigits with
  | Some c => c
  | None => "?"%char
  end.

Fixpoint hex (data : bytes) : string :=
  match data with
  | [] => ""
  | b :: rest =>
      String (hexdigit (N.shiftr (Byte.to_N b) 4))
        (String (hexdigit (N.land (Byte.to_N b) 15)) (hex rest))
  end.

(** [str.upper()] on a string of ASCII characters. *)
Definition upper_char (c : ascii) : ascii :=
  let n := N_of_ascii c in
  if (97 <=? n)%N && (n <=? 122)%N then ascii_of_N (n - 32) else c.

Fixpoint upper (s : string) : string :=
  match s with
  | EmptyString => EmptyString
  | String c rest => String (upper_char c) (upper rest)
  end.

(** [hexstr = data.hex().upper()] *)
Definition hexstr (data : bytes) : string := upper (hex data).

(** [chr(b)] for a byte value. *)
Definition chr (b : byte) : ascii := ascii_of_byte b.

(** [32 <= b <= 126] *)
Definition printable (b : byte) : bool :=
  (32 <=? Byte.to_N b)%N && (Byte.to_N b <=? 126)%N.

(** [ascstr = ''.join(chr(b) if 32 <= b <= 126 else '.' for b in data)] *)
Definition ascstr (data : bytes) : string :=
  String.concat ""
    (map (fun b => String (if printable b then chr b else "."%char) "") data).

(** Hexadecimal decoding, the inverse the round trip is measured against
    (Python's [bytes.fromhex] on a string without blanks). *)
Definition hex_value (c : ascii) : option N :=
  let n := N_of_ascii c in
  if (48 <=? n)%N && (n <=? 57)%N then Some (n - 48)%N
  else if (65 <=? n)%N && (n <=? 70)%N then Some (n - 55)%N
  else if (97 <=? n)%N && (n <=? 102)%N then Some (n - 87)%N
  else None.

Fixpoint fromhex (s : string) : option bytes :=
  match s with
  | EmptyString => Some []
  | String _ EmptyString => None
  | String hi (String lo rest) =>
      match hex_value hi, hex_value lo, fromhex rest with
      | Some h, Some l, Some bs =>
          option_map (fun b => b :: bs) (Byte.of_N (16 * h + l))
      | _, _, _ => None
      end
  end.

(** The digits [0-9A-F]. *)
Definition is_upper_hex (c : ascii) : bool :=
  let n := N_of_ascii c in
  ((48 <=? n)%N && (n <=? 57)%N) || ((65 <=? n)%N && (n <=? 70)%N).

Fixpoint all_chars (p : ascii -> bool) (s : string) : bool :=
  match s with
  | EmptyString => true
  | String c rest => p c && all_chars p rest
  end.

(** Per-byte check behind the round trip: both digits of a byte are in
    [0-9A-F] and decode back to the byte. *)
Definition byte_ok (b : byte) : bool :=
  let hi := upper_char (hexdigit (N.shiftr (Byte.to_N b) 4)) in
  let lo := upper_char (hexdigit (N.land (Byte.to_N b) 15)) in
  is_upper_hex hi && is_upper_hex lo &&
  match hex_value hi, hex_value lo with
  | Some h, Some l =>
      match Byte.of_N (16 * h + l) with
      | Some b' => Byte.eqb b' b
      | None => false
      end
  | _, _ => false
  end.

End Render.

(* ================================================================= *)
(** * The process and its environment *)

(** The scripts talk to a serial device, a log file, the console, the
    clock and the signal machinery.  Each library call is one step of the
    run; the environment answers step [n] with a [Resp]: whether a signal
    reaches the process at that step, the wall-clock time, whether the
    call raises, and what it returns.

    Modelling choices, fixed here once:
    - [time.time()] values are rationals and their subtraction is exact;
    - [serial.Serial], the termios calls, [open], [write], [flush],
      [ser.read] and [log_file.close()] (which flushes what is buffered)
      may raise (any subclass of [Exception], carried as its message);
      [print], [traceback.print_exc], [signal.signal], the clock and
      [ser.close()] do not;
    - a signal reaches the process at the start of (or while blocked in)
      a library call; with no handler installed SIGINT raises
      [KeyboardInterrupt] there and SIGTERM ends the process;
    - the port is opened with [timeout=None], so a [ser.read] may never
      return; the environment also decides what a read that returns
      brings, an empty block included;
    - a run is [Pending] when a read never returns, or when the [while]
      loop is still going after the [fuel] iterations it is observed
      for. *)

Inductive signal := SIGINT | SIGTERM.

Record Resp := mkResp {
  r_sig  : option signal;
  r_time : Q;
  r_fail : option string;
  r_data : bytes;
  r_str  : string;
  r_hang : bool             (* a blocking call that never returns *)
}.

Record Env := mkEnv {
  win : bool;                     (* sys.platform.startswith('win') *)
  HAS_TERMIOS : bool;             (* backend: [import termios] worked *)
  log_path_of : string -> string; (* os.path.join(os.path.dirname(__file__), .) *)
  oracle : nat -> Resp
}.

(** Classes of console and log lines. *)
Inductive line :=
  Banner | Header | FrameRecord | IdleNotice | Footer | StopNotice
| ErrorReport | Usage | ProbeReport.

Inductive event :=
| EvSignal (s : signal) (handled : bool)
| EvSerialOpen (port : string) (err : option string)
| EvFileno
| EvTcgetattr (err : option string)
| EvTcsetattr (vmin vtime : N) (err : option string)
| EvHandler (s : signal)
| EvPrint (k : line) (text : string)
| EvTraceback
| EvStrftime (fmt : string) (res : string)
| EvClock
| EvLogOpen (path : string) (err : option string)
| EvLogWrite (k : line) (text : string) (err : option string)
| EvLogFlush (err : option string)
| EvLogClose
| EvRead (size : nat) (res : bytes + string)
| EvSerialClose.

(** What can be raised: instances of [Exception], and
    [KeyboardInterrupt], which [except Exception] does not catch. *)
Inductive exn := Exception (msg : string) | KeyboardInterrupt.

Inductive outcome (A : Type) :=
| Ok (a : A)
| Raise (e : exn)
| Killed (s : signal)
| Pending.
Arguments Ok {A} a.
Arguments Raise {A} e.
Arguments Killed {A} s.
Arguments Pending {A}.

(** Interpreter state: the module global [running], the installed
    handlers, the locals of [monitor_serial] that are assigned more than
    once or inspected by the [finally] block, and the events so far, each
    with the time it happened (newest first). *)
Record World := mkWorld {
  tick : nat;
  running : bool;
  on_sigint : bool;
  on_sigterm : bool;
  ser : option bool;        (* unbound, or a Serial object and its is_open *)
  log_file : option bool;   (* None, or a file object and whether it is open *)
  last_activity : Q;
  trace : list (Q * event)
}.

(** Module import: [running = True]. *)
Definition init_world : World :=
  mkWorld 0 true false false None None 0%Q [].

Definition M (A : Type) : Type := World -> outcome A * World.

Definition ret {A} (a : A) : M A := fun w => (Ok a, w).

Definition raise {A} (e : exn) : M A := fun w => (Raise e, w).

(** A call that never returns. *)
Definition pending {A} : M A := fun w => (Pending, w).

Definition bind {A B} (m : M A) (f : A -> M B) : M B := fun w =>
  match m w with
  | (Ok a, w') => f a w'
  | (Raise e, w') => (Raise e, w')
  | (Killed s, w') => (Killed s, w')
  | (Pending, w') => (Pending, w')
  end.

Declare Scope py_scope.
Delimit Scope py_scope with py.
Notation "x <- m ;; k" := (bind m (fun x => k))
  (at level 61, m at next level, right associativity) : py_scope.
Notation "m ;; k" := (bind m (fun _ => k))
  (at level 61, right associativity) : py_scope.
Open Scope py_scope.

(** [try: m  except Exception as e: h(str(e))] *)
Definition try_except {A} (m : M A) (h : string -> M A) : M A := fun w =>
  match m w with
  | (Raise (Exception msg), w') => h msg w'
  | r => r
  end.

(** [try: m  finally: f] *)
Definition try_finally {A} (m : M A) (f : M unit) : M A := fun w =>
  match m w with
  | (Ok a, w') =>
      match f w' with
      | (Ok _, w'') => (Ok a, w'')
      | (Raise e, w'') => (Raise e, w'')
      | (Killed s, w'') => (Killed s, w'')
      | (Pending, w'') => (Pending, w'')
      end
  | (Raise e, w') =>
      match f w' with
      | (Ok _, w'') => (Raise e, w'')
      | (Raise e', w'') => (Raise e', w'')
      | (Killed s, w'') => (Killed s, w'')
      | (Pending, w'') => (Pending, w'')
      end
  | (Killed s, w') => (Killed s, w')
  | (Pending, w') => (Pending, w')
  end.

(** ** State access *)

Definition set_tick (n : nat) (w : World) : World :=
  mkWorld n (running w) (on_sigint w) (on_sigterm w) (ser w) (log_file w)
          (last_activity w) (trace w).
Definition set_running (b : bool) (w : World) : World :=
  mkWorld (tick w) b (on_sigint w) (on_sigterm w) (ser w) (log_file w)
          (last_activity w) (trace w).
Definition set_handler (s : signal) (w : World) : World :=
  match s with
  | SIGINT =>
      mkWorld (tick w) (running w) true (on_sigterm w) (ser w) (log_file w)
              (last_activity w) (trace w)
  | SIGTERM =>
      mkWorld (tick w) (running w) (on_sigint w) true (ser w) (log_file w)
              (last_activity w) (trace w)
  end.
Definition set_ser (v : option bool) (w : World) : World :=
  mkWorld (tick w) (running w) (on_sigint w) (on_sigterm w) v (log_file w)
          (last_activity w) (trace w).
Definition set_log_file (v : option bool) (w : World) : World :=
  mkWorld (tick w) (running w) (on_sigint w) (on_sigterm w) (ser w) v
          (last_activity w) (trace w).
Definition set_last_activity (t : Q) (w : World) : World :=
  mkWorld (tick w) (running w) (on_sigint w) (on_sigterm w) (ser w)
          (log_file w) t (trace w).
Definition push (t : Q) (e : event) (w : World) : World :=
  mkWorld (tick w) (running w) (on_sigint w) (on_sigterm w) (ser w)
          (log_file w) (last_activity w) ((t, e) :: trace w).

Definition handled (s : signal) (w : World) : bool :=
  match s with SIGINT => on_sigint w | SIGTERM => on_sigterm w end.

(** [def handle_sigint(signum, frame): global running; running = False] *)
Definition handle_sigint (w : World) : World := set_running false w.

Definition modify (f : World -> World) : M unit := fun w => (Ok tt, f w).
Definition emit (r : Resp) (e : event) : M unit := modify (push (r_time r) e).
Definition get {A} (f : World -> A) : M A := fun w => (Ok (f w), w).

Section Calls.
Variable env : Env.

(** The start of a library call: the environment's answer for this step,
    after any signal it delivers has been dealt with. *)
Definition deliver : M Resp := fun w =>
  let r := oracle env (tick w) in
  let w1 := set_tick (S (tick w)) w in
  match r_sig r with
  | None => (Ok r, w1)
  | Some s =>
      if handled s w1
      then (Ok r, push (r_time r) (EvSignal s true) (handle_sigint w1))
      else (match s with
            | SIGINT => Raise KeyboardInterrupt
            | SIGTERM => Killed SIGTERM
            end, push (r_time r) (EvSignal s false) w1)
  end.

(** A call that cannot raise. *)
Definition call (e : event) (upd : World -> World) : M Resp :=
  r <- deliver ;; emit r e ;; modify upd ;; ret r.

(** A call that raises when the environment says so. *)
Definition fallible (e : option string -> event) (upd : World -> World)
  : M Resp :=
  r <- deliver ;;
  match r_fail r with
  | Some msg => emit r (e (Some msg)) ;; raise (Exception msg)
  | None => emit r (e None) ;; modify upd ;; ret r
  end.

(** [ser = serial.Serial(port=port, baudrate=9600, bytesize=EIGHTBITS,
    parity=PARITY_EVEN, stopbits=STOPBITS_ONE, timeout=None)] *)
Definition serial_Serial (port : string) : M unit :=
  fallible (EvSerialOpen port) (set_ser (Some true)) ;; ret tt.

Definition ser_fileno : M unit := call EvFileno id ;; ret tt.
Definition tcgetattr : M unit := fallible EvTcgetattr id ;; ret tt.
(** [attrs[6][VMIN] = vmin; attrs[6][VTIME] = vtime;
    termios.tcsetattr(fd, termios.TCSANOW, attrs)] *)
Definition tcsetattr (vmin vtime : N) : M unit :=
  fallible (EvTcsetattr vmin vtime) id ;; ret tt.

(** [signal.signal(s, handle_sigint)] *)
Definition signal_signal (s : signal) : M unit :=
  call (EvHandler s) (set_handler s) ;; ret tt.

(** [print(text)]; the event holds the argument, without the newline
    [print] appends. *)
Definition print (k : line) (text : string) : M unit :=
  call (EvPrint k text) id ;; ret tt.

Definition traceback_print_exc : M unit := call EvTraceback id ;; ret tt.

(** [time.strftime(fmt)] and [datetime.now().strftime(fmt)] *)
Definition strftime (fmt : string) : M string :=
  r <- deliver ;; emit r (EvStrftime fmt (r_str r)) ;; ret (r_str r).

(** [time.time()] *)
Definition time_time : M Q := r <- call EvClock id ;; ret (r_time r).

(** [open(path, 'w', encoding='utf-8')] *)
Definition open_w_utf8 (path : string) : M unit :=
  fallible (EvLogOpen path) (set_log_file (Some true)) ;; ret tt.

Definition log_write (k : line) (text : string) : M unit :=
  fallible (EvLogWrite k text) id ;; ret tt.
Definition log_flush : M unit := fallible EvLogFlush id ;; ret tt.
(** [log_file.close()]: the file object is closed even when flushing
    what is buffered fails; the failure is raised once it is. *)
Definition log_close : M unit :=
  r <- call EvLogClose (set_log_file (Some false)) ;;
  match r_fail r with
  | Some msg => raise (Exception msg)
  | None => ret tt
  end.

(** [ser.read(size)] with [timeout=None]: the call blocks; it may never
    return, it may raise, and what it returns has at most [size] bytes. *)
Definition ser_read (size : nat) : M bytes :=
  r <- deliver ;;
  if r_hang r then pending
  else
    match r_fail r with
    | Some msg => emit r (EvRead size (inr msg)) ;; raise (Exception msg)
    | None =>
        emit r (EvRead size (inl (firstn size (r_data r)))) ;;
        ret (firstn size (r_data r))
    end.

Definition ser_close : M unit :=
  call EvSerialClose (set_ser (Some false)) ;; ret tt.

(** [with open(path, 'w', encoding='utf-8') as log_file: body] *)
Definition with_open (path : string) (body : M unit) : M unit :=
  open_w_utf8 path ;; try_finally body log_close.

(** [while running: body], observed for [fuel] iterations. *)
Fixpoint while_running (fuel : nat) (body : M unit) : M unit := fun w =>
  if running w then
    match fuel with
    | O => (Pending, w)
    | S fuel' => bind body (fun _ => while_running fuel' body) w
    end
  else (Ok tt, w).

End Calls.

(** ** Strings *)

(** [s * n] *)
Fixpoint str_mul (s : string) (n : nat) : string :=
  match n with
  | O => ""
  | S n' => s ++ str_mul s n'
  end.

(** [s[:-3]] *)
Definition drop_last3 (s : string) : string :=
  String.substring 0 (String.length s - 3) s.

(** [str(n)] for a length. *)
Definition str_of_nat (n : nat) : string :=
  NilEmpty.string_of_uint (Nat.to_uint n).

Definition nl : string := String (ascii_of_nat 10) "".

(** How the process ends, as its parent sees it: the interpreter exits
    with 0 when the script runs to its end, with 1 on an uncaught
    exception, and dies by the signal on an uncaught [KeyboardInterrupt]
    or an unhandled SIGTERM. *)
Inductive termination := Exit (code : N) | BySignal (s : signal).

Definition exit_status {A} (o : outcome A) : option termination :=
  match o with
  | Ok _ => Some (Exit 0)
  | Raise (Exception _) => Some (Exit 1)
  | Raise KeyboardInterrupt => Some (BySignal SIGINT)
  | Killed s => Some (BySignal s)
  | Pending => None
  end.

(** [if data:] *)
Definition nonempty (data : bytes) : bool :=
  match data with [] => false | _ :: _ => true end.

(** The port probe opens and closes its own [Serial] objects. *)
Definition probe_open (env : Env) (port : string) : M unit :=
  fallible env (EvSerialOpen port) id ;; ret tt.
Definition probe_close (env : Env) : M unit :=
  call env EvSerialClose id ;; ret tt.

(* ================================================================= *)
(** * backend/serial_debug_test.py *)

Module Backend.
Section Script.
Variable env : Env.

(** The body of [while running:] (lines 141-170). *)
Definition loop_body : M unit :=
  data <- ser_read env 16 ;;
  if nonempty data then
    ts <- strftime env "%H:%M:%S" ;;
    now_s <- strftime env "%Y-%m-%d %H:%M:%S.%f" ;;
    let timestamp_full := drop_last3 now_s in
    let hexstr := Render.hexstr data in
    let ascstr := Render.ascstr data in
    print env FrameRecord
      ("[" ++ ts ++ "] 受信 (" ++ str_of_nat (List.length data) ++ " バイト)") ;;
    print env FrameRecord ("  HEX  : " ++ hexstr) ;;
    print env FrameRecord ("  ASCII: " ++ ascstr ++ nl) ;;
    log_write env FrameRecord
      ("[" ++ timestamp_full ++ "] 受信 (" ++ str_of_nat (List.length data)
           ++ " バイト)" ++ nl) ;;
    log_write env FrameRecord ("  HEX  : " ++ hexstr ++ nl) ;;
    log_write env FrameRecord ("  ASCII: " ++ ascstr ++ nl ++ nl) ;;
    log_flush env ;;
    t <- time_time env ;;
    modify (set_last_activity t)
  else
    now <- time_time env ;;
    la <- get last_activity ;;
    if Qlt_le_dec 10 (now - la) then
      ts <- strftime env "%H:%M:%S" ;;
      let wait_msg := "[" ++ ts ++ "] 待機中… (データなし)" in
      print env IdleNotice (wait_msg ++ nl) ;;
      log_write env IdleNotice (wait_msg ++ nl) ;;
      log_flush env ;;
      t <- time_time env ;;
      modify (set_last_activity t)
    else ret tt.

Definition monitor_serial (fuel : nat) (port logfile : option string)
  : M unit :=
  logfile <- match logfile with
             | None =>
                 timestamp <- strftime env "%Y%m%d_%H%M%S" ;;
                 ret ("serial_debug_" ++ timestamp ++ ".log")
             | Some name => ret name
             end ;;
  let log_path := log_path_of env logfile in
  let port := match port with
              | None => if win env then "COM3" else "/dev/ttyUSB0"
              | Some p => p
              end in
  try_finally
    (try_except
       (serial_Serial env port ;;
        vmin_vtime_info <-
          (if HAS_TERMIOS env && negb (win env) then
             ser_fileno env ;;
             tcgetattr env ;;
             tcsetattr env 16 5 ;;
             ret "VMIN=16, VTIME=5 (0.5秒)"
           else ret "ブロッキングモード") ;;
        print env Banner ("📡 シリアルモニタリング開始: " ++ port) ;;
        print env Banner "    設定: 9600bps, 8bit, Even parity, 1 stop bit" ;;
        print env Banner ("    " ++ vmin_vtime_info) ;;
        print env Banner ("📝 ログファイル: " ++ log_path) ;;
        print env Banner ("    Ctrl+C で終了" ++ nl) ;;
        signal_signal env SIGINT ;;
        signal_signal env SIGTERM ;;
        t <- time_time env ;;
        modify (set_last_activity t) ;;
        with_open env log_path
          (log_write env Header ("=== シリアル通信ログ ===" ++ nl) ;;
           start <- strftime env "%Y-%m-%d %H:%M:%S" ;;
           log_write env Header ("開始時刻: " ++ start ++ nl) ;;
           log_write env Header ("ポート: " ++ port ++ nl) ;;
           log_write env Header
             ("設定: 9600bps, 8bit, Even parity, 1 stop bit" ++ nl) ;;
           log_write env Header (str_mul "=" 50 ++ nl ++ nl) ;;
           log_flush env ;;
           while_running fuel loop_body ;;
           log_write env Footer (nl ++ str_mul "=" 50 ++ nl) ;;
           stop <- strftime env "%Y-%m-%d %H:%M:%S" ;;
           log_write env Footer ("終了時刻: " ++ stop ++ nl) ;;
           log_write env Footer (str_mul "=" 50 ++ nl)) ;;
        print env StopNotice (nl ++ "🛑 モニタリング終了"))
       (fun e =>
          print env ErrorReport ("❌ エラー: " ++ e) ;;
          traceback_print_exc env))
    (s <- get ser ;;
     match s with
     | Some true => ser_close env
     | _ => ret tt
     end).

Definition posix_ports : list string :=
  ["/dev/ttyUSB0"; "/dev/ttyUSB1"; "/dev/ttyAMA0"; "/dev/serial0";
   "/dev/ttyS0"].

Fixpoint probe_ports (ports available : list string) : M (list string) :=
  match ports with
  | [] => ret available
  | port :: rest =>
      available' <-
        try_except
          (probe_open env port ;;
           print env ProbeReport ("✅ " ++ port ++ ": 接続成功") ;;
           probe_close env ;;
           ret (available ++ [port])%list)
          (fun _ => ret available) ;;
      probe_ports rest available'
  end.

Definition test_serial_ports : M (list string) :=
  let ports_to_test :=
    if win env then map (fun i => "COM" ++ str_of_nat i) (seq 1 20)
    else posix_ports in
  print env ProbeReport "🔍 利用可能なシリアルポートを検索中…" ;;
  available_ports <- probe_ports ports_to_test [] ;;
  match available_ports with
  | [] =>
      print env ProbeReport
        "❌ 利用可能なシリアルポートが見つかりませんでした"
  | _ :: _ => ret tt
  end ;;
  ret available_ports.

Definition usage : M unit :=
  print env Usage "使用方法:" ;;
  print env Usage
    "  python serial_debug_test.py test                        # ポート検索" ;;
  print env Usage
    "  python serial_debug_test.py <port> [logfile]            # モニタリング" ;;
  print env Usage (nl ++ "例:") ;;
  if win env then
    print env Usage "  python serial_debug_test.py COM3" ;;
    print env Usage "  python serial_debug_test.py COM3 elevator.log"
  else
    print env Usage "  python serial_debug_test.py /dev/ttyUSB0" ;;
    print env Usage "  python serial_debug_test.py /dev/ttyUSB0 elevator.log".

(** [main()], with [argv = sys.argv]. *)
Definition main (fuel : nat) (argv : list string) : M unit :=
  match argv with
  | _ :: arg1 :: rest =>
      if (arg1 =? "test")%string then test_serial_ports ;; ret tt
      else if (arg1 =? "help")%string || (arg1 =? "-h")%string then usage
      else
        let port := arg1 in
        let logfile := match rest with
                       | name :: _ => Some name
                       | [] => None
                       end in
        monitor_serial fuel (Some port) logfile
  | _ =>
      usage ;;
      print env Usage (nl ++ "利用可能なポートをテストします…" ++ nl) ;;
      test_serial_ports ;; ret tt
  end.

End Script.
End Backend.

(* ================================================================= *)
(** * raspberrypi/serial_debug_test.py *)

(** The [logfile] argument: [None], [True], or a file name. *)
Inductive logarg := LogNone | LogTrue | LogName (name : string).

(** [if logfile:] *)
Definition truthy (l : logarg) : bool :=
  match l with
  | LogNone => false
  | LogTrue => true
  | LogName name => negb (name =? "")%string
  end.

(** [if log_file:] for [None] or a file object. *)
Definition is_file (f : option bool) : bool :=
  match f with Some _ => true | None => false end.

Module RaspberryPi.
Section Script.
Variable env : Env.

(** The body of [while running:] (lines 124-155). *)
Definition loop_body : M unit :=
  data <- ser_read env 16 ;;
  if nonempty data then
    ts <- strftime env "%H:%M:%S" ;;
    now_s <- strftime env "%Y-%m-%d %H:%M:%S.%f" ;;
    let timestamp_full := drop_last3 now_s in
    let hexstr := Render.hexstr data in
    let ascstr := Render.ascstr data in
    print env FrameRecord
      ("[" ++ ts ++ "] 受信 (" ++ str_of_nat (List.length data) ++ " バイト)") ;;
    print env FrameRecord ("  HEX  : " ++ hexstr) ;;
    print env FrameRecord ("  ASCII: " ++ ascstr ++ nl) ;;
    f <- get log_file ;;
    (if is_file f then
       log_write env FrameRecord
         ("[" ++ timestamp_full ++ "] 受信 (" ++ str_of_nat (List.length data)
              ++ " バイト)" ++ nl) ;;
       log_write env FrameRecord ("  HEX  : " ++ hexstr ++ nl) ;;
       log_write env FrameRecord ("  ASCII: " ++ ascstr ++ nl ++ nl) ;;
       log_flush env
     else ret tt) ;;
    t <- time_time env ;;
    modify (set_last_activity t)
  else
    now <- time_time env ;;
    la <- get last_activity ;;
    if Qlt_le_dec 10 (now - la) then
      ts <- strftime env "%H:%M:%S" ;;
      let wait_msg := "[" ++ ts ++ "] 待機中… (データなし)" in
      print env IdleNotice (wait_msg ++ nl) ;;
      f <- get log_file ;;
      (if is_file f then
         log_write env IdleNotice (wait_msg ++ nl) ;;
         log_flush env
       else ret tt) ;;
      t <- time_time env ;;
      modify (set_last_activity t)
    else ret tt.

Definition monitor_serial (fuel : nat) (port : string) (logfile : logarg)
  : M unit :=
  modify (set_log_file None) ;;
  logfile <- (if truthy logfile then
                match logfile with
                | LogTrue =>
                    timestamp <- strftime env "%Y%m%d_%H%M%S" ;;
                    ret (LogName ("serial_debug_" ++ timestamp ++ ".log"))
                | _ => ret logfile
                end
              else ret logfile) ;;
  let log_path := match logfile with
                  | LogName name => log_path_of env name
                  | _ => ""
                  end in
  try_finally
    (try_except
       (serial_Serial env port ;;
        ser_fileno env ;;
        tcgetattr env ;;
        tcsetattr env 16 5 ;;
        print env Banner ("📡 シリアルモニタリング開始: " ++ port) ;;
        print env Banner "    設定: 9600bps, 8bit, Even parity, 1 stop bit" ;;
        print env Banner "    VMIN=16, VTIME=5 (0.5秒)" ;;
        (if truthy logfile
         then print env Banner ("📝 ログファイル: " ++ log_path)
         else ret tt) ;;
        print env Banner ("    Ctrl+C で終了" ++ nl) ;;
        signal_signal env SIGINT ;;
        signal_signal env SIGTERM ;;
        t <- time_time env ;;
        modify (set_last_activity t) ;;
        (if truthy logfile then
           open_w_utf8 env log_path ;;
           log_write env Header ("=== シリアル通信ログ ===" ++ nl) ;;
           start <- strftime env "%Y-%m-%d %H:%M:%S" ;;
           log_write env Header ("開始時刻: " ++ start ++ nl) ;;
           log_write env Header ("ポート: " ++ port ++ nl) ;;
           log_write env Header
             ("設定: 9600bps, 8bit, Even parity, 1 stop bit" ++ nl) ;;
           log_write env Header ("VMIN=16, VTIME=5 (0.5秒)" ++ nl) ;;
           log_write env Header (str_mul "=" 50 ++ nl ++ nl) ;;
           log_flush env
         else ret tt) ;;
        while_running fuel loop_body ;;
        print env StopNotice (nl ++ "🛑 モニタリング終了") ;;
        f <- get log_file ;;
        if is_file f then
          log_write env Footer (nl ++ str_mul "=" 50 ++ nl) ;;
          stop <- strftime env "%Y-%m-%d %H:%M:%S" ;;
          log_write env Footer ("終了時刻: " ++ stop ++ nl) ;;
          log_write env Footer (str_mul "=" 50 ++ nl)
        else ret tt)
       (fun e =>
          print env ErrorReport ("❌ エラー: " ++ e) ;;
          traceback_print_exc env))
    (f <- get log_file ;;
     (if is_file f then log_close env else ret tt) ;;
     s <- get ser ;;
     match s with
     | Some true => ser_close env
     | _ => ret tt
     end).

Definition ports_to_test : list string :=
  ["/dev/ttyUSB0"; "/dev/ttyUSB1"; "/dev/ttyAMA0"; "/dev/serial0";
   "/dev/ttyS0"].

Fixpoint probe_ports (ports : list string) : M unit :=
  match ports with
  | [] => ret tt
  | port :: rest =>
      try_except
        (probe_open env port ;;
         print env ProbeReport ("✅ " ++ port ++ ": 接続成功") ;;
         probe_close env)
        (fun e => print env ProbeReport ("❌ " ++ port ++ ": " ++ e)) ;;
      probe_ports rest
  end.

Definition test_serial_ports : M unit :=
  print env ProbeReport "🔍 利用可能なシリアルポートを検索中…" ;;
  probe_ports ports_to_test.

Definition usage : M unit :=
  print env Usage "使用方法:" ;;
  print env Usage
    "  python3 serial_debug_test.py test                       # ポート検索" ;;
  print env Usage
    "  python3 serial_debug_test.py /dev/ttyUSB0               # モニタリング（ログなし）" ;;
  print env Usage
    "  python3 serial_debug_test.py /dev/ttyUSB0 --log         # モニタリング（自動ログ名）" ;;
  print env Usage
    "  python3 serial_debug_test.py /dev/ttyUSB0 --log <file>  # モニタリング（指定ログ名）".

(** [main()], with [argv = sys.argv]. *)
Definition main (fuel : nat) (argv : list string) : M unit :=
  match argv with
  | _ :: arg1 :: rest =>
      if (arg1 =? "test")%string then test_serial_ports
      else if (arg1 =? "help")%string || (arg1 =? "-h")%string then
        usage ;;
        print env Usage (nl ++ "例:") ;;
        print env Usage "  python3 serial_debug_test.py /dev/ttyUSB0" ;;
        print env Usage "  python3 serial_debug_test.py /dev/ttyUSB0 --log" ;;
        print env Usage
          "  python3 serial_debug_test.py /dev/ttyUSB0 --log elevator.log"
      else
        let port := arg1 in
        let logfile :=
          match rest with
          | arg2 :: rest' =>
              if (arg2 =? "--log")%string then
                match rest' with
                | name :: _ => LogName name
                | [] => LogTrue
                end
              else LogNone
          | [] => LogNone
          end in
        monitor_serial fuel port logfile
  | _ =>
      usage ;;
      print env Usage (nl ++ "利用可能なポートをテストします…" ++ nl) ;;
      test_serial_ports
  end.

End Script.
End RaspberryPi.

(** ** Observations on a run *)

(** The events of a world in the order they happened. *)
Definition history (w : World) : list event := map snd (rev (trace w)).

(** ** Specifications of computations *)

(** The ways a computation ends without a value. *)
Inductive abrupt := ARaise (e : exn) | AKilled (s : signal) | APending.

Definition post {A} (N : A -> World -> Prop) (X : abrupt -> World -> Prop)
  (o : outcome A) (w : World) : Prop :=
  match o with
  | Ok a => N a w
  | Raise e => X (ARaise e) w
  | Killed s => X (AKilled s) w
  | Pending => X APending w
  end.

(** [hoare P m N X]: from a world in [P], [m] ends normally in [N] or
    abruptly in [X]. *)
Definition hoare {A} (P : World -> Prop) (m : M A)
  (N : A -> World -> Prop) (X : abrupt -> World -> Prop) : Prop :=
  forall w, P w -> post N X (fst (m w)) (snd (m w)).

Definition abort_of (s : signal) : abrupt :=
  match s with
  | SIGINT => ARaise KeyboardInterrupt
  | SIGTERM => AKilled SIGTERM
  end.

Definition next (w : World) : World := set_tick (S (tick w)) w.

(** [arrive env w r w1]: the call at step [tick w] starts, its answer is
    [r], and [w1] is the world once a handled signal, if any, has run
    [handle_sigint]. *)
Definition arrive (env : Env) (w : World) (r : Resp) (w1 : World) : Prop :=
  r = oracle env (tick w) /\
  ((r_sig r = None /\ w1 = next w) \/
   (exists s, r_sig r = Some s /\ handled s w = true /\
              w1 = push (r_time r) (EvSignal s true) (handle_sigint (next w)))).

(** [dropped env w s w1]: signal [s] reaches the call at step [tick w]
    and no handler is installed for it. *)
Definition dropped (env : Env) (w : World) (s : signal) (w1 : World) : Prop :=
  r_sig (oracle env (tick w)) = Some s /\ handled s w = false /\
  w1 = push (r_time (oracle env (tick w))) (EvSignal s false) (next w).

(** [preserves I m]: [m] keeps [I], however it ends. *)
Definition preserves {A} (I : World -> Prop) (m : M A) : Prop :=
  hoare I m (fun _ => I) (fun _ => I).

(** [I] survives the arrival of a signal, handled or not. *)
Definition sig_stable (env : Env) (I : World -> Prop) : Prop :=
  (forall w r w1, I w -> arrive env w r w1 -> I w1) /\
  (forall w s w1, I w -> dropped env w s w1 -> I w1).

(** Whether some event of a trace satisfies [p]. *)
Definition has (p : event -> bool) (tr : list (Q * event)) : bool :=
  existsb (fun x => p (snd x)) tr.

(** Both handlers are installed. *)
Definition hooked (w : World) : Prop :=
  on_sigint w = true /\ on_sigterm w = true.

(** Abrupt ends that need no signal: an exception of the program's own,
    or the loop still going. *)
Definition calm (a : abrupt) : Prop :=
  match a with
  | ARaise (Exception _) | APending => True
  | _ => False
  end.

(** [holds I m]: [m] keeps [I] and no signal cuts it short. *)
Definition holds {A} (I : World -> Prop) (m : M A) : Prop :=
  hoare I m (fun _ => I) (fun a w => I w /\ calm a).

(** [guarded I E m]: in the hooked phase [m] keeps [I], or raises an
    exception with message [msg] in a world satisfying [E msg]. *)
Definition guarded {A} (I : World -> Prop) (E : string -> World -> Prop)
  (m : M A) : Prop :=
  hoare I m (fun _ => I)
    (fun a w =>
       match a with
       | ARaise (Exception msg) => E msg w
       | APending => I w
       | _ => False
       end).

(** [steady I E m]: like [guarded], for a computation that always ends
    (no read and no loop). *)
Definition steady {A} (I : World -> Prop) (E : string -> World -> Prop)
  (m : M A) : Prop :=
  hoare I m (fun _ => I)
    (fun a w =>
       match a with
       | ARaise (Exception msg) => E msg w
       | _ => False
       end).

(** [keeps I X m]: [m] keeps [I] while it runs normally and ends in [X]
    when it is cut short. *)
Definition keeps {A} (I X : World -> Prop) (m : M A) : Prop :=
  hoare I m (fun _ => I) (fun _ => X).

Open Scope list_scope.

(** ** Recognisers for events *)

Definition is_signal (e : event) : bool :=
  match e with EvSignal _ _ => true | _ => false end.
Definition is_handled (e : event) : bool :=
  match e with EvSignal _ true => true | _ => false end.
Definition is_dropped (e : event) : bool :=
  match e with EvSignal _ false => true | _ => false end.
Definition signal_eqb (a b : signal) : bool :=
  match a, b with
  | SIGINT, SIGINT | SIGTERM, SIGTERM => true
  | _, _ => false
  end.
Definition is_handled_of (s : signal) (e : event) : bool :=
  match e with EvSignal s' true => signal_eqb s s' | _ => false end.
Definition is_handler (s : signal) (e : event) : bool :=
  match e with EvHandler s' => signal_eqb s s' | _ => false end.
Definition is_any_handler (e : event) : bool :=
  match e with EvHandler _ => true | _ => false end.
Definition is_ser_open_ok (e : event) : bool :=
  match e with EvSerialOpen _ None => true | _ => false end.
Definition is_ser_open_fail (e : event) : bool :=
  match e with EvSerialOpen _ (Some _) => true | _ => false end.
Definition is_tcset_ok (e : event) : bool :=
  match e with
  | EvTcsetattr vmin vtime None => (vmin =? 16)%N && (vtime =? 5)%N
  | _ => false
  end.
Definition is_ser_close (e : event) : bool :=
  match e with EvSerialClose => true | _ => false end.
Definition is_log_open (e : event) : bool :=
  match e with EvLogOpen _ _ => true | _ => false end.
Definition is_log_open_ok (e : event) : bool :=
  match e with EvLogOpen _ None => true | _ => false end.
Definition is_log_close (e : event) : bool :=
  match e with EvLogClose => true | _ => false end.
Definition is_read (e : event) : bool :=
  match e with EvRead _ _ => true | _ => false end.
Definition is_read_empty (e : event) : bool :=
  match e with EvRead _ (inl []) => true | _ => false end.
Definition is_read_fail (e : event) : bool :=
  match e with EvRead _ (inr _) => true | _ => false end.
Definition is_clock (e : event) : bool :=
  match e with EvClock => true | _ => false end.
(** A per-frame record, on the console or in the log. *)
Definition is_frame_record (e : event) : bool :=
  match e with
  | EvPrint FrameRecord _ | EvLogWrite FrameRecord _ _ => true
  | _ => false
  end.
(** An idle notice on the console. *)
Definition is_idle_print (e : event) : bool :=
  match e with EvPrint IdleNotice _ => true | _ => false end.
(** An idle notice, on the console or in the log. *)
Definition is_idle (e : event) : bool :=
  match e with
  | EvPrint IdleNotice _ | EvLogWrite IdleNotice _ _ => true
  | _ => false
  end.
(** A write or flush on the log that raised, and its message. *)
Definition log_fail_msg (e : event) : option string :=
  match e with
  | EvLogWrite _ _ (Some msg) | EvLogFlush (Some msg) => Some msg
  | _ => None
  end.
Definition is_log_fail (e : event) : bool :=
  match log_fail_msg e with Some _ => true | None => false end.
Definition is_report (e : event) : bool :=
  match e with EvPrint ErrorReport _ => true | _ => false end.
Definition is_report_of (msg : string) (e : event) : bool :=
  match e with
  | EvPrint ErrorReport text => (text =? "❌ エラー: " ++ msg)%string
  | _ => false
  end.
Definition is_footer_write (e : event) : bool :=
  match e with EvLogWrite Footer _ _ => true | _ => false end.
(** An input or output error raised inside the loop: a failed read, a
    failed write of a frame record or idle notice, or a failed flush. *)
Definition is_fatal (e : event) : bool :=
  match e with
  | EvRead _ (inr _) => true
  | EvLogWrite FrameRecord _ (Some _) => true
  | EvLogWrite IdleNotice _ (Some _) => true
  | EvLogFlush (Some _) => true
  | _ => false
  end.
(** An event on the log file. *)
Definition is_log_event (e : event) : bool :=
  match e with
  | EvLogOpen _ _ | EvLogWrite _ _ _ | EvLogFlush _ | EvLogClose => true
  | _ => false
  end.

(** [preceded p q tr]: in the newest-first trace [tr], every event
    satisfying [p] has an older event satisfying [q]. *)
Fixpoint preceded (p q : event -> bool) (tr : list (Q * event)) : Prop :=
  match tr with
  | [] => True
  | x :: older => (p (snd x) = true -> has q older = true) /\ preceded p q older
  end.

(** [sealed p tr]: in the newest-first trace [tr], nothing is newer than
    an event satisfying [p], and there is at most one such event. *)
Definition sealed (p : event -> bool) (tr : list (Q * event)) : Prop :=
  match tr with
  | [] => True
  | _ :: older => has p older = false
  end.

(** Whether the newest event of a trace satisfies [p]. *)
Definition newest_is (p : event -> bool) (tr : list (Q * event)) : bool :=
  match tr with
  | x :: _ => p (snd x)
  | [] => false
  end.

(** How often [p] holds in a trace. *)
Fixpoint count (p : event -> bool) (tr : list (Q * event)) : nat :=
  match tr with
  | [] => 0
  | x :: older => (if p (snd x) then 1 else 0) + count p older
  end.

(** The events newer than the oldest event satisfying [p], newest first. *)
Fixpoint after_first (p : event -> bool) (tr : list (Q * event))
  : option (list (Q * event)) :=
  match tr with
  | [] => None
  | x :: older =>
      match after_first p older with
      | Some newer => Some (x :: newer)
      | None => if p (snd x) then Some [] else None
      end
  end.

(** The log events of a trace, newest first. *)
Definition rlogs (tr : list (Q * event)) : list event :=
  map snd (filter (fun x => is_log_event (snd x)) tr).

(** The events on the log file, in order. *)
Definition log_events (h : list event) : list event := filter is_log_event h.

(* ================================================================= *)
(** * Sample environments *)

(** Environments on a POSIX host with termios, one second of clock per
    library call unless stated otherwise; the calls are numbered from 0
    in the order the script makes them. *)
Module Sample.

Definition stamp : string := "2025-11-04 12:00:00".

Definition seconds (n : nat) : Q := inject_Z (Z.of_nat n).

Definition posix (answers : nat -> Resp) : Env :=
  mkEnv false true (fun name => name) answers.

(** A silent device; SIGINT arrives at call 22, after the handlers are
    installed and the first read has returned nothing. *)
Definition cancelled : Env :=
  posix (fun n => mkResp (match n with 22 => Some SIGINT | _ => None end)
                    (seconds n) None [] stamp false).

(** SIGINT arrives at call 2, while the port is being configured. *)
Definition early_interrupt : Env :=
  posix (fun n => mkResp (match n with 2 => Some SIGINT | _ => None end)
                    (seconds n) None [] stamp false).

(** Call 20, the first read of the backend monitor, raises. *)
Definition unplugged : Env :=
  posix (fun n => mkResp None (seconds n)
                    (match n with
                     | 20 => Some "device disconnected"
                     | _ => None
                     end)
                    [] stamp false).

(** Call 1, the opening of the port by the backend script run without a
    log name, raises. *)
Definition no_device : Env :=
  posix (fun n => mkResp None (seconds n)
                    (match n with
                     | 1 => Some "could not open port /dev/ttyUSB9"
                     | _ => None
                     end)
                    [] "20251104_120000" false).

(** A device that answers ENQ; call 26, the first write of a frame record
    to the log of the backend monitor, raises. *)
Definition disk_full : Env :=
  posix (fun n => mkResp None (seconds n)
                    (match n with
                     | 26 => Some "No space left on device"
                     | _ => None
                     end)
                    [x05] stamp false).

(** A block of 16 bytes, as a read with [timeout=None] returns it. *)
Definition frame16 : bytes :=
  [x05; x30; x30; x30; x31; x30; x32; x30; x33; x30; x34; x30; x35; x30;
   x36; x0d].

(** A device that sends [frame16]; SIGINT arrives at call 21, while the
    loop is running; the disk is full at call [k] only ([k] being the
    call that closes the log, the footer cannot be flushed). *)
Definition full_at_close (k : nat) : Env :=
  posix (fun n => mkResp (match n with 21 => Some SIGINT | _ => None end)
                    (seconds n)
                    (if (n =? k)%nat then Some "No space left on device"
                     else None)
                    frame16 stamp false).

(** A device that sends [frame16]; the disk is full from call [k] on:
    every write, flush and close of the log raises from then on. *)
Definition disk_full_from (k : nat) : Env :=
  posix (fun n => mkResp None (seconds n)
                    (if (k <=? n)%nat then Some "No space left on device"
                     else None)
                    frame16 stamp false).

(** A device that sends nothing, on a port whose reads never return;
    SIGINT arrives during the first read of the backend monitor (call
    20). *)
Definition stuck : Env :=
  posix (fun n => mkResp (match n with 20 => Some SIGINT | _ => None end)
                    (seconds n) None [] stamp true).

(** A silent device and a clock that advances 4 seconds per call. *)
Definition silent : Env :=
  posix (fun n => mkResp None (inject_Z (4 * Z.of_nat n)) None [] stamp false).

End Sample.

(* ================================================================= *)
(** * The properties *)

(** ** Silent reads and idle notices (C1) *)

(** The stamped events of a run, in order. *)
Definition timeline (w : World) : list (Q * event) := rev (trace w).

(** One turn of the loop, from [w0] to [w], [new] being the events it
    adds (newest first).  If a read of the turn returned nothing: no frame
    record is produced; an idle notice comes only with a clock reading [c]
    of the turn more than 10 seconds past the last activity; without a
    notice the last activity stays; and a turn that printed a notice and
    finished ([final]) ends on a clock reading that becomes the last
    activity. *)
Definition silent_turn (final : bool) (w0 w : World) : Prop :=
  exists new,
    trace w = (new ++ trace w0)%list /\
    (has is_read_empty new = true ->
     has is_frame_record new = false /\
     (has is_idle new = true ->
      exists c, In (c, EvClock) new /\ (10 < c - last_activity w0)%Q) /\
     (has is_idle_print new = false -> last_activity w = last_activity w0) /\
     (has is_idle_print new = true -> final = true ->
      exists c older,
        new = (c, EvClock) :: older /\ has is_idle_print older = true /\
        last_activity w = c)).

Definition finished {A} (o : outcome A) : bool :=
  match o with Ok _ => true | _ => false end.

(** The clock never goes back from one library call to the next. *)
Definition monotone_clock (env : Env) : Prop :=
  forall n, (r_time (oracle env n) <= r_time (oracle env (S n)))%Q.

(** Any two idle notices on the console are more than 10 seconds apart. *)
Definition rate_limited (w : World) : Prop :=
  forall pre mid post t1 t2 text1 text2,
    timeline w
    = (pre ++ (t1, EvPrint IdleNotice text1)
           :: mid ++ (t2, EvPrint IdleNotice text2) :: post)%list ->
    (10 < t2 - t1)%Q.

Module C1.

(** The events added since [w0] satisfy [phi]. *)
Definition Grown (w0 : World) (phi : list (Q * event) -> Prop) (w : World)
  : Prop :=
  exists new, trace w = (new ++ trace w0)%list /\ phi new.

(** Neither a frame record nor an idle notice. *)
Definition NF (new : list (Q * event)) : Prop :=
  has is_frame_record new = false /\ has is_idle new = false /\
  has is_idle_print new = false.

Definition Same (w0 w : World) : Prop := last_activity w = last_activity w0.

Definition Begin (w0 w : World) : Prop :=
  Same w0 w /\
  Grown w0 (fun new => NF new /\ has is_read_empty new = false) w.

(** After the read. *)
Definition Got (w0 : World) (data : bytes) (w : World) : Prop :=
  Same w0 w /\
  Grown w0 (fun new => NF new /\
              (nonempty data = true -> has is_read_empty new = false)) w.

(** In the branch of a frame. *)
Definition Frame (w0 w : World) : Prop :=
  Grown w0 (fun new => has is_read_empty new = false) w.

(** The clock has been read. *)
Definition Read (w0 : World) (c : Q) (w : World) : Prop :=
  Same w0 w /\ Grown w0 (fun new => NF new /\ In (c, EvClock) new) w.

(** More than 10 seconds have passed. *)
Definition Late (w0 : World) (c : Q) (w : World) : Prop :=
  Same w0 w /\ (10 < c - last_activity w0)%Q /\
  Grown w0 (fun new => has is_frame_record new = false /\
              In (c, EvClock) new) w.

(** The notice is on the console. *)
Definition Told (w0 : World) (c : Q) (w : World) : Prop :=
  Same w0 w /\ (10 < c - last_activity w0)%Q /\
  Grown w0 (fun new => has is_frame_record new = false /\
              In (c, EvClock) new /\ has is_idle_print new = true) w.

(** The clock has been read again, at [t]. *)
Definition Again (w0 : World) (c t : Q) (w : World) : Prop :=
  (10 < c - last_activity w0)%Q /\
  exists older,
    trace w = (((t, EvClock) :: older) ++ trace w0)%list /\
    has is_frame_record older = false /\ In (c, EvClock) older /\
    has is_idle_print older = true.

(** The stamp of the newest idle notice on the console. *)
Fixpoint last_idle (tr : list (Q * event)) : option Q :=
  match tr with
  | [] => None
  | x :: older => if is_idle_print (snd x) then Some (fst x) else last_idle older
  end.

(** Each idle notice is more than 10 seconds after the one before. *)
Fixpoint spaced (tr : list (Q * event)) : Prop :=
  match tr with
  | [] => True
  | x :: older =>
      (if is_idle_print (snd x)
       then match last_idle older with
            | Some p => (10 < fst x - p)%Q
            | None => True
            end
       else True) /\ spaced older
  end.

(** The newest idle notice is not after [b]. *)
Definition before (tr : list (Q * event)) (b : Q) : Prop :=
  match last_idle tr with
  | Some p => (p <= b)%Q
  | None => True
  end.

(** The time of the next library call. *)
Definition now (env : Env) (w : World) : Q := r_time (oracle env (tick w)).

Definition SP (w : World) : Prop := spaced (trace w).
(** No idle notice yet. *)
Definition Quiet (w : World) : Prop := last_idle (trace w) = None.
(** In the loop: the last activity is not before the newest notice and
    not after the present. *)
Definition TL (env : Env) (w : World) : Prop :=
  spaced (trace w) /\ before (trace w) (last_activity w) /\
  (last_activity w <= now env w)%Q.
(** The clock was read, at [c]. *)
Definition TC (env : Env) (c : Q) (w : World) : Prop :=
  TL env w /\ (c <= now env w)%Q.
Definition TLate (env : Env) (c : Q) (w : World) : Prop :=
  TC env c w /\ (10 < c - last_activity w)%Q.
(** A notice has just been printed. *)
Definition TI (env : Env) (w : World) : Prop :=
  spaced (trace w) /\ before (trace w) (now env w).
(** The clock was read at [t], to become the last activity. *)
Definition TR (env : Env) (t : Q) (w : World) : Prop :=
  spaced (trace w) /\ before (trace w) t /\ (t <= now env w)%Q.

(** The backend monitor on a silent device, for three turns. *)
Definition silent_run : outcome unit * World :=
  Backend.monitor_serial Sample.silent 3 (Some "/dev/ttyUSB0") (Some "serial.log")
    init_world.

End C1.

(** ** Cooperative cancellation (C4) *)

(** How often [p] holds in a history. *)
Definition occurrences (p : event -> bool) (h : list event) : nat :=
  List.length (filter p h).

(** After a handled signal at most one read completes.  The monitor is
    still going only when the read the signal arrived in never returns;
    otherwise the log, if it was opened, has been closed exactly once, and
    the monitor has returned with the port closed exactly once.  With
    [strict = false] one more end is allowed: the monitor is left by the
    exception that closing the log raised, and the port was not closed. *)
Definition cooperative_stop (strict : bool) (o : outcome unit) (w : World)
  : Prop :=
  forall pre s post,
    history w = pre ++ EvSignal s true :: post ->
    occurrences is_read post <= 1 /\
    (o = Pending -> post = []) /\
    (o <> Pending ->
     ((exists path, In (EvLogOpen path None) (history w)) ->
      occurrences is_log_close (history w) = 1) /\
     (o = Ok tt /\ occurrences is_ser_close (history w) = 1 \/
      strict = false /\
      exists msg pre',
        o = Raise (Exception msg) /\ history w = pre' ++ [EvLogClose] /\
        occurrences is_ser_close (history w) = 0)).

(** The handler changes [running] and nothing else. *)
Definition only_clears_flag (f : World -> World) : Prop :=
  forall w,
    running (f w) = false /\ tick (f w) = tick w /\
    on_sigint (f w) = on_sigint w /\ on_sigterm (f w) = on_sigterm w /\
    ser (f w) = ser w /\ log_file (f w) = log_file w /\
    last_activity (f w) = last_activity w /\ trace (f w) = trace w.

Module C4.

(** No handled signal so far. *)
Definition NoSig (w : World) : Prop :=
  after_first is_handled (trace w) = None.

(** The first handled signal is the newest event. *)
Definition Fresh (w : World) : Prop :=
  after_first is_handled (trace w) = Some [].

(** The flag is down exactly when a signal was handled, and at most one
    read has completed since the first one. *)
Definition INV (w : World) : Prop :=
  match after_first is_handled (trace w) with
  | None => running w = true
  | Some newer => running w = false /\ count is_read newer <= 1
  end.

(** [log_file] against the number of closes. *)
Definition LFC (w : World) : Prop :=
  match log_file w with
  | None =>
      has is_log_open_ok (trace w) = false /\
      count is_log_close (trace w) = 0
  | Some true => count is_log_close (trace w) = 0
  | Some false => count is_log_close (trace w) = 1
  end.

(** No handler installed. *)
Definition U (w : World) : Prop :=
  on_sigint w = false /\ on_sigterm w = false /\ NoSig w /\
  running w = true.
Definition I0 (w : World) : Prop :=
  U w /\ count is_ser_close (trace w) = 0 /\ LFC w /\ log_file w = None.
Definition I0b (w : World) : Prop := I0 w /\ ser w = Some true.
Definition I1 (w : World) : Prop :=
  on_sigint w = true /\ on_sigterm w = false /\ NoSig w /\
  running w = true /\ count is_ser_close (trace w) = 0 /\ LFC w /\
  log_file w = None /\ ser w = Some true.
(** Both handlers installed, port open. *)
Definition PH (w : World) : Prop :=
  hooked w /\ INV w /\ ser w = Some true /\
  count is_ser_close (trace w) = 0 /\ LFC w.
Definition PHn (w : World) : Prop := PH w /\ log_file w = None.
Definition PHo (w : World) : Prop := PH w /\ log_file w = Some true.
Definition J (w : World) : Prop := PH w /\ log_file w <> Some true.
(** raspberrypi: the log is closed by the [finally] block only. *)
Definition PHr (w : World) : Prop := PH w /\ log_file w <> Some false.

(** raspberrypi: closing the log has just raised, the port is open. *)
Definition Skipped (w : World) : Prop :=
  INV w /\ count is_ser_close (trace w) = 0 /\
  count is_log_close (trace w) = 1 /\
  newest_is is_log_close (trace w) = true.

(** A run that is still going: no signal was handled, or one was and the
    read it arrived in does not return. *)
Definition Going (w : World) : Prop := NoSig w \/ Fresh w.

(** Abrupt ends in the hooked phase. *)
Definition XH (I : World -> Prop) (a : abrupt) (w : World) : Prop :=
  match a with
  | ARaise (Exception _) => I w
  | APending => Going w
  | _ => False
  end.

(** Abrupt ends of the [try] body, and of [try ... except]. *)
Definition X1 (I : World -> Prop) (a : abrupt) (w : World) : Prop :=
  match a with
  | ARaise (Exception _) => U w \/ I w
  | ARaise KeyboardInterrupt => U w
  | APending => Going w
  | AKilled _ => NoSig w
  end.
Definition X2 (a : abrupt) (w : World) : Prop :=
  match a with
  | ARaise (Exception _) => False
  | ARaise KeyboardInterrupt => U w
  | APending => Going w
  | AKilled _ => NoSig w
  end.

Definition Done (w : World) : Prop :=
  INV w /\ count is_ser_close (trace w) = 1 /\
  (has is_log_open_ok (trace w) = true ->
   count is_log_close (trace w) = 1).

Definition FinalN (w : World) : Prop := NoSig w \/ Done w.

(** Abrupt ends of the monitor. *)
Definition XF (strict : bool) (a : abrupt) (w : World) : Prop :=
  match a with
  | ARaise (Exception _) => NoSig w \/ (strict = false /\ Skipped w)
  | APending => Going w
  | _ => NoSig w
  end.

(** The backend monitor cancelled during its second read. *)
Definition cancelled_run : outcome unit * World :=
  Backend.monitor_serial Sample.cancelled 3 (Some "/dev/ttyUSB0")
    (Some "serial.log") init_world.

(** The backend monitor on a port whose reads never return; SIGINT
    arrives during the first read. *)
Definition stuck_run : outcome unit * World :=
  Backend.monitor_serial Sample.stuck 3 (Some "/dev/ttyUSB0")
    (Some "serial.log") init_world.

(** The raspberrypi monitor, logging, cancelled during its first read, on
    a disk that is full when the log is closed (call 37). *)
Definition unclosed_run : outcome unit * World :=
  RaspberryPi.monitor_serial (Sample.full_at_close 37) 3 "/dev/ttyUSB0"
    (LogName "serial.log") init_world.

(** The backend monitor in the same situation (its log is closed by call
    35). *)
Definition sibling_run : outcome unit * World :=
  Backend.monitor_serial (Sample.full_at_close 35) 3 (Some "/dev/ttyUSB0")
    (Some "serial.log") init_world.

End C4.

(** ** The log footer (C5) *)

(** The end of a log session: the three footer lines, then the close. *)
Definition footer_events (stop : string) : list event :=
  [ EvLogWrite Footer (nl ++ str_mul "=" 50 ++ nl) None;
    EvLogWrite Footer ("終了時刻: " ++ stop ++ nl) None;
    EvLogWrite Footer (str_mul "=" 50 ++ nl) None;
    EvLogClose ].

(** The statement of the specification: in a run that entered the read
    loop, whatever way it stopped, a footer line is on the log before the
    log is closed. *)
Definition footer_on_every_stop (w : World) : Prop :=
  (exists size res, In (EvRead size res) (history w)) ->
  forall pre post,
    history w = pre ++ EvLogClose :: post ->
    exists text, In (EvLogWrite Footer text None) pre.

(** What the scripts do: a monitor that returns without having reported an
    error ends its log with the footer and the close, nothing in between;
    after an error raised inside the loop no footer line is written. *)
Definition footer_on_clean_stop (o : outcome unit) (w : World) : Prop :=
  ((exists path, In (EvLogOpen path None) (history w)) ->
   (forall text, ~ In (EvPrint ErrorReport text) (history w)) ->
   o = Ok tt ->
   exists stop rest, log_events (history w) = (rest ++ footer_events stop)%list)
  /\
  ((exists e, In e (history w) /\ is_fatal e = true) ->
   forall text err, ~ In (EvLogWrite Footer text err) (history w)).

Module C5.

(** The backend monitor on the device whose first read fails. *)
Definition failed_run : outcome unit * World :=
  Backend.monitor_serial Sample.unplugged 3 (Some "/dev/ttyUSB0") (Some "serial.log")
    init_world.

(** The raspberrypi monitor, logging, cancelled after one silent read. *)
Definition cancelled_run : outcome unit * World :=
  RaspberryPi.monitor_serial Sample.cancelled 3 "/dev/ttyUSB0" (LogName "serial.log")
    init_world.

(** After an error of the loop there is no footer line. *)
Definition Q (w : World) : Prop :=
  has is_fatal (trace w) = true -> has is_footer_write (trace w) = false.

(** No error of the loop, no report. *)
Definition Fine (w : World) : Prop :=
  has is_fatal (trace w) = false /\ has is_report (trace w) = false.

(** The log is not in use, or it is open. *)
Definition NoLog (w : World) : Prop :=
  log_file w = None /\ has is_log_open_ok (trace w) = false.

Definition Pre (w : World) : Prop :=
  Fine w /\ has is_footer_write (trace w) = false /\
  (NoLog w \/ log_file w = Some true).

(** Cut short before any report. *)
Definition EQ (w : World) : Prop := Q w /\ has is_report (trace w) = false.

(** The newest log events are [l] (newest first). *)
Definition Top (l : list event) (w : World) : Prop :=
  Fine w /\ exists older, rlogs (trace w) = (l ++ older)%list.

Definition Writing (l : list event) (w : World) : Prop :=
  Top l w /\ log_file w = Some true.

Definition W1 : event := EvLogWrite Footer (nl ++ str_mul "=" 50 ++ nl) None.
Definition W2 (stop : string) : event :=
  EvLogWrite Footer ("終了時刻: " ++ stop ++ nl) None.
Definition W3 : event := EvLogWrite Footer (str_mul "=" 50 ++ nl) None.

Definition Written (w : World) : Prop :=
  exists stop, Writing [W3; W2 stop; W1] w.
Definition WrittenB (w : World) : Prop :=
  exists stop, Top [W3; W2 stop; W1] w.
Definition Closed (w : World) : Prop :=
  exists stop, Top (rev (footer_events stop)) w.

(** The error was reported. *)
Definition RQ (w : World) : Prop :=
  Q w /\ has is_report (trace w) = true.

Definition Body (w : World) : Prop :=
  Written w \/ (Fine w /\ NoLog w).
Definition Tried (w : World) : Prop := Body w \/ RQ w.
Definition TriedB (w : World) : Prop := Closed w \/ RQ w.

Definition FN (w : World) : Prop :=
  Q w /\
  (has is_report (trace w) = true \/
   has is_log_open_ok (trace w) = false \/ Closed w).

(** Before the script starts. *)
Definition Start (w : World) : Prop :=
  Fine w /\ has is_footer_write (trace w) = false /\
  has is_log_open_ok (trace w) = false.

End C5.

(** ** Failure to open the serial device (C6) *)

(** The statement of the specification: a failed open is reported, opens
    no log, enters no loop, and ends the process with a status other
    than 0. *)
Definition open_failure_exits_nonzero (o : outcome unit) (w : World) : Prop :=
  forall port msg, In (EvSerialOpen port (Some msg)) (history w) ->
    In (EvPrint ErrorReport ("❌ エラー: " ++ msg)) (history w) /\
    (forall path err, ~ In (EvLogOpen path err) (history w)) /\
    (forall size res, ~ In (EvRead size res) (history w)) /\
    exists t, exit_status o = Some t /\ t <> Exit 0.

(** What the scripts do: the report is printed when no interrupt cuts the
    handling short, and the process then ends with status 0. *)
Definition open_failure_is_reported (o : outcome unit) (w : World) : Prop :=
  forall port msg, In (EvSerialOpen port (Some msg)) (history w) ->
    (forall path err, ~ In (EvLogOpen path err) (history w)) /\
    (forall size res, ~ In (EvRead size res) (history w)) /\
    ((forall s b, ~ In (EvSignal s b) (history w)) ->
     In (EvPrint ErrorReport ("❌ エラー: " ++ msg)) (history w) /\
     o = Ok tt /\ exit_status o = Some (Exit 0)).

(** [argv] selects monitoring: a port that is no sub-command. *)
Definition monitoring (port : string) : Prop :=
  (port =? "test")%string = false /\ (port =? "help")%string = false /\
  (port =? "-h")%string = false.

Module C6.

(** The backend script started on a device that cannot be opened. *)
Definition failed_start : outcome unit * World :=
  Backend.main Sample.no_device 3 ["serial_debug_test.py"; "/dev/ttyUSB9"]
    init_world.

Definition open_fail_is (msg : string) (e : event) : bool :=
  match e with
  | EvSerialOpen _ (Some m) => (m =? msg)%string
  | _ => true
  end.

(** Nothing has failed to open, no log, no read. *)
Definition Z0 (w : World) : Prop :=
  has is_ser_open_fail (trace w) = false /\
  has is_log_open (trace w) = false /\ has is_read (trace w) = false /\
  log_file w = None.
Definition Z1 (w : World) : Prop := has is_ser_open_fail (trace w) = false.

(** The open failed with [msg]. *)
Definition F (rep : bool) (msg : string) (w : World) : Prop :=
  forallb (fun x => open_fail_is msg (snd x)) (trace w) = true /\
  has is_log_open (trace w) = false /\ has is_read (trace w) = false /\
  log_file w = None /\
  (rep = true -> has is_signal (trace w) = false ->
   has (is_report_of msg) (trace w) = true).

Definition X1 (a : abrupt) (w : World) : Prop :=
  match a with
  | ARaise (Exception msg) => Z1 w \/ F false msg w
  | _ => Z1 w
  end.

Definition Cut (w : World) : Prop :=
  Z1 w \/ exists msg, F false msg w /\ has is_signal (trace w) = true.

Definition X2 (a : abrupt) (w : World) : Prop :=
  match a with
  | ARaise (Exception _) => False
  | _ => Cut w
  end.

Definition NT (w : World) : Prop := Z1 w \/ exists msg, F true msg w.

End C6.

(** ** A failed log write ends the session (C7) *)

(** After a write or a flush on the log has raised: no further read is
    made and no frame record or idle notice is produced; an error report
    is printed; the monitor returns, and the serial port has been closed.
    With [strict = false] the report is known to carry the message of the
    failed write, and one more end is allowed: the monitor is left by the
    exception that closing the log raised, and the port was never
    closed. *)
Definition write_failure_is_fatal (strict : bool) (o : outcome unit)
  (w : World) : Prop :=
  forall pre e msg post,
    history w = pre ++ e :: post -> log_fail_msg e = Some msg ->
    (forall e', In e' post ->
       is_read e' = false /\ is_frame_record e' = false /\
       is_idle e' = false) /\
    (exists m, In (EvPrint ErrorReport ("❌ エラー: " ++ m)) post /\
               (strict = false -> m = msg)) /\
    (o = Ok tt /\ In EvSerialClose post \/
     strict = false /\
     exists m pre',
       o = Raise (Exception m) /\ history w = pre' ++ [EvLogClose] /\
       ~ In EvSerialClose (history w)).

Module C7.

(** The message of the oldest failed log write or flush of a trace, and
    the events newer than it. *)
Fixpoint first_fail (tr : list (Q * event))
  : option (string * list (Q * event)) :=
  match tr with
  | [] => None
  | x :: older =>
      match first_fail older with
      | Some (m, newer) => Some (m, x :: newer)
      | None =>
          match log_fail_msg (snd x) with
          | Some m => Some (m, [])
          | None => None
          end
      end
  end.

(** Events that process no frame and are no further failure. *)
Definition quiet (e : event) : bool :=
  negb (is_read e || is_frame_record e || is_idle e || is_log_fail e).

Definition Phi (rep clo : bool) (msg : string) (newer : list (Q * event))
  : Prop :=
  forallb (fun x => quiet (snd x)) newer = true /\
  (rep = true -> has (is_report_of msg) newer = true) /\
  (clo = true -> has is_ser_close newer = true).

(** No log write has failed. *)
Definition PA (w : World) : Prop := first_fail (trace w) = None.

(** The port has not been closed. *)
Definition NC (w : World) : Prop := has is_ser_close (trace w) = false.

(** A log write failed; since then only quiet events; [msg] is the
    message of the exception on its way (that of the failed write, unless
    the [with] statement of the backend replaced it). *)
Definition E (strict rep clo : bool) (msg : string) (w : World) : Prop :=
  hooked w /\ (clo = false -> ser w = Some true /\ NC w) /\
  match first_fail (trace w) with
  | Some (m, newer) => (strict = false -> m = msg) /\ Phi rep clo msg newer
  | None => False
  end.

Definition I0 (w : World) : Prop :=
  PA w /\ NC w /\ on_sigint w = false /\ on_sigterm w = false.
Definition I0b (w : World) : Prop := I0 w /\ ser w = Some true.
Definition I1 (w : World) : Prop :=
  PA w /\ NC w /\ on_sigint w = true /\ on_sigterm w = false /\
  ser w = Some true.
Definition PH (w : World) : Prop :=
  PA w /\ NC w /\ hooked w /\ ser w = Some true.
Definition EX (strict : bool) (msg : string) (w : World) : Prop :=
  PH w \/ E strict false false msg w.

(** Abrupt ends of the [with] block. *)
Definition XW (strict : bool) (a : abrupt) (w : World) : Prop :=
  match a with
  | ARaise (Exception msg) => EX strict msg w
  | APending => PH w
  | _ => False
  end.

Definition X1 (strict : bool) (a : abrupt) (w : World) : Prop :=
  match a with
  | ARaise (Exception msg) => PA w \/ E strict false false msg w
  | _ => PA w
  end.

(** Where [try ... except] can be left abruptly. *)
Definition X2 (a : abrupt) (w : World) : Prop :=
  match a with
  | ARaise (Exception _) => False
  | _ => PA w
  end.

Definition NT (strict rep clo : bool) (w : World) : Prop :=
  PA w \/ exists msg, E strict rep clo msg w.

(** raspberrypi: after the report, closing the log has just raised. *)
Definition Left (msg : string) (w : World) : Prop :=
  NC w /\ newest_is is_log_close (trace w) = true /\
  match first_fail (trace w) with
  | Some (m, newer) => m = msg /\ Phi true false msg newer
  | None => False
  end.

(** Abrupt ends of the monitor. *)
Definition XF (strict : bool) (a : abrupt) (w : World) : Prop :=
  match a with
  | ARaise (Exception _) => PA w \/ (strict = false /\ exists msg, Left msg w)
  | _ => PA w
  end.

(** The backend monitor whose log fills up on the first frame. *)
Definition failed_write : outcome unit * World :=
  Backend.monitor_serial Sample.disk_full 3 (Some "/dev/ttyUSB0")
    (Some "serial.log") init_world.

(** The raspberrypi monitor, logging, on a disk that is full from the
    flush of the first frame record (call 30) on. *)
Definition unclosed_run : outcome unit * World :=
  RaspberryPi.monitor_serial (Sample.disk_full_from 30) 3 "/dev/ttyUSB0"
    (LogName "serial.log") init_world.

(** The backend monitor in the same situation (its first frame record is
    flushed by call 29). *)
Definition sibling_run : outcome unit * World :=
  Backend.monitor_serial (Sample.disk_full_from 29) 3 (Some "/dev/ttyUSB0")
    (Some "serial.log") init_world.

End C7.

(** ** Release order (C8) *)


Module C8.

(** No serial close yet; [ser] is bound exactly when the port was opened. *)
Definition G (w : World) : Prop :=
  has is_ser_close (trace w) = false /\
  (ser w = None /\ has is_ser_open_ok (trace w) = false \/
   ser w = Some true /\ has is_ser_open_ok (trace w) = true).

(** [log_file] against the log events. *)
Definition LF (w : World) : Prop :=
  match log_file w with
  | None => has is_log_open_ok (trace w) = false
  | Some true => True
  | Some false => has is_log_close (trace w) = true
  end.

Definition Iin (w : World) : Prop := G w /\ LF w.
Definition I0 (w : World) : Prop :=
  Iin w /\ log_file w = None /\ on_sigint w = false /\ on_sigterm w = false.
Definition I1 (w : World) : Prop :=
  Iin w /\ log_file w = None /\ on_sigint w = true /\ on_sigterm w = false.
Definition I2 (w : World) : Prop := Iin w /\ log_file w = None /\ hooked w.
Definition D (w : World) : Prop := Iin w /\ hooked w.
Definition J (w : World) : Prop := Iin w /\ log_file w <> Some true.
Definition XJ (a : abrupt) (w : World) : Prop :=
  Iin w /\ match a with ARaise _ => log_file w <> Some true | _ => True end.

Definition shape (tr : list (Q * event)) : Prop :=
  has is_ser_close tr = false \/
  exists t older, tr = (t, EvSerialClose) :: older /\
     has is_ser_close older = false /\
     has is_ser_open_ok older = true /\
     (has is_log_open_ok older = true -> has is_log_close older = true).

Definition complete (tr : list (Q * event)) : Prop :=
  (has is_ser_open_ok tr = true -> has is_ser_close tr = true) /\
  (has is_log_open_ok tr = true -> has is_log_close tr = true).

(** The raspberrypi monitor, logging, cancelled after one silent read. *)
Definition session : outcome unit * World :=
  RaspberryPi.monitor_serial Sample.cancelled 3 "/dev/ttyUSB0"
    (LogName "serial.log") init_world.

End C8.

(** ** The log header (C9) *)

(** The header of section 6 of the specification: session label, start
    timestamp, device path, link profile, separator and blank line. *)
Definition spec_header (label ts port : string) : list string :=
  [ "=== " ++ label ++ " ===" ++ nl;
    "開始時刻: " ++ ts ++ nl;
    "ポート: " ++ port ++ nl;
    "設定: 9600bps, 8bit, Even parity, 1 stop bit" ++ nl;
    str_mul "=" 50 ++ nl ++ nl ]%string.

(** The header the raspberrypi script writes: the same with a line for
    the receive coalescing before the separator. *)
Definition raspberrypi_header (label ts port : string) : list string :=
  [ "=== " ++ label ++ " ===" ++ nl;
    "開始時刻: " ++ ts ++ nl;
    "ポート: " ++ port ++ nl;
    "設定: 9600bps, 8bit, Even parity, 1 stop bit" ++ nl;
    "VMIN=16, VTIME=5 (0.5秒)" ++ nl;
    str_mul "=" 50 ++ nl ++ nl ]%string.

(** Opening, the header lines and a flush, before anything else is done
    on the log. *)
Definition header_events (path : string) (lines : list string) : list event :=
  EvLogOpen path None :: map (fun l => EvLogWrite Header l None) lines
    ++ [EvLogFlush None].

(** The port the backend monitor opens. *)
Definition port_of (env : Env) (port : option string) : string :=
  match port with
  | Some p => p
  | None => if win env then "COM3" else "/dev/ttyUSB0"
  end.

(** In a run that entered the read loop, the log starts with the header. *)
Definition header_written (lines : string -> list string) (w : World) : Prop :=
  (exists size res, In (EvRead size res) (history w)) ->
  exists path ts rest,
    log_events (history w) = header_events path (lines ts) ++ rest.

Module C9.

(** Not yet in the loop. *)
Definition NR (w : World) : Prop := has is_read (trace w) = false.

(** The first [k] header events are on the log and nothing else is. *)
Definition Hd (path : string) (lines : list string) (k : nat) (w : World)
  : Prop :=
  NR w /\ rlogs (trace w) = rev (firstn k (header_events path lines)).

(** The header is on the log. *)
Definition Began (path : string) (lines : list string) (w : World) : Prop :=
  exists rest, rlogs (trace w) = rest ++ rev (header_events path lines).

Definition Bg (lines : string -> list string) (w : World) : Prop :=
  exists path ts, Began path (lines ts) w.

Definition After (lines : string -> list string) (w : World) : Prop :=
  NR w \/ Bg lines w.

(** Nothing on the log, loop not entered. *)
Definition H0 (w : World) : Prop := NR w /\ rlogs (trace w) = [].
(** The log events so far are exactly [l] (newest first). *)
Definition Hx (l : list event) (w : World) : Prop :=
  NR w /\ rlogs (trace w) = l.

(** The raspberrypi monitor, logging, cancelled after one silent read. *)
Definition session : outcome unit * World :=
  RaspberryPi.monitor_serial Sample.cancelled 3 "/dev/ttyUSB0"
    (LogName "serial.log") init_world.

End C9.

(** ** Handler installation (C10) *)

(** [termios]: whether the script sets VMIN/VTIME on this platform. *)
Definition handlers_after_setup (termios : bool) (o : outcome unit)
  (w : World) : Prop :=
  (forall pre s post, history w = pre ++ EvHandler s :: post ->
     (exists port, In (EvSerialOpen port None) pre) /\
     (termios = true -> In (EvTcsetattr 16 5 None) pre)) /\
  (forall s, In (EvSignal s false) (history w) ->
     running w = true /\
     (forall size res, ~ In (EvRead size res) (history w)) /\
     (o = Raise KeyboardInterrupt \/ o = Killed SIGTERM)) /\
  (forall pre s post, history w = pre ++ EvSignal s true :: post ->
     In (EvHandler s) pre).

Module C10.

Definition ORD (termios : bool) (w : World) : Prop :=
  preceded is_any_handler is_ser_open_ok (trace w) /\
  (termios = true -> preceded is_any_handler is_tcset_ok (trace w)) /\
  preceded (is_handled_of SIGINT) (is_handler SIGINT) (trace w) /\
  preceded (is_handled_of SIGTERM) (is_handler SIGTERM) (trace w).

(** No handler installed, flag untouched, loop not entered. *)
Definition Quiet (termios : bool) (w : World) : Prop :=
  on_sigint w = false /\ on_sigterm w = false /\ running w = true /\
  has is_read (trace w) = false /\ log_file w = None /\ ORD termios w.

Definition A0 (termios : bool) (w : World) : Prop :=
  Quiet termios w /\ has is_dropped (trace w) = false.
Definition A1 (termios : bool) (w : World) : Prop :=
  A0 termios w /\ has is_ser_open_ok (trace w) = true.
Definition A2 (termios : bool) (w : World) : Prop :=
  A1 termios w /\ (termios = true -> has is_tcset_ok (trace w) = true).
Definition B (termios : bool) (w : World) : Prop :=
  on_sigint w = true /\ on_sigterm w = false /\ running w = true /\
  has is_read (trace w) = false /\ ORD termios w /\
  has is_dropped (trace w) = false /\
  has is_ser_open_ok (trace w) = true /\
  (termios = true -> has is_tcset_ok (trace w) = true) /\
  has (is_handler SIGINT) (trace w) = true.
Definition Hooked (termios : bool) (w : World) : Prop :=
  on_sigint w = true /\ on_sigterm w = true /\ ORD termios w /\
  has is_dropped (trace w) = false /\
  has (is_handler SIGINT) (trace w) = true /\
  has (is_handler SIGTERM) (trace w) = true.

Definition Safe (w : World) : Prop :=
  has is_dropped (trace w) = true ->
  running w = true /\ has is_read (trace w) = false.

(** Where the [try] body can be left abruptly. *)
Definition X1 (termios : bool) (a : abrupt) (w : World) : Prop :=
  match a with
  | ARaise KeyboardInterrupt => Quiet termios w
  | ARaise (Exception _) => A0 termios w \/ Hooked termios w
  | AKilled SIGTERM => ORD termios w /\ Safe w
  | AKilled SIGINT => False
  | APending => Hooked termios w
  end.

(** After the [except] clause, or in it. *)
Definition Dj (termios : bool) (w : World) : Prop :=
  A0 termios w \/ Hooked termios w.

Definition NFinal (termios : bool) (w : World) : Prop :=
  ORD termios w /\ Safe w /\ has is_dropped (trace w) = false.

Definition Final (termios : bool) (a : abrupt) (w : World) : Prop :=
  ORD termios w /\ Safe w /\
  match a with
  | ARaise KeyboardInterrupt | AKilled SIGTERM => True
  | _ => has is_dropped (trace w) = false
  end.

(** The raspberrypi monitor interrupted while it configures the port. *)
Definition interrupted : outcome unit * World :=
  RaspberryPi.monitor_serial Sample.early_interrupt 3 "/dev/ttyUSB0" LogNone
    init_world.

End C10.

(* ================================================================= *)
(** * Further properties *)

(** ** Rendering: further properties *)

Module Text.

(** A character of the printable ASCII range, [' '] to ['~']. *)
Definition is_printable_char (c : ascii) : bool :=
  (32 <=? N_of_ascii c)%N && (N_of_ascii c <=? 126)%N.

(** The text whose character codes are the bytes of a block. *)
Definition text_of (data : bytes) : string :=
  string_of_list_ascii (map Render.chr data).

End Text.

(** ** The port probe *)

(** The ports of the [serial.Serial] calls of a history, in order. *)
Definition tried_port (e : event) : list string :=
  match e with EvSerialOpen port _ => [port] | _ => [] end.
(** The ports of those that succeeded. *)
Definition opened_port (e : event) : list string :=
  match e with EvSerialOpen port None => [port] | _ => [] end.
(** The lines of the probe on the console. *)
Definition probe_print (e : event) : list string :=
  match e with EvPrint ProbeReport text => [text] | _ => [] end.
(** The line the raspberrypi probe owes to a [serial.Serial] call. *)
Definition probe_line (e : event) : list string :=
  match e with
  | EvSerialOpen port None => [("✅ " ++ port ++ ": 接続成功")%string]
  | EvSerialOpen port (Some msg) => [("❌ " ++ port ++ ": " ++ msg)%string]
  | _ => []
  end.

Definition not_found : string :=
  "❌ 利用可能なシリアルポートが見つかりませんでした".
Definition searching : string := "🔍 利用可能なシリアルポートを検索中…".

(** The ports the backend probe tries. *)
Definition backend_ports (env : Env) : list string :=
  if win env then map (fun i => ("COM" ++ str_of_nat i)%string) (seq 1 20)
  else Backend.posix_ports.

(** What the backend probe has done when it returns [available]. *)
Definition backend_probed (env : Env) (o : outcome (list string)) (w : World)
  : Prop :=
  forall available, o = Ok available ->
    flat_map tried_port (history w) = backend_ports env /\
    available = flat_map opened_port (history w) /\
    occurrences is_ser_close (history w) = List.length available /\
    flat_map probe_print (history w)
    = (searching :: map (fun port => ("✅ " ++ port ++ ": 接続成功")%string) available
         ++ match available with [] => [not_found] | _ :: _ => [] end)%list.

(** What the raspberrypi probe has done when it returns. *)
Definition raspberrypi_probed (o : outcome unit) (w : World) : Prop :=
  o = Ok tt ->
  flat_map tried_port (history w) = RaspberryPi.ports_to_test /\
  flat_map probe_print (history w)
  = searching :: flat_map probe_line (history w) /\
  occurrences is_ser_close (history w)
  = List.length (flat_map opened_port (history w)).

Module Probe.

(** Picking from a trace, newest first. *)
Definition pick (f : event -> list string) (tr : list (Q * event))
  : list string :=
  flat_map (fun x => f (snd x)) tr.

(** Nothing probed yet. *)
Definition Fresh (w : World) : Prop :=
  pick tried_port (trace w) = [] /\ pick opened_port (trace w) = [] /\
  pick probe_line (trace w) = [] /\ pick probe_print (trace w) = [] /\
  count is_ser_close (trace w) = 0.

(** The backend probe between two ports: [rdone] tried, [ravail] opened
    and closed (newest first). *)
Definition B (rdone ravail : list string) (w : World) : Prop :=
  pick tried_port (trace w) = rdone /\
  pick opened_port (trace w) = ravail /\
  count is_ser_close (trace w) = List.length ravail /\
  pick probe_print (trace w)
  = (map (fun port => ("✅ " ++ port ++ ": 接続成功")%string) ravail ++ [searching])%list.

(** A port is open; [said]: its line is printed. *)
Definition BOpen (said : bool) (port : string) (rdone ravail : list string)
  (w : World) : Prop :=
  pick tried_port (trace w) = port :: rdone /\
  pick opened_port (trace w) = port :: ravail /\
  count is_ser_close (trace w) = List.length ravail /\
  pick probe_print (trace w)
  = ((if said then [("✅ " ++ port ++ ": 接続成功")%string] else [])
       ++ map (fun port => ("✅ " ++ port ++ ": 接続成功")%string) ravail
       ++ [searching])%list.

(** The raspberrypi probe between two ports. *)
Definition R (rdone lines : list string) (k : nat) (w : World) : Prop :=
  pick tried_port (trace w) = rdone /\
  pick probe_line (trace w) = lines /\
  pick probe_print (trace w) = (lines ++ [searching])%list /\
  count is_ser_close (trace w) = k /\
  List.length (pick opened_port (trace w)) = k.

(** The line owed for [port] is not printed yet; [closed]: the port is
    closed again (or was never open). *)
Definition ROwed (closed : bool) (line : string) (port : string)
  (rdone lines : list string) (k : nat) (w : World) : Prop :=
  pick tried_port (trace w) = port :: rdone /\
  pick probe_line (trace w) = line :: lines /\
  pick probe_print (trace w) = (lines ++ [searching])%list /\
  count is_ser_close (trace w) = k /\
  List.length (pick opened_port (trace w))
  = (if closed then k else S k).

Definition RSaid (port : string) (rdone lines : list string) (k : nat)
  (w : World) : Prop :=
  pick tried_port (trace w) = port :: rdone /\
  pick probe_line (trace w) = lines /\
  pick probe_print (trace w) = (lines ++ [searching])%list /\
  count is_ser_close (trace w) = k /\
  List.length (pick opened_port (trace w)) = S k.

(** The backend probe is done. *)
Definition BDone (ports : list string) (r : list string) (w : World) : Prop :=
  exists ravail,
    r = rev ravail /\
    pick tried_port (trace w) = rev ports /\
    pick opened_port (trace w) = ravail /\
    count is_ser_close (trace w) = List.length ravail /\
    pick probe_print (trace w)
    = (match r with [] => [not_found] | _ :: _ => [] end
         ++ map (fun port => ("✅ " ++ port ++ ": 接続成功")%string) ravail
         ++ [searching])%list.

(** Library calls 1, 5 and 6 raise: some of the five ports do not
    answer. *)
Definition two_ports : Env :=
  Sample.posix
    (fun n => mkResp None (Sample.seconds n)
                (match n with
                 | 1 | 5 | 6 => Some "could not open port"
                 | _ => None
                 end)
                [] Sample.stamp false).

Definition backend_probe : outcome (list string) * World :=
  Backend.test_serial_ports two_ports init_world.

Definition raspberrypi_probe : outcome unit * World :=
  RaspberryPi.test_serial_ports two_ports init_world.

End Probe.

(** ** The sub-commands *)

(** What the sub-commands may do: print their own lines, probe ports, and
    be interrupted. *)
Definition is_probe_or_usage (e : event) : bool :=
  match e with
  | EvPrint Usage _ | EvPrint ProbeReport _ => true
  | EvSerialOpen _ _ | EvSerialClose | EvSignal _ _ => true
  | _ => false
  end.

(** What the help may do. *)
Definition is_usage_or_signal (e : event) : bool :=
  match e with
  | EvPrint Usage _ | EvSignal _ _ => true
  | _ => false
  end.

(** [argv] does not ask for monitoring: no argument, or [test], [help],
    [-h]. *)
Definition subcommand (argv : list string) : Prop :=
  match argv with
  | _ :: arg1 :: _ => arg1 = "test"%string \/ arg1 = "help"%string \/
                      arg1 = "-h"%string
  | _ => True
  end.

Definition asks_help (argv : list string) : Prop :=
  match argv with
  | _ :: arg1 :: _ => arg1 = "help"%string \/ arg1 = "-h"%string
  | _ => False
  end.

(** The process is as it was started: no handler, no port, no log, the
    flag set. *)
Definition untouched (w : World) : Prop :=
  on_sigint w = false /\ on_sigterm w = false /\ running w = true /\
  ser w = None /\ log_file w = None.

Definition only_subcommand (w : World) : Prop :=
  (forall e, In e (history w) -> is_probe_or_usage e = true) /\ untouched w.

Definition only_help (w : World) : Prop :=
  forall e, In e (history w) -> is_usage_or_signal e = true.

Module Sub.

Definition V (w : World) : Prop :=
  forallb (fun x => is_probe_or_usage (snd x)) (trace w) = true /\
  untouched w.

Definition VH (w : World) : Prop :=
  forallb (fun x => is_usage_or_signal (snd x)) (trace w) = true /\
  untouched w.

End Sub.

(** ** Logging on request *)

(** Nothing is done on a log file. *)
Definition logs_nothing (w : World) : Prop :=
  (forall e, In e (history w) -> is_log_event e = false) /\
  log_file w = None.

(** The arguments after the port do not start with [--log]. *)
Definition without_log_flag (rest : list string) : Prop :=
  match rest with
  | arg2 :: _ => arg2 <> "--log"%string
  | [] => True
  end.

Module NoLog.

Definition NL0 (w : World) : Prop := has is_log_event (trace w) = false.
Definition NL (w : World) : Prop :=
  has is_log_event (trace w) = false /\ log_file w = None.

(** The raspberrypi script given a file name without [--log]. *)
Definition named_without_flag : outcome unit * World :=
  RaspberryPi.main Sample.cancelled 3
    ["serial_debug_test.py"; "/dev/ttyUSB0"; "elevator.log"] init_world.

End NoLog.

(** ** What the monitor opens *)

Definition is_ser_open (e : event) : bool :=
  match e with EvSerialOpen _ _ => true | _ => false end.

(** The line that announces the log on the console. *)
Definition log_banner (path : string) : string :=
  ("📝 ログファイル: " ++ path)%string.

(** The name of the log when none is given: the answer of the first
    library call, [strftime("%Y%m%d_%H%M%S")], between prefix and
    suffix. *)
Definition default_log_name (env : Env) : string :=
  ("serial_debug_" ++ r_str (oracle env 0) ++ ".log")%string.

(** [serial.Serial] is called at most once, for [port]; [open] is called
    at most once, for [path], and [path] was announced on the console
    before that call. *)
Definition opens_as_told (port path : string) (w : World) : Prop :=
  (forall p r, In (EvSerialOpen p r) (history w) -> p = port) /\
  occurrences is_ser_open (history w) <= 1 /\
  (forall pre p r post,
     history w = pre ++ EvLogOpen p r :: post ->
     p = path /\ In (EvPrint Banner (log_banner path)) pre) /\
  occurrences is_log_open (history w) <= 1.

(** A call on the terminal settings. *)
Definition is_termios (e : event) : bool :=
  match e with
  | EvFileno | EvTcgetattr _ | EvTcsetattr _ _ _ => true
  | _ => false
  end.

(** The console line about VMIN and VTIME. *)
Definition is_vmin_banner (e : event) : bool :=
  match e with
  | EvPrint Banner text => (text =? "    VMIN=16, VTIME=5 (0.5秒)")%string
  | _ => false
  end.

Definition leaves_terminal_alone (w : World) : Prop :=
  forall e, In e (history w) ->
    is_termios e = false /\ is_vmin_banner e = false.

Module Told.

Definition open_is (port path : string) (e : event) : bool :=
  match e with
  | EvSerialOpen p _ => (p =? port)%string
  | EvLogOpen p _ => (p =? path)%string
  | _ => true
  end.

Definition is_banner (path : string) (e : event) : bool :=
  match e with
  | EvPrint Banner text => (text =? log_banner path)%string
  | _ => false
  end.

(** [k1] calls of [serial.Serial], [k2] of [open], as told, the log
    announced before it was opened. *)
Definition P (port path : string) (k1 k2 : nat) (w : World) : Prop :=
  forallb (fun x => open_is port path (snd x)) (trace w) = true /\
  count is_ser_open (trace w) = k1 /\ count is_log_open (trace w) = k2 /\
  preceded is_log_open (is_banner path) (trace w).

(** The log is announced. *)
Definition PB (port path : string) (k2 : nat) (w : World) : Prop :=
  P port path 1 k2 w /\ has (is_banner path) (trace w) = true.

Definition W (port path : string) (w : World) : Prop :=
  forallb (fun x => open_is port path (snd x)) (trace w) = true /\
  count is_ser_open (trace w) <= 1 /\ count is_log_open (trace w) <= 1 /\
  preceded is_log_open (is_banner path) (trace w).

Definition Start (port path : string) (w : World) : Prop :=
  P port path 0 0 w /\ tick w = 0.

(** No call on the terminal, no line about VMIN. *)
Definition NT (w : World) : Prop :=
  has is_termios (trace w) = false /\ has is_vmin_banner (trace w) = false.

(** A host without termios. *)
Definition plain_host : Env :=
  mkEnv false false (fun name => name)
    (fun n => mkResp (match n with 19 => Some SIGINT | _ => None end)
                (Sample.seconds n) None [] Sample.stamp false).

Definition plain_run : outcome unit * World :=
  Backend.monitor_serial plain_host 3 None None init_world.

(** The raspberrypi monitor with [--log] and no name, cancelled. *)
Definition default_named : outcome unit * World :=
  RaspberryPi.monitor_serial Sample.cancelled 3 "/dev/ttyUSB0" LogTrue
    init_world.

End Told.

(** ** The flag is never set again *)

(** From [w0] to [w] no read was made, and the flag is cleared. *)
Definition reads_nothing (w0 w : World) : Prop :=
  running w = false /\
  exists new, trace w = (new ++ trace w0)%list /\ has is_read new = false.

(** A call of the monitor from [w0], the flag cleared: the call ends, the
    flag is still cleared, no read was made, and a call that returns has
    asked for [port]. *)
Definition idle_call (port : string) (w0 : World) (o : outcome unit)
  (w : World) : Prop :=
  running w = false /\ o <> Pending /\
  exists new,
    trace w = (new ++ trace w0)%list /\ has is_read new = false /\
    (o = Ok tt -> exists r, In (EvSerialOpen port r) (map snd (rev new))).

Module Flag.

Definition is_open_of (port : string) (e : event) : bool :=
  match e with
  | EvSerialOpen p _ => (p =? port)%string
  | _ => false
  end.

(** No read since [w0], the flag cleared, and [serial.Serial] called for
    [port]. *)
Definition Asked (port : string) (w0 w : World) : Prop :=
  running w = false /\
  exists new,
    trace w = (new ++ trace w0)%list /\ has is_read new = false /\
    has (is_open_of port) new = true.

(** Abrupt ends: never the loop still going. *)
Definition XB (port : string) (w0 : World) (a : abrupt) (w : World) : Prop :=
  match a with
  | APending => False
  | ARaise (Exception _) => Asked port w0 w
  | _ => reads_nothing w0 w
  end.
Definition XA (port : string) (w0 : World) (a : abrupt) (w : World) : Prop :=
  match a with
  | APending => False
  | _ => Asked port w0 w
  end.
Definition XT (w0 : World) (a : abrupt) (w : World) : Prop :=
  match a with
  | APending => False
  | _ => reads_nothing w0 w
  end.

(** A process in which the flag was cleared before. *)
Definition stopped_world : World := set_running false init_world.

Definition second_call : outcome unit * World :=
  Backend.monitor_serial Sample.cancelled 3 (Some "/dev/ttyUSB0")
    (Some "serial.log") stopped_world.

End Flag.

(** ** The record of a frame *)

(** The events a list of stamped events (newest first) holds, in order. *)
Definition events_of (new : list (Q * event)) : list event :=
  map snd (rev new).

(** The blocks the reads returned. *)
Definition read_block (e : event) : list bytes :=
  match e with EvRead _ (inl data) => [data] | _ => [] end.

(** The lines of frame records on the console. *)
Definition frame_console (e : event) : list string :=
  match e with EvPrint FrameRecord text => [text] | _ => [] end.

(** The first line of a record, with its time stamp and byte count. *)
Definition record_head (ts : string) (data : bytes) : string :=
  ("[" ++ ts ++ "] 受信 (" ++ str_of_nat (List.length data) ++ " バイト)")%string.

(** The same line in the log. *)
Definition log_head (ts : string) (data : bytes) : string :=
  ("[" ++ ts ++ "] 受信 (" ++ str_of_nat (List.length data) ++ " バイト)"
       ++ nl)%string.

(** The three lines of a record on the console. *)
Definition console_record (ts : string) (data : bytes) : list string :=
  [ record_head ts data;
    ("  HEX  : " ++ Render.hexstr data)%string;
    ("  ASCII: " ++ Render.ascstr data ++ nl)%string ].

(** The record in the log: three lines and a flush. *)
Definition log_record (now_s : string) (data : bytes) : list event :=
  [ EvLogWrite FrameRecord (log_head (drop_last3 now_s) data) None;
    EvLogWrite FrameRecord ("  HEX  : " ++ Render.hexstr data ++ nl) None;
    EvLogWrite FrameRecord ("  ASCII: " ++ Render.ascstr data ++ nl ++ nl)
      None;
    EvLogFlush None ].

(** A turn of the loop from [w0] to [w] that finished: it made one read,
    of at most 16 bytes; if the block is not empty, the console got its
    record, the log (when [logging]) the same record stamped to the
    millisecond and a flush, no idle notice was produced, and the turn
    ended on a clock reading that became the last activity. *)
Definition frame_turn (logging : bool) (w0 : World) (o : outcome unit)
  (w : World) : Prop :=
  o = Ok tt ->
  exists new data,
    trace w = (new ++ trace w0)%list /\
    flat_map read_block (events_of new) = [data] /\
    List.length data <= 16 /\
    (data <> [] ->
     (exists ts, flat_map frame_console (events_of new)
                 = console_record ts data) /\
     (exists now_s, log_events (events_of new)
                    = if logging then log_record now_s data else []) /\
     has is_idle new = false /\
     exists c older, new = (c, EvClock) :: older /\ last_activity w = c).

Module Frame.

(** Picking from stamped events, newest first. *)
Definition picks {B} (f : event -> list B) (tr : list (Q * event))
  : list B :=
  flat_map (fun x => f (snd x)) tr.

(** Since [w0]: the blocks read, the record lines on the console and the
    log events are [reads], [lines] and [logs] (newest first); no idle
    notice. *)
Definition St (w0 : World) (reads : list bytes) (lines : list string)
  (logs : list event) (w : World) : Prop :=
  exists new,
    trace w = (new ++ trace w0)%list /\
    picks read_block new = reads /\
    picks frame_console new = lines /\
    rlogs new = logs /\
    has is_idle new = false /\
    log_file w = log_file w0.

(** One read, of nothing. *)
Definition Silent (w0 : World) (w : World) : Prop :=
  exists new,
    trace w = (new ++ trace w0)%list /\ picks read_block new = [[]].

(** The clock was read at [c], last of all. *)
Definition Clocked (w0 : World) (reads : list bytes) (lines : list string)
  (logs : list event) (c : Q) (w : World) : Prop :=
  exists older,
    trace w = (((c, EvClock) :: older) ++ trace w0)%list /\
    picks read_block older = reads /\
    picks frame_console older = lines /\
    rlogs older = logs /\
    has is_idle older = false /\
    log_file w = log_file w0.

(** The turn is over. *)
Definition Done (w0 : World) (reads : list bytes) (lines : list string)
  (logs : list event) (w : World) : Prop :=
  exists c older,
    trace w = (((c, EvClock) :: older) ++ trace w0)%list /\
    picks read_block older = reads /\
    picks frame_console older = lines /\
    rlogs older = logs /\
    has is_idle older = false /\
    last_activity w = c.

(** How a finished turn leaves the world. *)
Definition Turn (logging : bool) (w0 : World) (w : World) : Prop :=
  Silent w0 w \/
  exists data ts now_s,
    data <> [] /\ List.length data <= 16 /\
    Done w0 [data] (rev (console_record ts data))
      (if logging then rev (log_record now_s data) else []) w.

(** A device that answers ENQ to the backend monitor, cancelled after
    the first frame. *)
Definition answering : Env :=
  Sample.posix
    (fun n => mkResp (match n with 31 => Some SIGINT | _ => None end)
                (Sample.seconds n) None [x05] "2025-11-04 12:00:00.123456" false).

End Frame.

(** ** The idle notice on console and log *)

(** The idle notices on the console. *)
Definition idle_console (e : event) : list string :=
  match e with EvPrint IdleNotice text => [text] | _ => [] end.

(** [wait_msg], for the time of day [ts]. *)
Definition wait_msg (ts : string) : string :=
  ("[" ++ ts ++ "] 待機中… (データなし)")%string.

(** A turn of the loop from [w0] to [w] that finished after a read that
    returned nothing: either it printed and logged nothing and left the
    last activity as it was, or it printed one idle notice and (when
    [logging]) wrote the same line to the log and flushed it. *)
Definition idle_turn (logging : bool) (w0 : World) (o : outcome unit)
  (w : World) : Prop :=
  o = Ok tt ->
  exists new,
    trace w = (new ++ trace w0)%list /\
    (flat_map read_block (events_of new) = [[]] ->
     flat_map frame_console (events_of new) = [] /\
     ((flat_map idle_console (events_of new) = [] /\
       log_events (events_of new) = [] /\
       last_activity w = last_activity w0) \/
      (exists ts,
         flat_map idle_console (events_of new) = [(wait_msg ts ++ nl)%string]
         /\
         log_events (events_of new)
         = (if logging
            then [EvLogWrite IdleNotice (wait_msg ts ++ nl) None;
                  EvLogFlush None]
            else []) /\
         exists c older, new = (c, EvClock) :: older /\ last_activity w = c))).

Module Idle.
Import Frame.

(** Since [w0]: one read, of nothing; the notices and log events are
    [lines] and [logs] (newest first). *)
Definition Sofar (w0 : World) (lines : list string) (logs : list event)
  (w : World) : Prop :=
  exists new,
    trace w = (new ++ trace w0)%list /\
    picks read_block new = [[]] /\
    picks frame_console new = [] /\
    picks idle_console new = lines /\
    rlogs new = logs /\
    log_file w = log_file w0.

Definition Begun (w0 : World) (w : World) : Prop :=
  exists new,
    trace w = (new ++ trace w0)%list /\
    picks read_block new = [] /\
    picks frame_console new = [] /\
    picks idle_console new = [] /\
    rlogs new = [] /\
    log_file w = log_file w0 /\ last_activity w = last_activity w0.

(** The last activity is as it was. *)
Definition Still (w0 : World) (w : World) : Prop :=
  Sofar w0 [] [] w /\ last_activity w = last_activity w0.

(** A block was read. *)
Definition Framed (w0 : World) (w : World) : Prop :=
  exists new b rest,
    trace w = (new ++ trace w0)%list /\
    picks read_block new = [b :: rest].

(** The log events of a notice, newest first. *)
Definition noticed (logging : bool) (ts : string) : list event :=
  if logging
  then [EvLogFlush None; EvLogWrite IdleNotice (wait_msg ts ++ nl) None]
  else [].

(** The clock was read at [c], last of all, after a notice. *)
Definition Clocked (logging : bool) (w0 : World) (ts : string) (c : Q)
  (w : World) : Prop :=
  exists older,
    trace w = (((c, EvClock) :: older) ++ trace w0)%list /\
    picks read_block older = [[]] /\
    picks frame_console older = [] /\
    picks idle_console older = [(wait_msg ts ++ nl)%string] /\
    rlogs older = noticed logging ts.

Definition Turn (logging : bool) (w0 : World) (w : World) : Prop :=
  Framed w0 w \/ Still w0 w \/
  exists ts c, Clocked logging w0 ts c w /\ last_activity w = c.

(** A silent device; the last activity is 11 seconds old. *)
Definition overdue : World := set_tick 11 init_world.

End Idle.

(* ================================================================= *)
(** * Frame rendering: proofs *)

Module RenderFacts.
Import Render.

Lemma byte_ok_all (b : byte) : byte_ok b = true.
Proof. destruct b; vm_compute; reflexivity. Qed.

Lemma hex_digits_of_byte (b : byte) :
  is_upper_hex (upper_char (hexdigit (N.shiftr (Byte.to_N b) 4))) = true /\
  is_upper_hex (upper_char (hexdigit (N.land (Byte.to_N b) 15))) = true /\
  (exists h l,
      hex_value (upper_char (hexdigit (N.shiftr (Byte.to_N b) 4))) = Some h /\
      hex_value (upper_char (hexdigit (N.land (Byte.to_N b) 15))) = Some l /\
      Byte.of_N (16 * h + l) = Some b).
Proof.
  pose proof (byte_ok_all b) as H. unfold byte_ok in H.
  apply andb_true_iff in H. destruct H as [H Hdec].
  apply andb_true_iff in H. destruct H as [Hhi Hlo].
  split; [exact Hhi | split; [exact Hlo |]].
  destruct (hex_value (upper_char (hexdigit (N.shiftr (Byte.to_N b) 4))))
    as [h |]; [| discriminate].
  destruct (hex_value (upper_char (hexdigit (N.land (Byte.to_N b) 15))))
    as [l |]; [| discriminate].
  exists h, l. split; [reflexivity | split; [reflexivity |]].
  destruct (Byte.of_N (16 * h + l)) as [b' |]; [| discriminate].
  apply Byte.byte_dec_bl in Hdec. now subst.
Qed.

Lemma hexstr_length (data : bytes) :
  String.length (hexstr data) = 2 * List.length data.
Proof.
  unfold hexstr. induction data as [| b rest IH]; simpl; [reflexivity |].
  rewrite IH. lia.
Qed.

Lemma hexstr_upper_hex (data : bytes) :
  all_chars is_upper_hex (hexstr data) = true.
Proof.
  unfold hexstr. induction data as [| b rest IH]; [reflexivity |].
  destruct (hex_digits_of_byte b) as (Hhi & Hlo & _).
  cbn [hex upper all_chars]. rewrite Hhi, Hlo, IH. reflexivity.
Qed.

Lemma fromhex_hexstr (data : bytes) : fromhex (hexstr data) = Some data.
Proof.
  unfold hexstr. induction data as [| b rest IH]; [reflexivity |].
  destruct (hex_digits_of_byte b) as (_ & _ & h & l & Hh & Hl & Hb).
  cbn [hex upper fromhex]. rewrite Hh, Hl, IH, Hb. reflexivity.
Qed.

(** C2. For every byte block [B] with [1 <= len(B) <= 16], the hex
    rendering [data.hex().upper()] has length exactly [2 * len(B)],
    consists only of the digits [0-9A-F], and decodes back to [B]. *)
Theorem hexstr_roundtrip (B : bytes) :
  1 <= List.length B <= 16 ->
  String.length (hexstr B) = 2 * List.length B /\
  all_chars is_upper_hex (hexstr B) = true /\
  fromhex (hexstr B) = Some B.
Proof.
  intros _. split; [apply hexstr_length |].
  split; [apply hexstr_upper_hex | apply fromhex_hexstr].
Qed.

Lemma hexstr_roundtrip_witness :
  hexstr [x48; x45; x4c; x4c; x4f; x00; xff] = "48454C4C4F00FF" /\
  String.length (hexstr [x48; x45; x4c; x4c; x4f; x00; xff]) = 14 /\
  fromhex "48454C4C4F00FF" = Some [x48; x45; x4c; x4c; x4f; x00; xff].
Proof.
  split; [reflexivity |].
  destruct (hexstr_roundtrip [x48; x45; x4c; x4c; x4f; x00; xff])
    as (Hlen & _ & Hdec); [simpl; lia |].
  split; [exact Hlen | exact Hdec].
Defined.

Lemma concat_single (c : ascii) (l : list string) :
  String.concat "" (String c "" :: l) = String c (String.concat "" l).
Proof. destruct l; reflexivity. Qed.

Lemma ascstr_cons (b : byte) (rest : bytes) :
  ascstr (b :: rest) =
  String (if printable b then chr b else "."%char) (ascstr rest).
Proof. unfold ascstr. rewrite map_cons. apply concat_single. Qed.

Lemma ascstr_length (data : bytes) :
  String.length (ascstr data) = List.length data.
Proof.
  induction data as [| b rest IH]; [reflexivity |].
  rewrite ascstr_cons. simpl. now rewrite IH.
Qed.

Lemma ascstr_get (data : bytes) (i : nat) (b : byte) :
  nth_error data i = Some b ->
  String.get i (ascstr data) =
  Some (if printable b then chr b else "."%char).
Proof.
  revert i. induction data as [| x rest IH]; intros [| i] H;
    try discriminate; rewrite ascstr_cons; simpl in *.
  - now inversion H.
  - now apply IH.
Qed.

Lemma printable_iff (b : byte) :
  printable b = true <-> (32 <= Byte.to_N b <= 126)%N.
Proof.
  unfold printable. rewrite andb_true_iff, !N.leb_le. reflexivity.
Qed.

Lemma chr_dot_printable (b : byte) :
  chr b = "."%char -> printable b = true.
Proof. destruct b; vm_compute; intros H; (reflexivity || discriminate H). Qed.

(** C3. For every byte block [B] the ASCII rendering has length exactly
    [len(B)]; position [i] is [chr(B[i])] if and only if
    [32 <= B[i] <= 126], and is ['.'] otherwise; equal inputs give equal
    renderings. *)
Theorem ascstr_spec (B : bytes) :
  String.length (ascstr B) = List.length B /\
  (forall i b, nth_error B i = Some b ->
     (String.get i (ascstr B) = Some (chr b) <->
      (32 <= Byte.to_N b <= 126)%N) /\
     (~ (32 <= Byte.to_N b <= 126)%N ->
      String.get i (ascstr B) = Some "."%char)) /\
  (forall B', B' = B -> ascstr B' = ascstr B).
Proof.
  split; [apply ascstr_length |]. split; [| now intros B' ->].
  intros i b Hi. rewrite (ascstr_get B i b Hi), <- printable_iff.
  destruct (printable b) eqn:Hp.
  - split; [tauto | congruence].
  - split; [| reflexivity]. split; [| discriminate].
    intros H. inversion H as [Hc]. symmetry in Hc.
    apply chr_dot_printable in Hc. congruence.
Qed.

Lemma ascstr_spec_witness :
  ascstr [x48; x49; x00; x7f; x2e; x7e] = "HI...~" /\
  String.get 0 (ascstr [x48; x49; x00; x7f; x2e; x7e]) = Some "H"%char /\
  String.get 2 (ascstr [x48; x49; x00; x7f; x2e; x7e]) = Some "."%char.
Proof.
  split; [reflexivity |].
  destruct (ascstr_spec [x48; x49; x00; x7f; x2e; x7e]) as (_ & H & _).
  split.
  - apply (H 0 x48); [reflexivity | vm_compute; split; discriminate].
  - apply (H 2 x00); [reflexivity | vm_compute; intros [H0 _]; now apply H0].
Defined.

End RenderFacts.

(* ================================================================= *)
(** * Reasoning rules *)

Section Rules.
Variable env : Env.

Lemma hoare_conseq {A} (P P' : World -> Prop) (m : M A)
  (N N' : A -> World -> Prop) (X X' : abrupt -> World -> Prop) :
  hoare P' m N' X' ->
  (forall w, P w -> P' w) ->
  (forall a w, N' a w -> N a w) ->
  (forall a w, X' a w -> X a w) ->
  hoare P m N X.
Proof.
  intros H HP HN HX w Hw. specialize (H w (HP w Hw)).
  destruct (m w) as [[a | e | s |] w']; simpl in *; auto.
Qed.

Lemma hoare_assume {A} (phi : Prop) (P : World -> Prop) (m : M A) N X :
  (phi -> hoare P m N X) -> hoare (fun w => P w /\ phi) m N X.
Proof. intros H w [Hw Hphi]. apply (H Hphi w Hw). Qed.

Lemma hoare_ret {A} (P : World -> Prop) (a : A) N X :
  (forall w, P w -> N a w) -> hoare P (ret a) N X.
Proof. intros H w Hw. simpl. auto. Qed.

Lemma hoare_raise {A} (P : World -> Prop) (e : exn)
  (N : A -> World -> Prop) X :
  (forall w, P w -> X (ARaise e) w) -> hoare P (raise e) N X.
Proof. intros H w Hw. simpl. auto. Qed.

Lemma hoare_bind {A B} (P : World -> Prop) (m : M A) (f : A -> M B)
  (R : A -> World -> Prop) N X :
  hoare P m R X ->
  (forall a, hoare (R a) (f a) N X) ->
  hoare P (bind m f) N X.
Proof.
  intros Hm Hf w Hw. specialize (Hm w Hw). unfold bind.
  destruct (m w) as [[a | e | s |] w']; simpl in *; auto.
  apply (Hf a w' Hm).
Qed.

Lemma hoare_modify (P : World -> Prop) (f : World -> World) N X :
  (forall w, P w -> N tt (f w)) -> hoare P (modify f) N X.
Proof. intros H w Hw. simpl. auto. Qed.

Lemma hoare_get {A} (P : World -> Prop) (f : World -> A) N X :
  (forall w, P w -> N (f w) w) -> hoare P (get f) N X.
Proof. intros H w Hw. simpl. auto. Qed.

Lemma hoare_try_except {A} (P : World -> Prop) (m : M A) h
  (X1 : abrupt -> World -> Prop) N X :
  hoare P m N X1 ->
  (forall msg, hoare (X1 (ARaise (Exception msg))) (h msg) N X) ->
  (forall w, X1 (ARaise KeyboardInterrupt) w ->
             X (ARaise KeyboardInterrupt) w) ->
  (forall s w, X1 (AKilled s) w -> X (AKilled s) w) ->
  (forall w, X1 APending w -> X APending w) ->
  hoare P (try_except m h) N X.
Proof.
  intros Hm Hh Hk Hs Hp w Hw. specialize (Hm w Hw). unfold try_except.
  destruct (m w) as [[a | [msg |] | s |] w']; simpl in *; auto.
  apply (Hh msg w' Hm).
Qed.

Lemma hoare_try_finally {A} (P : World -> Prop) (m : M A) (f : M unit)
  (N1 : A -> World -> Prop) (X1 : abrupt -> World -> Prop) N X :
  hoare P m N1 X1 ->
  (forall a, hoare (N1 a) f (fun _ => N a) X) ->
  (forall e, hoare (X1 (ARaise e)) f (fun _ => X (ARaise e)) X) ->
  (forall s w, X1 (AKilled s) w -> X (AKilled s) w) ->
  (forall w, X1 APending w -> X APending w) ->
  hoare P (try_finally m f) N X.
Proof.
  intros Hm Hok Hex Hs Hp w Hw. specialize (Hm w Hw). unfold try_finally.
  destruct (m w) as [[a | e | s |] w']; simpl in *; auto.
  - specialize (Hok a w' Hm).
    destruct (f w') as [[u | e | s |] w'']; simpl in *; auto.
  - specialize (Hex e w' Hm).
    destruct (f w') as [[u | e' | s |] w'']; simpl in *; auto.
Qed.

Lemma hoare_deliver (P : World -> Prop) N X :
  (forall w r w1, P w -> arrive env w r w1 -> N r w1) ->
  (forall w s w1, P w -> dropped env w s w1 -> X (abort_of s) w1) ->
  hoare P (deliver env) N X.
Proof.
  intros Hn Hx w Hw. unfold deliver.
  destruct (r_sig (oracle env (tick w))) as [s |] eqn:Hs.
  - destruct (handled s (set_tick (S (tick w)) w)) eqn:Hh.
    + simpl. apply (Hn w _ _ Hw). split; [reflexivity |]. right.
      exists s. destruct s; auto.
    + assert (Hd : dropped env w s
                (push (r_time (oracle env (tick w))) (EvSignal s false)
                      (next w))).
      { split; [exact Hs | split; [destruct s; exact Hh | reflexivity]]. }
      specialize (Hx w s _ Hw Hd). destruct s; exact Hx.
  - simpl. apply (Hn w _ _ Hw). split; [reflexivity |]. left. auto.
Qed.

Lemma hoare_call (P : World -> Prop) (e : event) (upd : World -> World) N X :
  (forall w r w1, P w -> arrive env w r w1 ->
                  N r (upd (push (r_time r) e w1))) ->
  (forall w s w1, P w -> dropped env w s w1 -> X (abort_of s) w1) ->
  hoare P (call env e upd) N X.
Proof.
  intros Hn Hx. unfold call.
  eapply hoare_bind with
    (R := fun r w1 => exists w, P w /\ arrive env w r w1).
  - apply hoare_deliver; eauto.
  - intros r w1 (w & Hw & Ha). simpl. eauto.
Qed.

Lemma hoare_fallible (P : World -> Prop) (e : option string -> event)
  (upd : World -> World) N X :
  (forall w r w1, P w -> arrive env w r w1 -> r_fail r = None ->
                  N r (upd (push (r_time r) (e None) w1))) ->
  (forall w r w1 msg, P w -> arrive env w r w1 -> r_fail r = Some msg ->
                  X (ARaise (Exception msg))
                    (push (r_time r) (e (Some msg)) w1)) ->
  (forall w s w1, P w -> dropped env w s w1 -> X (abort_of s) w1) ->
  hoare P (fallible env e upd) N X.
Proof.
  intros Hn Hf Hx. unfold fallible.
  eapply hoare_bind with
    (R := fun r w1 => exists w, P w /\ arrive env w r w1).
  - apply hoare_deliver; eauto.
  - intros r w1 (w & Hw & Ha). simpl.
    destruct (r_fail r) as [msg |] eqn:Hr; simpl; eauto.
Qed.

Lemma preserves_ret {A} (I : World -> Prop) (a : A) : preserves I (ret a).
Proof. apply hoare_ret. auto. Qed.

Lemma preserves_raise {A} (I : World -> Prop) (e : exn) :
  preserves I (@raise A e).
Proof. apply hoare_raise. auto. Qed.

Lemma preserves_bind {A B} (I : World -> Prop) (m : M A) (f : A -> M B) :
  preserves I m -> (forall a, preserves I (f a)) -> preserves I (bind m f).
Proof. intros Hm Hf. eapply hoare_bind; [exact Hm | exact Hf]. Qed.

Lemma preserves_modify (I : World -> Prop) (f : World -> World) :
  (forall w, I w -> I (f w)) -> preserves I (modify f).
Proof. intros H. apply hoare_modify. exact H. Qed.

Lemma preserves_get {A} (I : World -> Prop) (f : World -> A) :
  preserves I (get f).
Proof. apply hoare_get. auto. Qed.

Lemma preserves_try_except {A} (I : World -> Prop) (m : M A) h :
  preserves I m -> (forall msg, preserves I (h msg)) ->
  preserves I (try_except m h).
Proof. intros Hm Hh. eapply hoare_try_except; eauto. Qed.

Lemma preserves_try_finally {A} (I : World -> Prop) (m : M A) f :
  preserves I m -> preserves I f -> preserves I (try_finally m f).
Proof.
  intros Hm Hf.
  eapply hoare_try_finally with (N1 := fun _ => I) (X1 := fun _ => I);
    eauto; intros; exact Hf.
Qed.

Lemma preserves_deliver (I : World -> Prop) :
  sig_stable env I -> preserves I (deliver env).
Proof. intros [Ha Hd]. apply hoare_deliver; eauto. Qed.

Lemma preserves_emit (I : World -> Prop) (r : Resp) (e : event) :
  (forall w t, I w -> I (push t e w)) -> preserves I (emit r e).
Proof. intros H. apply hoare_modify. auto. Qed.

Lemma preserves_call (I : World -> Prop) (e : event) (upd : World -> World) :
  sig_stable env I ->
  (forall w t, I w -> I (upd (push t e w))) ->
  preserves I (call env e upd).
Proof.
  intros [Ha Hd] He. apply hoare_call; eauto.
Qed.

Lemma preserves_fallible (I : World -> Prop) (e : option string -> event)
  (upd : World -> World) :
  sig_stable env I ->
  (forall w t, I w -> I (upd (push t (e None) w))) ->
  (forall w t msg, I w -> I (push t (e (Some msg)) w)) ->
  preserves I (fallible env e upd).
Proof.
  intros [Ha Hd] Hok Hfail. apply hoare_fallible; eauto.
Qed.

Lemma preserves_while (I : World -> Prop) (fuel : nat) (body : M unit) :
  preserves I body -> preserves I (while_running fuel body).
Proof.
  intros Hb. induction fuel as [| n IH]; intros w Hw; simpl.
  - destruct (running w); simpl; exact Hw.
  - destruct (running w); simpl; [| exact Hw].
    apply (preserves_bind I body (fun _ => while_running n body) Hb
             (fun _ => IH) w Hw).
Qed.


Lemma hoare_of_preserves {A} (I : World -> Prop) (m : M A)
  (P : World -> Prop) N X :
  preserves I m ->
  (forall w, P w -> I w) ->
  (forall a w, I w -> N a w) ->
  (forall a w, I w -> X a w) ->
  hoare P m N X.
Proof. intros Hm HP HN HX. eapply hoare_conseq; eauto. Qed.

(** The named calls. *)

Lemma hoare_unit_call (P : World -> Prop) (e : event)
  (upd : World -> World) N X :
  (forall w r w1, P w -> arrive env w r w1 ->
                  N tt (upd (push (r_time r) e w1))) ->
  (forall w s w1, P w -> dropped env w s w1 -> X (abort_of s) w1) ->
  hoare P (call env e upd ;; ret tt) N X.
Proof.
  intros Hn Hx. eapply hoare_bind.
  - apply hoare_call with (N := fun _ => N tt); eauto.
  - intros r. apply hoare_ret. auto.
Qed.

Lemma hoare_unit_fallible (P : World -> Prop) (e : option string -> event)
  (upd : World -> World) N X :
  (forall w r w1, P w -> arrive env w r w1 -> r_fail r = None ->
                  N tt (upd (push (r_time r) (e None) w1))) ->
  (forall w r w1 msg, P w -> arrive env w r w1 -> r_fail r = Some msg ->
                  X (ARaise (Exception msg))
                    (push (r_time r) (e (Some msg)) w1)) ->
  (forall w s w1, P w -> dropped env w s w1 -> X (abort_of s) w1) ->
  hoare P (fallible env e upd ;; ret tt) N X.
Proof.
  intros Hn Hf Hx. eapply hoare_bind.
  - apply hoare_fallible with (N := fun _ => N tt); eauto.
  - intros r. apply hoare_ret. auto.
Qed.

Lemma hoare_strftime (P : World -> Prop) (fmt : string) N X :
  (forall w r w1, P w -> arrive env w r w1 ->
     N (r_str r) (push (r_time r) (EvStrftime fmt (r_str r)) w1)) ->
  (forall w s w1, P w -> dropped env w s w1 -> X (abort_of s) w1) ->
  hoare P (strftime env fmt) N X.
Proof.
  intros Hn Hx. unfold strftime.
  eapply hoare_bind with
    (R := fun r w1 => exists w, P w /\ arrive env w r w1).
  - apply hoare_deliver; eauto.
  - intros r w1 (w & Hw & Ha). simpl. eauto.
Qed.

Lemma hoare_time_time (P : World -> Prop) N X :
  (forall w r w1, P w -> arrive env w r w1 ->
     N (r_time r) (push (r_time r) EvClock w1)) ->
  (forall w s w1, P w -> dropped env w s w1 -> X (abort_of s) w1) ->
  hoare P (time_time env) N X.
Proof.
  intros Hn Hx. unfold time_time. eapply hoare_bind.
  - apply hoare_call with (N := fun r => N (r_time r)); eauto.
  - intros r. apply hoare_ret. auto.
Qed.

Lemma hoare_ser_read (P : World -> Prop) (size : nat) N X :
  (forall w r w1, P w -> arrive env w r w1 -> r_fail r = None ->
     N (firstn size (r_data r))
       (push (r_time r) (EvRead size (inl (firstn size (r_data r)))) w1)) ->
  (forall w r w1 msg, P w -> arrive env w r w1 -> r_fail r = Some msg ->
     X (ARaise (Exception msg))
       (push (r_time r) (EvRead size (inr msg)) w1)) ->
  (forall w s w1, P w -> dropped env w s w1 -> X (abort_of s) w1) ->
  (forall w r w1, P w -> arrive env w r w1 -> X APending w1) ->
  hoare P (ser_read env size) N X.
Proof.
  intros Hn Hf Hx Hp. unfold ser_read.
  eapply hoare_bind with
    (R := fun r w1 => exists w, P w /\ arrive env w r w1).
  - apply hoare_deliver; eauto.
  - intros r w1 (w & Hw & Ha). destruct (r_hang r); simpl; [eauto |].
    destruct (r_fail r) as [msg |] eqn:Hr; simpl; eauto.
Qed.

Lemma hoare_log_close (P : World -> Prop) N X :
  (forall w r w1, P w -> arrive env w r w1 -> r_fail r = None ->
     N tt (set_log_file (Some false) (push (r_time r) EvLogClose w1))) ->
  (forall w r w1 msg, P w -> arrive env w r w1 -> r_fail r = Some msg ->
     X (ARaise (Exception msg))
       (set_log_file (Some false) (push (r_time r) EvLogClose w1))) ->
  (forall w s w1, P w -> dropped env w s w1 -> X (abort_of s) w1) ->
  hoare P (log_close env) N X.
Proof.
  intros Hn Hf Hx. unfold log_close.
  eapply hoare_bind with
    (R := fun r w2 =>
            exists w w1, P w /\ arrive env w r w1 /\
              w2 = set_log_file (Some false) (push (r_time r) EvLogClose w1)).
  - apply hoare_call; eauto.
  - intros r w2 (w & w1 & Hw & Ha & ->).
    destruct (r_fail r) as [msg |] eqn:Hr; simpl; eauto.
Qed.

Lemma preserves_strftime (I : World -> Prop) (fmt : string) :
  sig_stable env I ->
  (forall w t res, I w -> I (push t (EvStrftime fmt res) w)) ->
  preserves I (strftime env fmt).
Proof. intros [Ha Hd] He. apply hoare_strftime; eauto. Qed.

Lemma preserves_ser_read (I : World -> Prop) (size : nat) :
  sig_stable env I ->
  (forall w t res, I w -> I (push t (EvRead size res) w)) ->
  preserves I (ser_read env size).
Proof. intros [Ha Hd] He. apply hoare_ser_read; eauto. Qed.

Lemma preserves_log_close (I : World -> Prop) :
  sig_stable env I ->
  (forall w t, I w -> I (set_log_file (Some false) (push t EvLogClose w))) ->
  preserves I (log_close env).
Proof. intros [Ha Hd] He. apply hoare_log_close; eauto. Qed.

(** The loop: [I] holds whenever the condition is evaluated. *)
Lemma hoare_while (I : World -> Prop) (fuel : nat) (body : M unit)
  (X : abrupt -> World -> Prop) :
  hoare (fun w => I w /\ running w = true) body (fun _ => I) X ->
  (forall w, I w -> running w = true -> X APending w) ->
  hoare I (while_running fuel body)
    (fun _ w => I w /\ running w = false) X.
Proof.
  intros Hb Hp. induction fuel as [| n IH]; intros w Hw; simpl.
  - destruct (running w) eqn:Hr; simpl; auto.
  - destruct (running w) eqn:Hr; simpl; auto.
    apply (hoare_bind _ body (fun _ => while_running n body) (fun _ => I)
             _ X Hb (fun _ => IH) w (conj Hw Hr)).
Qed.

(** Invariants of the phase in which both handlers are installed. *)

Lemma hooked_not_dropped (w : World) (s : signal) (w1 : World) :
  hooked w -> dropped env w s w1 -> False.
Proof.
  intros [Hi Ht] (_ & Hh & _). destruct s; simpl in Hh; congruence.
Qed.

Lemma holds_ret {A} (I : World -> Prop) (a : A) : holds I (ret a).
Proof. apply hoare_ret. auto. Qed.

Lemma holds_raise {A} (I : World -> Prop) (msg : string) :
  holds I (@raise A (Exception msg)).
Proof. apply hoare_raise. simpl. auto. Qed.

Lemma holds_bind {A B} (I : World -> Prop) (m : M A) (f : A -> M B) :
  holds I m -> (forall a, holds I (f a)) -> holds I (bind m f).
Proof. intros Hm Hf. eapply hoare_bind; [exact Hm | exact Hf]. Qed.

Lemma holds_modify (I : World -> Prop) (f : World -> World) :
  (forall w, I w -> I (f w)) -> holds I (modify f).
Proof. intros H. apply hoare_modify. exact H. Qed.

Lemma holds_get {A} (I : World -> Prop) (f : World -> A) : holds I (get f).
Proof. apply hoare_get. auto. Qed.

Lemma holds_try_except {A} (I : World -> Prop) (m : M A) h :
  holds I m -> (forall msg, holds I (h msg)) -> holds I (try_except m h).
Proof.
  intros Hm Hh.
  eapply hoare_try_except with (X1 := fun a w => I w /\ calm a); eauto.
  intros msg. eapply hoare_conseq; [apply Hh | | |]; simpl; intros; tauto.
Qed.

Lemma holds_try_finally {A} (I : World -> Prop) (m : M A) f :
  holds I m -> holds I f -> holds I (try_finally m f).
Proof.
  intros Hm Hf.
  eapply hoare_try_finally with
    (N1 := fun _ => I) (X1 := fun a w => I w /\ calm a);
    [exact Hm | | | auto | auto].
  - intros _. eapply hoare_conseq; [apply Hf | | |]; simpl; intros; tauto.
  - intros [msg |].
    + eapply hoare_conseq; [apply Hf | | |]; simpl; intros; tauto.
    + intros w [_ []].
Qed.

Lemma holds_call (I : World -> Prop) (e : event) (upd : World -> World) :
  sig_stable env I -> (forall w, I w -> hooked w) ->
  (forall w t, I w -> I (upd (push t e w))) ->
  holds I (call env e upd).
Proof.
  intros [Ha Hd] Hh He. apply hoare_call; eauto.
  intros w s w1 Hw Hdrop. destruct (hooked_not_dropped w s w1); auto.
Qed.

Lemma holds_fallible (I : World -> Prop) (e : option string -> event)
  (upd : World -> World) :
  sig_stable env I -> (forall w, I w -> hooked w) ->
  (forall w t, I w -> I (upd (push t (e None) w))) ->
  (forall w t msg, I w -> I (push t (e (Some msg)) w)) ->
  holds I (fallible env e upd).
Proof.
  intros [Ha Hd] Hh Hok Hfail. apply hoare_fallible; simpl; eauto.
  intros w s w1 Hw Hdrop. destruct (hooked_not_dropped w s w1); auto.
Qed.

Lemma holds_strftime (I : World -> Prop) (fmt : string) :
  sig_stable env I -> (forall w, I w -> hooked w) ->
  (forall w t res, I w -> I (push t (EvStrftime fmt res) w)) ->
  holds I (strftime env fmt).
Proof.
  intros [Ha Hd] Hh He. apply hoare_strftime; eauto.
  intros w s w1 Hw Hdrop. destruct (hooked_not_dropped w s w1); auto.
Qed.

Lemma holds_ser_read (I : World -> Prop) (size : nat) :
  sig_stable env I -> (forall w, I w -> hooked w) ->
  (forall w t res, I w -> I (push t (EvRead size res) w)) ->
  holds I (ser_read env size).
Proof.
  intros [Ha Hd] Hh He. apply hoare_ser_read; simpl; eauto.
  intros w s w1 Hw Hdrop. destruct (hooked_not_dropped w s w1); auto.
Qed.

Lemma holds_log_close (I : World -> Prop) :
  sig_stable env I -> (forall w, I w -> hooked w) ->
  (forall w t, I w -> I (set_log_file (Some false) (push t EvLogClose w))) ->
  holds I (log_close env).
Proof.
  intros [Ha Hd] Hh He. apply hoare_log_close; simpl; eauto.
  intros w s w1 Hw Hdrop. destruct (hooked_not_dropped w s w1); auto.
Qed.

Lemma holds_while (I : World -> Prop) (fuel : nat) (body : M unit) :
  holds I body -> holds I (while_running fuel body).
Proof.
  intros Hb. induction fuel as [| n IH]; intros w Hw; simpl.
  - destruct (running w); simpl; auto.
  - destruct (running w); simpl; [| exact Hw].
    apply (holds_bind I body (fun _ => while_running n body) Hb
             (fun _ => IH) w Hw).
Qed.

Lemma hoare_of_holds {A} (I : World -> Prop) (m : M A)
  (P : World -> Prop) N X :
  holds I m ->
  (forall w, P w -> I w) ->
  (forall a w, I w -> N a w) ->
  (forall msg w, I w -> X (ARaise (Exception msg)) w) ->
  (forall w, I w -> X APending w) ->
  hoare P m N X.
Proof.
  intros Hm HP HN HX Hpend. eapply hoare_conseq; eauto.
  intros [[msg |] | s |] w [Hw Hc]; simpl in Hc; try contradiction; auto.
Qed.

Lemma guarded_ret {A} (I : World -> Prop) E (a : A) : guarded I E (ret a).
Proof. apply hoare_ret. auto. Qed.

Lemma guarded_bind {A B} (I : World -> Prop) E (m : M A) (f : A -> M B) :
  guarded I E m -> (forall a, guarded I E (f a)) -> guarded I E (bind m f).
Proof. intros Hm Hf. eapply hoare_bind; [exact Hm | exact Hf]. Qed.

Lemma guarded_modify (I : World -> Prop) E (f : World -> World) :
  (forall w, I w -> I (f w)) -> guarded I E (modify f).
Proof. intros H. apply hoare_modify. exact H. Qed.

Lemma guarded_get {A} (I : World -> Prop) E (f : World -> A) :
  guarded I E (get f).
Proof. apply hoare_get. auto. Qed.

Lemma guarded_call (I : World -> Prop) E (e : event) (upd : World -> World) :
  sig_stable env I -> (forall w, I w -> hooked w) ->
  (forall w t, I w -> I (upd (push t e w))) ->
  guarded I E (call env e upd).
Proof.
  intros [Ha Hd] Hh He. apply hoare_call; eauto.
  intros w s w1 Hw Hdrop. destruct (hooked_not_dropped w s w1); auto.
Qed.

Lemma guarded_fallible (I : World -> Prop) E (e : option string -> event)
  (upd : World -> World) :
  sig_stable env I -> (forall w, I w -> hooked w) ->
  (forall w t, I w -> I (upd (push t (e None) w))) ->
  (forall w t msg, I w -> E msg (push t (e (Some msg)) w)) ->
  guarded I E (fallible env e upd).
Proof.
  intros [Ha Hd] Hh Hok Hfail. apply hoare_fallible; simpl; eauto.
  intros w s w1 Hw Hdrop. destruct (hooked_not_dropped w s w1); auto.
Qed.

Lemma guarded_strftime (I : World -> Prop) E (fmt : string) :
  sig_stable env I -> (forall w, I w -> hooked w) ->
  (forall w t res, I w -> I (push t (EvStrftime fmt res) w)) ->
  guarded I E (strftime env fmt).
Proof.
  intros [Ha Hd] Hh He. apply hoare_strftime; eauto.
  intros w s w1 Hw Hdrop. destruct (hooked_not_dropped w s w1); auto.
Qed.

Lemma guarded_ser_read (I : World -> Prop) E (size : nat) :
  sig_stable env I -> (forall w, I w -> hooked w) ->
  (forall w t data, I w -> I (push t (EvRead size (inl data)) w)) ->
  (forall w t msg, I w -> E msg (push t (EvRead size (inr msg)) w)) ->
  guarded I E (ser_read env size).
Proof.
  intros [Ha Hd] Hh Hok Hfail. apply hoare_ser_read; simpl; eauto.
  intros w s w1 Hw Hdrop. destruct (hooked_not_dropped w s w1); auto.
Qed.

Lemma guarded_log_close (I : World -> Prop) E :
  sig_stable env I -> (forall w, I w -> hooked w) ->
  (forall w t, I w -> I (set_log_file (Some false) (push t EvLogClose w))) ->
  (forall w t msg, I w ->
     E msg (set_log_file (Some false) (push t EvLogClose w))) ->
  guarded I E (log_close env).
Proof.
  intros [Ha Hd] Hh Hok Hfail. apply hoare_log_close; simpl; eauto.
  intros w s w1 Hw Hdrop. destruct (hooked_not_dropped w s w1); auto.
Qed.

Lemma guarded_while (I : World -> Prop) E (fuel : nat) (body : M unit) :
  guarded I E body -> guarded I E (while_running fuel body).
Proof.
  intros Hb. induction fuel as [| n IH]; intros w Hw; simpl.
  - destruct (running w) eqn:Hr; simpl; auto.
  - destruct (running w); simpl; [| exact Hw].
    apply (guarded_bind I E body (fun _ => while_running n body) Hb
             (fun _ => IH) w Hw).
Qed.

Lemma hoare_of_guarded {A} (I : World -> Prop) E (m : M A)
  (P : World -> Prop) N X :
  guarded I E m ->
  (forall w, P w -> I w) ->
  (forall a w, I w -> N a w) ->
  (forall msg w, E msg w -> X (ARaise (Exception msg)) w) ->
  (forall w, I w -> X APending w) ->
  hoare P m N X.
Proof.
  intros Hm HP HN HX Hpend. eapply hoare_conseq; eauto.
  intros [[msg |] | s |] w Hw; simpl in Hw; try contradiction; auto.
Qed.

Lemma steady_ret {A} (I : World -> Prop) E (a : A) : steady I E (ret a).
Proof. apply hoare_ret. auto. Qed.

Lemma steady_bind {A B} (I : World -> Prop) E (m : M A) (f : A -> M B) :
  steady I E m -> (forall a, steady I E (f a)) -> steady I E (bind m f).
Proof. intros Hm Hf. eapply hoare_bind; [exact Hm | exact Hf]. Qed.

Lemma steady_modify (I : World -> Prop) E (f : World -> World) :
  (forall w, I w -> I (f w)) -> steady I E (modify f).
Proof. intros H. apply hoare_modify. exact H. Qed.

Lemma steady_get {A} (I : World -> Prop) E (f : World -> A) :
  steady I E (get f).
Proof. apply hoare_get. auto. Qed.

Lemma steady_call (I : World -> Prop) E (e : event) (upd : World -> World) :
  sig_stable env I -> (forall w, I w -> hooked w) ->
  (forall w t, I w -> I (upd (push t e w))) ->
  steady I E (call env e upd).
Proof.
  intros [Ha Hd] Hh He. apply hoare_call; eauto.
  intros w s w1 Hw Hdrop. destruct (hooked_not_dropped w s w1); auto.
Qed.

Lemma steady_fallible (I : World -> Prop) E (e : option string -> event)
  (upd : World -> World) :
  sig_stable env I -> (forall w, I w -> hooked w) ->
  (forall w t, I w -> I (upd (push t (e None) w))) ->
  (forall w t msg, I w -> E msg (push t (e (Some msg)) w)) ->
  steady I E (fallible env e upd).
Proof.
  intros [Ha Hd] Hh Hok Hfail. apply hoare_fallible; simpl; eauto.
  intros w s w1 Hw Hdrop. destruct (hooked_not_dropped w s w1); auto.
Qed.

Lemma steady_strftime (I : World -> Prop) E (fmt : string) :
  sig_stable env I -> (forall w, I w -> hooked w) ->
  (forall w t res, I w -> I (push t (EvStrftime fmt res) w)) ->
  steady I E (strftime env fmt).
Proof.
  intros [Ha Hd] Hh He. apply hoare_strftime; eauto.
  intros w s w1 Hw Hdrop. destruct (hooked_not_dropped w s w1); auto.
Qed.

Lemma steady_log_close (I : World -> Prop) E :
  sig_stable env I -> (forall w, I w -> hooked w) ->
  (forall w t, I w -> I (set_log_file (Some false) (push t EvLogClose w))) ->
  (forall w t msg, I w ->
     E msg (set_log_file (Some false) (push t EvLogClose w))) ->
  steady I E (log_close env).
Proof.
  intros [Ha Hd] Hh Hok Hfail. apply hoare_log_close; simpl; eauto.
  intros w s w1 Hw Hdrop. destruct (hooked_not_dropped w s w1); auto.
Qed.

Lemma hoare_of_steady {A} (I : World -> Prop) E (m : M A)
  (P : World -> Prop) N X :
  steady I E m ->
  (forall w, P w -> I w) ->
  (forall a w, I w -> N a w) ->
  (forall msg w, E msg w -> X (ARaise (Exception msg)) w) ->
  hoare P m N X.
Proof.
  intros Hm HP HN HX. eapply hoare_conseq; eauto.
  intros [[msg |] | s |] w Hw; simpl in Hw; try contradiction; auto.
Qed.

Lemma keeps_ret {A} (I X : World -> Prop) (a : A) : keeps I X (ret a).
Proof. apply hoare_ret. auto. Qed.

Lemma keeps_bind {A B} (I X : World -> Prop) (m : M A) (f : A -> M B) :
  keeps I X m -> (forall a, keeps I X (f a)) -> keeps I X (bind m f).
Proof. intros Hm Hf. eapply hoare_bind; [exact Hm | exact Hf]. Qed.

Lemma keeps_modify (I X : World -> Prop) (f : World -> World) :
  (forall w, I w -> I (f w)) -> keeps I X (modify f).
Proof. intros H. apply hoare_modify. exact H. Qed.

Lemma keeps_get {A} (I X : World -> Prop) (f : World -> A) :
  keeps I X (get f).
Proof. apply hoare_get. auto. Qed.

Lemma keeps_call (I X : World -> Prop) (e : event) (upd : World -> World) :
  sig_stable env I -> (forall w, I w -> X w) ->
  (forall w t, I w -> I (upd (push t e w))) ->
  keeps I X (call env e upd).
Proof. intros [Ha Hd] HX He. apply hoare_call; eauto. Qed.

Lemma keeps_fallible (I X : World -> Prop) (e : option string -> event)
  (upd : World -> World) :
  sig_stable env I -> (forall w, I w -> X w) ->
  (forall w t, I w -> I (upd (push t (e None) w))) ->
  (forall w t msg, I w -> X (push t (e (Some msg)) w)) ->
  keeps I X (fallible env e upd).
Proof. intros [Ha Hd] HX Hok Hfail. apply hoare_fallible; eauto. Qed.

Lemma keeps_strftime (I X : World -> Prop) (fmt : string) :
  sig_stable env I -> (forall w, I w -> X w) ->
  (forall w t res, I w -> I (push t (EvStrftime fmt res) w)) ->
  keeps I X (strftime env fmt).
Proof. intros [Ha Hd] HX He. apply hoare_strftime; eauto. Qed.

Lemma keeps_ser_read (I X : World -> Prop) (size : nat) :
  sig_stable env I -> (forall w, I w -> X w) ->
  (forall w t data, I w -> I (push t (EvRead size (inl data)) w)) ->
  (forall w t msg, I w -> X (push t (EvRead size (inr msg)) w)) ->
  keeps I X (ser_read env size).
Proof. intros [Ha Hd] HX Hok Hfail. apply hoare_ser_read; eauto. Qed.

Lemma keeps_log_close (I X : World -> Prop) :
  sig_stable env I -> (forall w, I w -> X w) ->
  (forall w t, I w -> I (set_log_file (Some false) (push t EvLogClose w))) ->
  (forall w t, I w -> X (set_log_file (Some false) (push t EvLogClose w))) ->
  keeps I X (log_close env).
Proof. intros [Ha Hd] HX Hok Hfail. apply hoare_log_close; eauto. Qed.

Lemma keeps_while (I X : World -> Prop) (fuel : nat) (body : M unit) :
  (forall w, I w -> X w) ->
  keeps I X body -> keeps I X (while_running fuel body).
Proof.
  intros HX Hb. induction fuel as [| n IH]; intros w Hw; simpl.
  - destruct (running w); simpl; auto.
  - destruct (running w); simpl; [| exact Hw].
    apply (keeps_bind I X body (fun _ => while_running n body) Hb
             (fun _ => IH) w Hw).
Qed.

End Rules.

(** ** Tactics *)

Ltac unfold_ops :=
  unfold with_open;
  unfold serial_Serial, ser_fileno, tcgetattr, tcsetattr, signal_signal,
    print, traceback_print_exc, open_w_utf8, log_write, log_flush,
    ser_close, probe_open, probe_close.

(** Computing projections of updated worlds and recognisers on events. *)
Ltac wsimpl :=
  cbn [trace running ser log_file last_activity tick on_sigint on_sigterm
       push set_tick next handle_sigint set_running set_ser set_log_file
       set_last_activity set_handler handled id has existsb snd fst orb andb
       negb N.eqb Pos.eqb
       is_signal is_handled is_dropped signal_eqb is_handled_of is_handler
       is_any_handler is_ser_open_ok is_ser_open_fail is_tcset_ok
       is_ser_close is_log_open is_log_open_ok is_log_close is_read
       is_read_empty is_read_fail is_clock is_frame_record is_idle_print
       is_idle log_fail_msg is_log_fail is_report is_footer_write is_fatal
       is_log_event preceded sealed count after_first abort_of post] in *;
  unfold has in *.

(** [pres solver]: a computation keeps an invariant, the event-wise side
    conditions being left to [solver]. *)
Ltac pres solver :=
  repeat lazymatch goal with
  | |- preserves _ (ret _) => apply preserves_ret
  | |- preserves _ (raise _) => apply preserves_raise
  | |- preserves _ (get _) => apply preserves_get
  | |- preserves _ (call _ _ _) => apply preserves_call; [assumption | solver]
  | |- preserves _ (fallible _ _ _) =>
      apply preserves_fallible; [assumption | solver | solver]
  | |- preserves _ (strftime _ _) =>
      apply preserves_strftime; [assumption | solver]
  | |- preserves _ (time_time _) => unfold time_time
  | |- preserves _ (ser_read _ _) =>
      apply preserves_ser_read; [assumption | solver]
  | |- preserves _ (log_close _) =>
      apply preserves_log_close; [assumption | solver]
  | |- preserves _ (deliver _) => apply preserves_deliver; assumption
  | |- preserves _ (emit _ _) => apply preserves_emit; solver
  | |- preserves _ (modify _) => apply preserves_modify; solver
  | |- preserves _ (bind _ _) => apply preserves_bind; [| intro]
  | |- preserves _ (try_except _ _) => apply preserves_try_except; [| intro]
  | |- preserves _ (try_finally _ _) => apply preserves_try_finally
  | |- preserves _ (while_running _ _) => apply preserves_while
  | |- preserves _ (if ?c then _ else _) => destruct c
  | |- preserves _ (match ?c with _ => _ end) => destruct c
  end.

(** [stab unf solver]: an invariant survives signals; [unf] unfolds it. *)
Ltac stab unf solver :=
  split;
  [ intros ?w ?r ?w1 ?H [_ [[_ ->] | ([|] & _ & ?Hh & ->)]]
  | intros ?w [|] ?w1 ?H (_ & ?Hh & ->) ];
  unf; wsimpl; solver.


Ltac clear_stable :=
  repeat match goal with H : sig_stable _ _ |- _ => clear H end.

(** Splitting the two ways a call can start. *)
Ltac arrived :=
  match goal with
  | H : arrive _ _ _ _ |- _ =>
      destruct H as [?Hr [[?Hs ->] | ([|] & ?Hs & ?Hh & ->)]]
  | H : dropped _ ?w ?s _ |- _ =>
      destruct H as (?Hs & ?Hh & ->); destruct s
  end.

(** [hnext R tac]: one call, taking the precondition to [R]. *)
Ltac hcall tac :=
  try match goal with
      | |- hoare _ (if ?c then _ else _) _ _ => destruct c
      end;
  unfold_ops;
  first [ apply hoare_unit_call | apply hoare_unit_fallible
        | apply hoare_strftime | apply hoare_time_time
        | apply hoare_ser_read | apply hoare_log_close
        | apply hoare_modify | apply hoare_get
        | apply hoare_ret ];
  tac.
Ltac hnext Inv tac :=
  eapply hoare_bind with (R := fun _ => Inv); [hcall tac | intro].

(** [hwalk solver]: walk through the calls that keep the precondition,
    whatever the abrupt postcondition is. *)
Ltac hstep solver :=
  match goal with
  | |- hoare ?I (bind _ _) _ _ =>
      eapply hoare_bind with (R := fun _ => I);
      [ solve [hcall ltac:(intros; try arrived; solver)] | intro ]
  end.
Ltac hwalk solver := repeat hstep solver.

(** [hold hk solver]: a computation keeps an invariant of the hooked
    phase; [hk] proves that the invariant implies [hooked]. *)
Ltac hold hk solver :=
  repeat lazymatch goal with
  | |- holds _ (ret _) => apply holds_ret
  | |- holds _ (raise (Exception _)) => apply holds_raise
  | |- holds _ (get _) => apply holds_get
  | |- holds _ (call _ _ _) =>
      apply holds_call; [assumption | hk | solver]
  | |- holds _ (fallible _ _ _) =>
      apply holds_fallible; [assumption | hk | solver | solver]
  | |- holds _ (strftime _ _) =>
      apply holds_strftime; [assumption | hk | solver]
  | |- holds _ (time_time _) => unfold time_time
  | |- holds _ (ser_read _ _) =>
      apply holds_ser_read; [assumption | hk | solver]
  | |- holds _ (log_close _) =>
      apply holds_log_close; [assumption | hk | solver]
  | |- holds _ (modify _) => apply holds_modify; solver
  | |- holds _ (bind _ _) => apply holds_bind; [| intro]
  | |- holds _ (try_except _ _) => apply holds_try_except; [| intro]
  | |- holds _ (try_finally _ _) => apply holds_try_finally
  | |- holds _ (while_running _ _) => apply holds_while
  | |- holds _ (if ?c then _ else _) => destruct c
  | |- holds _ (match ?c with _ => _ end) => destruct c
  end.

(** [guards hk solver]: a computation of the hooked phase keeps an
    invariant or raises into the exceptional postcondition. *)
Ltac guards hk solver :=
  repeat lazymatch goal with
  | |- guarded _ _ (ret _) => apply guarded_ret
  | |- guarded _ _ (get _) => apply guarded_get
  | |- guarded _ _ (call _ _ _) =>
      apply guarded_call; [assumption | hk | solver]
  | |- guarded _ _ (fallible _ _ _) =>
      apply guarded_fallible; [assumption | hk | solver | solver]
  | |- guarded _ _ (strftime _ _) =>
      apply guarded_strftime; [assumption | hk | solver]
  | |- guarded _ _ (time_time _) => unfold time_time
  | |- guarded _ _ (ser_read _ _) =>
      apply guarded_ser_read; [assumption | hk | solver | solver]
  | |- guarded _ _ (log_close _) =>
      apply guarded_log_close; [assumption | hk | solver | solver]
  | |- guarded _ _ (modify _) => apply guarded_modify; solver
  | |- guarded _ _ (bind _ _) => apply guarded_bind; [| intro]
  | |- guarded _ _ (while_running _ _) => apply guarded_while
  | |- guarded _ _ (if ?c then _ else _) => destruct c
  | |- guarded _ _ (match ?c with _ => _ end) => destruct c
  end.

(** [steadies hk solver]: the same for a computation without read or
    loop. *)
Ltac steadies hk solver :=
  repeat lazymatch goal with
  | |- steady _ _ (ret _) => apply steady_ret
  | |- steady _ _ (get _) => apply steady_get
  | |- steady _ _ (call _ _ _) =>
      apply steady_call; [assumption | hk | solver]
  | |- steady _ _ (fallible _ _ _) =>
      apply steady_fallible; [assumption | hk | solver | solver]
  | |- steady _ _ (strftime _ _) =>
      apply steady_strftime; [assumption | hk | solver]
  | |- steady _ _ (time_time _) => unfold time_time
  | |- steady _ _ (log_close _) =>
      apply steady_log_close; [assumption | hk | solver | solver]
  | |- steady _ _ (modify _) => apply steady_modify; solver
  | |- steady _ _ (bind _ _) => apply steady_bind; [| intro]
  | |- steady _ _ (if ?c then _ else _) => destruct c
  | |- steady _ _ (match ?c with _ => _ end) => destruct c
  end.

(** [keep ix solver]: a computation keeps an invariant or is cut short
    into a weaker one; [ix] proves that the invariant implies the weaker
    one. *)
Ltac keep ix solver :=
  repeat lazymatch goal with
  | |- keeps _ _ (ret _) => apply keeps_ret
  | |- keeps _ _ (get _) => apply keeps_get
  | |- keeps _ _ (call _ _ _) =>
      apply keeps_call; [assumption | ix | solver]
  | |- keeps _ _ (fallible _ _ _) =>
      apply keeps_fallible; [assumption | ix | solver | solver]
  | |- keeps _ _ (strftime _ _) =>
      apply keeps_strftime; [assumption | ix | solver]
  | |- keeps _ _ (time_time _) => unfold time_time
  | |- keeps _ _ (ser_read _ _) =>
      apply keeps_ser_read; [assumption | ix | solver | solver]
  | |- keeps _ _ (log_close _) =>
      apply keeps_log_close; [assumption | ix | solver | solver]
  | |- keeps _ _ (modify _) => apply keeps_modify; solver
  | |- keeps _ _ (bind _ _) => apply keeps_bind; [| intro]
  | |- keeps _ _ (while_running _ _) => apply keeps_while; [ix |]
  | |- keeps _ _ (if ?c then _ else _) => destruct c
  | |- keeps _ _ (match ?c with _ => _ end) => destruct c
  end.

(** [kwalk ix solver]: walk through the steps that keep the precondition
    when the abrupt postcondition does not depend on the way out. *)
Ltac kstep ix solver :=
  match goal with
  | |- hoare ?I (bind ?m _) _ (fun _ => ?X) =>
      eapply hoare_bind with (R := fun _ => I);
      [ change (keeps I X m); solve [unfold_ops; keep ix solver] | intro ]
  end.
Ltac kwalk ix solver := repeat kstep ix solver.

(* ================================================================= *)
(** * Traces and histories *)

Lemma has_true_iff (p : event -> bool) (tr : list (Q * event)) :
  has p tr = true <-> exists x, In x tr /\ p (snd x) = true.
Proof. unfold has. apply existsb_exists. Qed.

Lemma has_false_iff (p : event -> bool) (tr : list (Q * event)) :
  has p tr = false <-> forall x, In x tr -> p (snd x) = false.
Proof.
  unfold has. split.
  - intros H x Hx. destruct (p (snd x)) eqn:Hp; [| reflexivity].
    assert (Ht : existsb (fun x => p (snd x)) tr = true)
      by (apply existsb_exists; eauto).
    congruence.
  - intros H. destruct (existsb _ tr) eqn:He; [| reflexivity].
    apply existsb_exists in He. destruct He as (x & Hx & Hp).
    rewrite (H x Hx) in Hp. discriminate.
Qed.

Lemma has_app (p : event -> bool) (a b : list (Q * event)) :
  has p (a ++ b) = has p a || has p b.
Proof. unfold has. apply existsb_app. Qed.

Lemma In_history (w : World) (e : event) :
  In e (history w) <-> exists t, In (t, e) (trace w).
Proof.
  unfold history. rewrite in_map_iff. split.
  - intros ([t e'] & He & Hin). simpl in He. subst e'.
    exists t. now apply in_rev.
  - intros (t & Hin). exists (t, e). split; [reflexivity |].
    now apply in_rev in Hin.
Qed.

Lemma has_history (p : event -> bool) (w : World) :
  has p (trace w) = true <-> exists e, In e (history w) /\ p e = true.
Proof.
  rewrite has_true_iff. split.
  - intros ([t e] & Hin & Hp). exists e. split; [| exact Hp].
    apply In_history. eauto.
  - intros (e & Hin & Hp). apply In_history in Hin. destruct Hin as (t & Hin).
    exists (t, e). auto.
Qed.

Lemma hasnt_history (p : event -> bool) (w : World) :
  has p (trace w) = false <-> forall e, In e (history w) -> p e = false.
Proof.
  rewrite has_false_iff. split.
  - intros H e Hin. apply In_history in Hin. destruct Hin as (t & Hin).
    apply (H (t, e) Hin).
  - intros H [t e] Hin. apply H. apply In_history. eauto.
Qed.

(** The events of a newest-first trace in the order they happened. *)
Lemma history_split (w : World) (pre post : list event) (e : event) :
  history w = pre ++ e :: post ->
  exists newer t older,
    trace w = newer ++ (t, e) :: older /\
    pre = map snd (rev older) /\ post = map snd (rev newer).
Proof.
  unfold history. intros H.
  apply map_eq_app in H. destruct H as (l1 & l2 & Hrev & H1 & H2).
  destruct l2 as [| [t e'] l2]; [discriminate |].
  simpl in H2. inversion H2; subst e' post. clear H2.
  exists (rev l2), t, (rev l1). rewrite !rev_involutive.
  split; [| split; [now symmetry | reflexivity]].
  rewrite <- (rev_involutive (trace w)), Hrev.
  rewrite rev_app_distr. simpl. rewrite <- app_assoc. reflexivity.
Qed.

Lemma in_map_snd_rev (tr : list (Q * event)) (e : event) :
  In e (map snd (rev tr)) <-> exists t, In (t, e) tr.
Proof.
  rewrite in_map_iff. split.
  - intros ([t e'] & He & Hin). simpl in He. subst e'.
    exists t. now apply in_rev.
  - intros (t & Hin). exists (t, e). split; [reflexivity |].
    now apply in_rev in Hin.
Qed.

Lemma has_map_snd_rev (p : event -> bool) (tr : list (Q * event)) :
  has p tr = true <-> exists e, In e (map snd (rev tr)) /\ p e = true.
Proof.
  rewrite has_true_iff. split.
  - intros ([t e] & Hin & Hp). exists e. split; [| exact Hp].
    apply in_map_snd_rev. eauto.
  - intros (e & Hin & Hp). apply in_map_snd_rev in Hin.
    destruct Hin as (t & Hin). exists (t, e). auto.
Qed.


Lemma preceded_split (p q : event -> bool) (tr newer older : list (Q * event))
  (x : Q * event) :
  preceded p q tr -> tr = newer ++ x :: older -> p (snd x) = true ->
  has q older = true.
Proof.
  revert tr. induction newer as [| y newer IH]; intros tr H -> Hp;
    simpl in H; destruct H as [H1 H2]; auto.
  eapply IH; eauto.
Qed.

(** What a recogniser says about the event it accepts. *)

Lemma is_ser_close_inv (e : event) :
  is_ser_close e = true -> e = EvSerialClose.
Proof. destruct e; simpl; congruence. Qed.

Lemma is_log_close_inv (e : event) : is_log_close e = true -> e = EvLogClose.
Proof. destruct e; simpl; congruence. Qed.

Lemma is_ser_open_ok_inv (e : event) :
  is_ser_open_ok e = true -> exists port, e = EvSerialOpen port None.
Proof.
  destruct e as [| port [|] | | | | | | | | | | | | | |]; simpl;
    try discriminate. eauto.
Qed.

Lemma is_log_open_ok_inv (e : event) :
  is_log_open_ok e = true -> exists path, e = EvLogOpen path None.
Proof.
  destruct e as [| | | | | | | | | | path [|] | | | | |]; simpl;
    try discriminate. eauto.
Qed.

Lemma is_tcset_ok_inv (e : event) :
  is_tcset_ok e = true -> e = EvTcsetattr 16 5 None.
Proof.
  destruct e as [| | | | vmin vtime [|] | | | | | | | | | | |]; simpl;
    try discriminate.
  intros H. apply andb_true_iff in H. destruct H as [H1 H2].
  apply N.eqb_eq in H1, H2. now subst.
Qed.

Lemma is_handler_inv (s : signal) (e : event) :
  is_handler s e = true -> e = EvHandler s.
Proof.
  destruct e as [| | | | | s' | | | | | | | | | |]; simpl; try discriminate.
  destruct s, s'; simpl; congruence.
Qed.

Lemma is_dropped_inv (e : event) :
  is_dropped e = true -> exists s, e = EvSignal s false.
Proof.
  destruct e as [s [|] | | | | | | | | | | | | | | |]; simpl;
    try discriminate. eauto.
Qed.

Lemma is_read_inv (e : event) :
  is_read e = true -> exists size res, e = EvRead size res.
Proof. destruct e; simpl; try discriminate. eauto. Qed.

Lemma has_of_In (p : event -> bool) (tr : list (Q * event)) (e : event) :
  In e (map snd (rev tr)) -> p e = true -> has p tr = true.
Proof. intros Hin Hp. apply has_map_snd_rev. eauto. Qed.

Lemma has_event (p : event -> bool) (w : World) (e : event) :
  In e (history w) -> p e = true -> has p (trace w) = true.
Proof. intros Hin Hp. apply has_history. eauto. Qed.

Lemma hoare_run {A} (P : World -> Prop) (m : M A) N X (w : World) :
  hoare P m N X -> P w -> post N X (fst (m w)) (snd (m w)).
Proof. intros H Hw. apply (H w Hw). Qed.

Lemma rlogs_push_log (t : Q) (e : event) (tr : list (Q * event)) :
  is_log_event e = true -> rlogs ((t, e) :: tr) = e :: rlogs tr.
Proof. intros H. unfold rlogs. simpl. now rewrite H. Qed.

Lemma rlogs_push_other (t : Q) (e : event) (tr : list (Q * event)) :
  is_log_event e = false -> rlogs ((t, e) :: tr) = rlogs tr.
Proof. intros H. unfold rlogs. simpl. now rewrite H. Qed.

Lemma rlogs_log_events (tr : list (Q * event)) :
  log_events (map snd (rev tr)) = rev (rlogs tr).
Proof.
  unfold log_events, rlogs. induction tr as [| [t e] tr IH]; [reflexivity |].
  simpl. rewrite map_app, filter_app, IH. simpl.
  destruct (is_log_event e); simpl; [reflexivity | now rewrite app_nil_r].
Qed.

(* ================================================================= *)
(** * Walking a script with one invariant *)

(** [hall solver] proves [hoare I m N X] for a computation built from
    library calls, sequencing, branching and the loop, when every call
    keeps [I]; [solver] proves what each call leaves to prove. *)
Ltac hall solver :=
  lazymatch goal with
  | |- hoare _ (ret _) _ _ => apply hoare_ret; solver
  | |- hoare _ (get _) _ _ => apply hoare_get; solver
  | |- hoare _ (modify _) _ _ => apply hoare_modify; solver
  | |- hoare ?Inv (bind _ _) _ _ =>
      eapply hoare_bind with (R := fun _ => Inv);
      [hall solver | intro; hall solver]
  | |- hoare _ (if ?c then _ else _) _ _ => destruct c; hall solver
  | |- hoare _ (match ?c with _ => _ end) _ _ => destruct c; hall solver
  | |- hoare ?Inv (while_running _ _) _ ?Xp =>
      eapply hoare_conseq;
      [ apply hoare_while with (I := Inv) (X := Xp);
        [ eapply hoare_conseq with
            (P' := Inv) (N' := fun _ => Inv) (X' := Xp);
          [hall solver | tauto | auto | auto]
        | solver ]
      | auto | intros ? ? [? _]; solver | auto ]
  | |- _ => hcall ltac:(intros; try arrived; solver)
  end.

(** Closing a goal made of conjunctions, implications, existentials and
    disjunctions over equations. *)
Ltac close :=
  lazymatch goal with
  | |- _ /\ _ => split; close
  | |- _ -> _ => intro; close
  | |- forall _, _ => intro; close
  | |- exists _, _ => first [congruence | eexists; close]
  | |- In _ (_ :: _) =>
      first [right; eassumption | left; reflexivity | right; close]
  | |- _ \/ _ => first [left; solve [close] | right; solve [close]]
  | |- _ =>
      first [ congruence | reflexivity | eassumption | lia
            | solve [intuition (try congruence)] ]
  end.

(** Taking the hypotheses apart. *)
Ltac open_hyps :=
  repeat match goal with
         | H : _ /\ _ |- _ => destruct H
         | H : _ \/ _ |- _ => destruct H
         | H : exists _, _ |- _ => destruct H
         | a : abrupt |- _ => destruct a as [[?|] | [|] |]
         | H : true = false |- _ => discriminate H
         | H : false = true |- _ => discriminate H
         | H : False |- _ => destruct H
         end.

(* ================================================================= *)
(** * Silent reads and idle notices: proofs *)

Module C1Facts.
Import C1.

Ltac u1 :=
  unfold silent_turn, Again, Told, Late, Read, Frame, Got, Begin, Same, Grown,
    NF in *.
Ltac grow :=
  repeat match goal with
         | H : trace ?w = _ |- _ => rewrite H in *; clear H
         end;
  rewrite ?app_comm_cons.
Ltac fin1 :=
  lazymatch goal with
  | |- _ /\ _ => split; [fin1 | wsimpl; fin1]
  | |- _ -> _ => intro; fin1
  | |- exists _, _ => first [congruence | eexists; fin1]
  | |- In _ (_ :: _) =>
      first [right; eassumption | left; reflexivity | right; fin1]
  | |- _ \/ _ => first [left; solve [fin1] | right; solve [fin1]]
  | |- _ =>
      first [ congruence | reflexivity | eassumption
            | solve [intuition (try congruence)] ]
  end.
Ltac s1 :=
  intros; clear_stable; u1; wsimpl;
  repeat match goal with
         | H : _ /\ _ |- _ => destruct H
         | H : exists _, _ |- _ => destruct H
         | H : true = false |- _ => discriminate H
         | H : false = true |- _ => discriminate H
         | H : False |- _ => destruct H
         end;
  subst; grow;
  try match goal with
      | |- context [EvRead _ (inl ?d)] => destruct d
      end;
  cbn [nonempty] in *; wsimpl; fin1.

(** A block of log calls guarded by [if log_file:]. *)
Ltac hblock Inv solver :=
  eapply hoare_bind with (R := fun _ => Inv);
  [ match goal with
    | |- hoare _ (if ?c then _ else _) _ _ => destruct c
    end;
    [ hwalk solver; hcall ltac:(intros; arrived; solver)
    | apply hoare_ret; auto ]
  | intro ].

Section Proofs.
Variable env : Env.
Variable w0 : World.

Lemma backend_turn :
  hoare (Begin w0) (Backend.loop_body env)
    (fun _ => silent_turn true w0) (fun _ => silent_turn false w0).
Proof.
  unfold Backend.loop_body.
  eapply hoare_bind with (R := Got w0).
  { hcall ltac:(intros; arrived; s1). }
  intros [| b data]; cbn [nonempty].
  - eapply hoare_bind with (R := Read w0).
    { hcall ltac:(intros; arrived; s1). }
    intros c.
    eapply hoare_bind with
      (R := fun la w => Read w0 c w /\ la = last_activity w).
    { apply hoare_get. auto. }
    intros la. destruct (Qlt_le_dec 10 (c - la)) as [Hlate | Hsoon].
    + eapply hoare_conseq with
        (P' := Late w0 c) (N' := fun _ => silent_turn true w0)
        (X' := fun _ => silent_turn false w0); [| s1 | auto | auto].
      hstep s1.
      hnext (Told w0 c) ltac:(intros; arrived; s1).
      do 2 (hstep s1).
      eapply hoare_bind with (R := Again w0 c).
      { hcall ltac:(intros; arrived; s1). }
      intros t. apply hoare_modify. s1.
    + apply hoare_ret. s1.
  - eapply hoare_conseq with
      (P' := Frame w0) (N' := fun _ => Frame w0)
      (X' := fun _ => Frame w0); [| s1 | s1 | s1].
    hwalk s1. apply hoare_modify. s1.
Qed.

Lemma raspberrypi_turn :
  hoare (Begin w0) (RaspberryPi.loop_body env)
    (fun _ => silent_turn true w0) (fun _ => silent_turn false w0).
Proof.
  unfold RaspberryPi.loop_body.
  eapply hoare_bind with (R := Got w0).
  { hcall ltac:(intros; arrived; s1). }
  intros [| b data]; cbn [nonempty].
  - eapply hoare_bind with (R := Read w0).
    { hcall ltac:(intros; arrived; s1). }
    intros c.
    eapply hoare_bind with
      (R := fun la w => Read w0 c w /\ la = last_activity w).
    { apply hoare_get. auto. }
    intros la. destruct (Qlt_le_dec 10 (c - la)) as [Hlate | Hsoon].
    + eapply hoare_conseq with
        (P' := Late w0 c) (N' := fun _ => silent_turn true w0)
        (X' := fun _ => silent_turn false w0); [| s1 | auto | auto].
      hstep s1.
      hnext (Told w0 c) ltac:(intros; arrived; s1).
      hstep s1. hblock (Told w0 c) s1.
      eapply hoare_bind with (R := Again w0 c).
      { hcall ltac:(intros; arrived; s1). }
      intros t. apply hoare_modify. s1.
    + apply hoare_ret. s1.
  - eapply hoare_conseq with
      (P' := Frame w0) (N' := fun _ => Frame w0)
      (X' := fun _ => Frame w0); [| s1 | s1 | s1].
    do 6 (hstep s1). hblock (Frame w0) s1.
    hwalk s1. apply hoare_modify. s1.
Qed.

Lemma Begin_start : Begin w0 w0.
Proof. u1. split; [reflexivity |]. exists []. simpl. auto. Qed.

End Proofs.
Ltac ut := unfold TR, TI, TLate, TC, TL, Quiet, SP, before, now in *.
Ltac st mono :=
  intros; clear_stable; ut; wsimpl;
  repeat match goal with
         | H : _ /\ _ |- _ => destruct H
         | H : true = false |- _ => discriminate H
         | H : false = true |- _ => discriminate H
         | H : False |- _ => destruct H
         end;
  subst; cbn [spaced last_idle fst snd is_idle_print] in *;
  repeat match goal with
         | w : World |- _ =>
             lazymatch goal with
             | _ : (r_time (oracle _ (tick w)) <= _)%Q |- _ => fail
             | _ => pose proof (mono (tick w))
             end
         end;
  repeat match goal with
         | |- context [last_idle (trace ?w)] =>
             destruct (last_idle (trace w)) in *
         | H : context [last_idle (trace ?w)] |- _ =>
             destruct (last_idle (trace w)) in *
         end;
  repeat split; first [assumption | discriminate | lra | exact I].

Section Timed.
Variable env : Env.
Hypothesis mono : monotone_clock env.

Lemma Quiet_stable : sig_stable env (fun w => Quiet w /\ SP w).
Proof. stab ut ltac:(try (st mono)). Qed.

Lemma SP_stable : sig_stable env SP.
Proof. stab ut ltac:(try (st mono)). Qed.

Lemma backend_loop_body :
  hoare (fun w => TL env w /\ running w = true) (Backend.loop_body env)
    (fun _ => TL env) (fun _ => SP).
Proof.
  eapply hoare_conseq with
    (P' := TL env) (N' := fun _ => TL env) (X' := fun _ => SP);
    [| tauto | auto | auto].
  unfold Backend.loop_body. hstep ltac:(st mono).
  destruct (nonempty a).
  - do 9 (hstep ltac:(st mono)).
    eapply hoare_bind with (R := TR env).
    { hcall ltac:(intros; arrived; st mono). }
    intros t. apply hoare_modify. st mono.
  - eapply hoare_bind with (R := TC env).
    { hcall ltac:(intros; arrived; st mono). }
    intros c.
    eapply hoare_bind with
      (R := fun la w => TC env c w /\ la = last_activity w).
    { apply hoare_get. auto. }
    intros la. destruct (Qlt_le_dec 10 (c - la)) as [Hlate | Hsoon].
    + eapply hoare_conseq with
        (P' := TLate env c) (N' := fun _ => TL env) (X' := fun _ => SP);
        [| st mono | auto | auto].
      hstep ltac:(st mono).
      hnext (TI env) ltac:(intros; arrived; st mono).
      do 2 (hstep ltac:(st mono)).
      eapply hoare_bind with (R := TR env).
      { hcall ltac:(intros; arrived; st mono). }
      intros t. apply hoare_modify. st mono.
    + apply hoare_ret. st mono.
Qed.

Lemma raspberrypi_loop_body :
  hoare (fun w => TL env w /\ running w = true) (RaspberryPi.loop_body env)
    (fun _ => TL env) (fun _ => SP).
Proof.
  eapply hoare_conseq with
    (P' := TL env) (N' := fun _ => TL env) (X' := fun _ => SP);
    [| tauto | auto | auto].
  unfold RaspberryPi.loop_body. hstep ltac:(st mono).
  destruct (nonempty a).
  - do 6 (hstep ltac:(st mono)). hblock (TL env) ltac:(st mono).
    eapply hoare_bind with (R := TR env).
    { hcall ltac:(intros; arrived; st mono). }
    intros t. apply hoare_modify. st mono.
  - eapply hoare_bind with (R := TC env).
    { hcall ltac:(intros; arrived; st mono). }
    intros c.
    eapply hoare_bind with
      (R := fun la w => TC env c w /\ la = last_activity w).
    { apply hoare_get. auto. }
    intros la. destruct (Qlt_le_dec 10 (c - la)) as [Hlate | Hsoon].
    + eapply hoare_conseq with
        (P' := TLate env c) (N' := fun _ => TL env) (X' := fun _ => SP);
        [| st mono | auto | auto].
      hstep ltac:(st mono).
      hnext (TI env) ltac:(intros; arrived; st mono).
      hstep ltac:(st mono). hblock (TI env) ltac:(st mono).
      eapply hoare_bind with (R := TR env).
      { hcall ltac:(intros; arrived; st mono). }
      intros t. apply hoare_modify. st mono.
    + apply hoare_ret. st mono.
Qed.

Lemma SP_handler (msg : string) :
  hoare SP
    (print env ErrorReport ("❌ エラー: " ++ msg) ;; traceback_print_exc env)
    (fun _ => SP) (fun _ => SP).
Proof. hwalk ltac:(st mono). hcall ltac:(intros; arrived; st mono). Qed.

Lemma SP_close_serial :
  hoare SP
    (s <- get ser ;;
     match s with
     | Some true => ser_close env
     | _ => ret tt
     end)
    (fun _ => SP) (fun _ => SP).
Proof.
  eapply hoare_bind with (R := fun _ => SP); [apply hoare_get; auto |].
  intros [[|] |]; [| apply hoare_ret; auto | apply hoare_ret; auto].
  hcall ltac:(intros; arrived; st mono).
Qed.

Lemma backend_spaced (fuel : nat) (port logfile : option string) :
  hoare (fun w => Quiet w /\ SP w)
    (Backend.monitor_serial env fuel port logfile)
    (fun _ => SP) (fun _ => SP).
Proof.
  pose proof Quiet_stable. unfold Backend.monitor_serial.
  kstep ltac:(intros ? ?; ut; tauto) ltac:(st mono).
  eapply hoare_try_finally with (N1 := fun _ => SP) (X1 := fun _ => SP);
    [| intros _; apply SP_close_serial | intros _; apply SP_close_serial
     | auto | auto].
  eapply hoare_try_except with (X1 := fun _ => SP);
    [| intros msg; apply SP_handler | auto | auto | auto].
  do 9 (kstep ltac:(intros ? ?; ut; tauto) ltac:(st mono)).
  eapply hoare_bind with (R := fun t w => Quiet w /\ TR env t w).
  { hcall ltac:(intros; arrived; st mono). }
  intros t. eapply hoare_bind with (R := fun _ => TL env).
  { apply hoare_modify. st mono. }
  intros _. eapply hoare_bind with (R := fun _ => TL env).
  - unfold with_open. hstep ltac:(st mono).
    eapply hoare_try_finally with
      (N1 := fun _ => TL env) (X1 := fun _ => SP).
    + do 7 (hstep ltac:(st mono)).
      eapply hoare_bind with (R := fun _ => TL env).
      { eapply hoare_conseq;
          [apply hoare_while with (I := TL env) (X := fun _ => SP);
           [apply backend_loop_body | st mono]
          | auto | intros ? ? [Hw _]; exact Hw | auto]. }
      intros _. hwalk ltac:(st mono).
      hcall ltac:(intros; arrived; st mono).
    + intros _. hcall ltac:(intros; arrived; st mono).
    + intros e. hcall ltac:(intros; arrived; st mono).
    + auto.
    + auto.
  - intros _. hcall ltac:(intros; arrived; st mono).
Qed.

Lemma SP_cleanup :
  hoare SP
    (f <- get log_file ;;
     (if is_file f then log_close env else ret tt) ;;
     s <- get ser ;;
     match s with
     | Some true => ser_close env
     | _ => ret tt
     end)
    (fun _ => SP) (fun _ => SP).
Proof.
  eapply hoare_bind with (R := fun _ => SP); [apply hoare_get; auto |].
  intros f. eapply hoare_bind with (R := fun _ => SP);
    [| intros _; apply SP_close_serial].
  destruct (is_file f); [| apply hoare_ret; auto].
  hcall ltac:(intros; arrived; st mono).
Qed.

Lemma raspberrypi_spaced (fuel : nat) (port : string) (logfile : logarg) :
  hoare (fun w => Quiet w /\ SP w)
    (RaspberryPi.monitor_serial env fuel port logfile)
    (fun _ => SP) (fun _ => SP).
Proof.
  pose proof Quiet_stable. unfold RaspberryPi.monitor_serial.
  do 2 (kstep ltac:(intros ? ?; ut; tauto) ltac:(st mono)).
  eapply hoare_try_finally with (N1 := fun _ => SP) (X1 := fun _ => SP);
    [| intros _; apply SP_cleanup | intros _; apply SP_cleanup
     | auto | auto].
  eapply hoare_try_except with (X1 := fun _ => SP);
    [| intros msg; apply SP_handler | auto | auto | auto].
  do 11 (kstep ltac:(intros ? ?; ut; tauto) ltac:(st mono)).
  eapply hoare_bind with (R := fun t w => Quiet w /\ TR env t w).
  { hcall ltac:(intros; arrived; st mono). }
  intros t. eapply hoare_bind with (R := fun _ => TL env).
  { apply hoare_modify. st mono. }
  intros _. hblock (TL env) ltac:(st mono).
  eapply hoare_bind with (R := fun _ => TL env).
  { eapply hoare_conseq;
      [apply hoare_while with (I := TL env) (X := fun _ => SP);
       [apply raspberrypi_loop_body | st mono]
      | auto | intros ? ? [Hw _]; exact Hw | auto]. }
  intros _. do 2 (hstep ltac:(st mono)).
  match goal with
  | |- hoare _ (if ?c then _ else _) _ _ => destruct c
  end; [| apply hoare_ret; st mono].
  hwalk ltac:(st mono). hcall ltac:(intros; arrived; st mono).
Qed.

End Timed.

Lemma Quiet_init : Quiet init_world /\ SP init_world.
Proof. ut. simpl. auto. Qed.

(** In a spaced trace no idle notice is newer than the newest one. *)
Lemma spaced_newest (tr : list (Q * event)) (t : Q) (e : event) :
  spaced tr -> In (t, e) tr -> is_idle_print e = true ->
  exists p, last_idle tr = Some p /\ (t <= p)%Q.
Proof.
  induction tr as [| [t0 e0] older IH]; intros Hs Hin He; [destruct Hin |].
  simpl in Hs. destruct Hs as [Hgap Hs]. simpl.
  destruct Hin as [Heq | Hin].
  - inversion Heq; subst. rewrite He. exists t. split; [reflexivity | lra].
  - destruct (IH Hs Hin He) as (p & Hp & Hle).
    destruct (is_idle_print e0).
    + rewrite Hp in Hgap. exists t0. split; [reflexivity | lra].
    + exists p. auto.
Qed.

Lemma spaced_app (newer older : list (Q * event)) :
  spaced (newer ++ older) -> spaced older.
Proof.
  induction newer as [| x newer IH]; [auto |]. simpl. intros [_ H]. auto.
Qed.

Lemma rate_limited_of_spaced (w : World) : SP w -> rate_limited w.
Proof.
  intros Hs pre mid post t1 t2 text1 text2 Hh. unfold timeline in Hh.
  apply (f_equal (@rev _)) in Hh. rewrite rev_involutive in Hh.
  rewrite rev_app_distr in Hh. simpl in Hh. rewrite rev_app_distr in Hh.
  simpl in Hh. rewrite <- !app_assoc in Hh. simpl in Hh.
  unfold SP in Hs. rewrite Hh in Hs. apply spaced_app in Hs.
  simpl in Hs. destruct Hs as [Hgap Hs].
  destruct (spaced_newest _ t1 (EvPrint IdleNotice text1) Hs)
    as (p & Hp & Hle); [apply in_elt | reflexivity |].
  rewrite Hp in Hgap. lra.
Qed.

End C1Facts.

Lemma silent_turn_of_post (w0 : World) (o : outcome unit) (w : World) :
  post (fun _ => silent_turn true w0) (fun _ => silent_turn false w0) o w ->
  silent_turn (finished o) w0 w.
Proof. destruct o; simpl; auto. Qed.

(** C1.  In both scripts, a turn of the loop whose read returned nothing
    produces no frame record, on the console or in the log; it emits an
    idle notice only with a clock reading more than 10 seconds past the
    last activity, and then ends by taking a new clock reading as the last
    activity; so, the clock never going back, any two idle notices of a
    run are more than 10 seconds apart, however many reads return
    nothing. *)
Theorem silent_reads_and_idle_notices (env : Env) :
  (forall w0,
     silent_turn (finished (fst (Backend.loop_body env w0))) w0
       (snd (Backend.loop_body env w0))) /\
  (forall w0,
     silent_turn (finished (fst (RaspberryPi.loop_body env w0))) w0
       (snd (RaspberryPi.loop_body env w0))) /\
  (monotone_clock env ->
   (forall fuel port logfile,
      rate_limited
        (snd (Backend.monitor_serial env fuel port logfile init_world))) /\
   (forall fuel port logfile,
      rate_limited
        (snd (RaspberryPi.monitor_serial env fuel port logfile init_world)))).
Proof.
  split; [| split].
  - intros w0. apply silent_turn_of_post.
    apply (hoare_run _ _ _ _ _ (C1Facts.backend_turn env w0)
             (C1Facts.Begin_start w0)).
  - intros w0. apply silent_turn_of_post.
    apply (hoare_run _ _ _ _ _ (C1Facts.raspberrypi_turn env w0)
             (C1Facts.Begin_start w0)).
  - intros mono. split; intros fuel port logfile;
      apply C1Facts.rate_limited_of_spaced.
    + pose proof (hoare_run _ _ _ _ _
                    (C1Facts.backend_spaced env mono fuel port logfile)
                    C1Facts.Quiet_init) as H.
      destruct (fst (Backend.monitor_serial env fuel port logfile init_world));
        exact H.
    + pose proof (hoare_run _ _ _ _ _
                    (C1Facts.raspberrypi_spaced env mono fuel port logfile)
                    C1Facts.Quiet_init) as H.
      destruct (fst (RaspberryPi.monitor_serial env fuel port logfile
                       init_world));
        exact H.
Qed.

(** A silent device watched for three turns: two idle notices, more than
    10 seconds apart. *)
Lemma silent_reads_and_idle_notices_witness :
  monotone_clock Sample.silent /\
  count is_idle_print (trace (snd C1.silent_run)) = 2 /\
  rate_limited (snd C1.silent_run).
Proof.
  assert (mono : monotone_clock Sample.silent).
  { intros n. unfold Sample.silent, Sample.posix. cbn [oracle r_time]. unfold Qle.
    cbn [Qnum Qden inject_Z]. lia. }
  split; [exact mono | split; [vm_compute; reflexivity |]].
  unfold C1.silent_run.
  exact (proj1 (proj2 (proj2 (silent_reads_and_idle_notices Sample.silent)) mono)
           3 (Some "/dev/ttyUSB0") (Some "serial.log")).
Defined.

(* ================================================================= *)
(** * Cooperative cancellation: proofs *)

Module C4Facts.
Import C4.

Ltac u4 :=
  unfold XF, FinalN, XH, X1, X2, Going, Skipped, Done, PHr, J, PHo, PHn, PH,
    I1, I0b, I0, U, LFC, INV, Fresh, NoSig, hooked in *.
Ltac case_sig :=
  repeat match goal with
         | H : after_first is_handled (trace ?w) = _ |- _ => rewrite H in *
         | H : context [after_first is_handled (trace ?w)] |- _ =>
             destruct (after_first is_handled (trace w)) in *
         | |- context [after_first is_handled (trace ?w)] =>
             destruct (after_first is_handled (trace w)) in *
         end.
Ltac case_log :=
  repeat match goal with
         | H : log_file ?w = _ |- _ => progress (rewrite H in * )
         | H : context [match log_file ?w with _ => _ end] |- _ =>
             destruct (log_file w) as [[|] |] in *
         | |- context [match log_file ?w with _ => _ end] =>
             destruct (log_file w) as [[|] |] in *
         end.
Ltac s4 :=
  intros; clear_stable; u4; wsimpl; cbn [newest_is snd] in *;
  repeat match goal with
         | H : _ /\ _ |- _ => destruct H
         | H : _ \/ _ |- _ => destruct H
         | a : abrupt |- _ => destruct a as [[?|] | [|] |]
         | H : true = false |- _ => discriminate H
         | H : false = true |- _ => discriminate H
         | H : False |- _ => destruct H
         end;
  case_sig; case_log; wsimpl; cbn [newest_is snd] in *;
  repeat match goal with
         | H : _ /\ _ |- _ => destruct H
         | H : Some _ = None |- _ => discriminate H
         | H : None = Some _ |- _ => discriminate H
         end;
  first [ solve [intuition (try congruence; try lia)]
        | left; solve [intuition (try congruence; try lia)]
        | right; solve [intuition (try congruence; try lia)] ].
Ltac hk4 := intros ? ?; u4; tauto.

Section Proofs.
Variable env : Env.

Lemma PH_stable_stop : sig_stable env PH.
Proof. stab u4 ltac:(try s4). Qed.
Lemma PHo_stable : sig_stable env PHo.
Proof. stab u4 ltac:(try s4). Qed.
Lemma J_stable_stop : sig_stable env J.
Proof. stab u4 ltac:(try s4). Qed.

Lemma backend_loop :
  hoare (fun w => PHo w /\ running w = true) (Backend.loop_body env)
    (fun _ => PHo) (XH PHo).
Proof.
  pose proof PHo_stable. unfold Backend.loop_body.
  hnext PHo ltac:(intros; arrived; s4).
  eapply hoare_of_steady with (I := PHo) (E := fun _ => PHo);
    [unfold_ops; steadies hk4 s4 | s4 | s4 | s4].
Qed.

Lemma PHr_stable : sig_stable env PHr.
Proof. stab u4 ltac:(try s4). Qed.

Lemma raspberrypi_loop :
  hoare (fun w => PHr w /\ running w = true) (RaspberryPi.loop_body env)
    (fun _ => PHr) (XH PHr).
Proof.
  pose proof PHr_stable. unfold RaspberryPi.loop_body.
  hnext PHr ltac:(intros; arrived; s4).
  eapply hoare_of_steady with (I := PHr) (E := fun _ => PHr);
    [unfold_ops; steadies hk4 s4 | s4 | s4 | s4].
Qed.

Lemma U_stable : sig_stable env U.
Proof. stab u4 ltac:(try s4). Qed.

Lemma handler_backend (msg : string) :
  hoare (fun w => U w \/ J w)
    (print env ErrorReport ("❌ エラー: " ++ msg) ;; traceback_print_exc env)
    (fun _ w => U w \/ J w) X2.
Proof. hstep s4. hcall ltac:(intros; arrived; s4). Qed.

Lemma handler_raspberrypi (msg : string) :
  hoare (fun w => U w \/ PHr w)
    (print env ErrorReport ("❌ エラー: " ++ msg) ;; traceback_print_exc env)
    (fun _ w => U w \/ PHr w) X2.
Proof. hstep s4. hcall ltac:(intros; arrived; s4). Qed.

Lemma close_serial_stop (strict : bool) :
  hoare (fun w => U w \/ J w)
    (s <- get ser ;;
     match s with
     | Some true => ser_close env
     | _ => ret tt
     end)
    (fun _ => FinalN) (XF strict).
Proof.
  eapply hoare_bind with
    (R := fun s w => (U w \/ J w) /\ s = ser w).
  - apply hoare_get. auto.
  - intros [[|] |]; [| apply hoare_ret; s4 | apply hoare_ret; s4].
    hcall ltac:(intros; arrived; s4).
Qed.

(** The [finally] block of the raspberrypi monitor: when closing the log
    raises, the port is left open. *)
Lemma close_log_then_serial_stop :
  hoare (fun w => U w \/ PHr w)
    (f <- get log_file ;;
     (if is_file f then log_close env else ret tt) ;;
     s <- get ser ;;
     match s with
     | Some true => ser_close env
     | _ => ret tt
     end)
    (fun _ => FinalN) (XF false).
Proof.
  eapply hoare_bind with
    (R := fun f w => (U w \/ PHr w) /\ f = log_file w).
  { apply hoare_get. auto. }
  intros f. eapply hoare_bind with (R := fun _ w => U w \/ J w).
  - destruct f as [b |]; simpl.
    + hcall ltac:(intros; arrived; s4).
    + apply hoare_ret. s4.
  - intros _. apply close_serial_stop.
Qed.

Lemma U_cleanup_backend (strict : bool) (e : exn) :
  hoare (X2 (ARaise e))
    (s <- get ser ;;
     match s with
     | Some true => ser_close env
     | _ => ret tt
     end)
    (fun _ => XF strict (ARaise e)) (XF strict).
Proof.
  pose proof U_stable.
  eapply hoare_of_preserves with (I := U);
    [unfold_ops; pres s4 | destruct e; s4 | destruct e; s4 | s4].
Qed.

Lemma U_cleanup_raspberrypi (e : exn) :
  hoare (X2 (ARaise e))
    (f <- get log_file ;;
     (if is_file f then log_close env else ret tt) ;;
     s <- get ser ;;
     match s with
     | Some true => ser_close env
     | _ => ret tt
     end)
    (fun _ => XF false (ARaise e)) (XF false).
Proof.
  pose proof U_stable.
  eapply hoare_of_preserves with (I := U);
    [unfold_ops; pres s4 | destruct e; s4 | destruct e; s4 | s4].
Qed.

Lemma backend_final_stop (fuel : nat) (port logfile : option string) :
  hoare I0 (Backend.monitor_serial env fuel port logfile)
    (fun _ => FinalN) (XF true).
Proof.
  unfold Backend.monitor_serial.
  eapply hoare_bind with (R := fun _ => I0).
  { destruct logfile; [apply hoare_ret; auto |].
    hstep s4. apply hoare_ret. auto. }
  intros name.
  eapply hoare_try_finally with
    (N1 := fun _ w => U w \/ J w) (X1 := X2).
  - eapply hoare_try_except with (X1 := X1 J); try solve [s4].
    + eapply hoare_conseq with (P' := I0) (N' := fun _ => J) (X' := X1 J);
        [| auto | s4 | auto].
      hnext I0b ltac:(intros; arrived; s4).
      eapply hoare_bind with (R := fun _ => I0b).
      { destruct (HAS_TERMIOS env && negb (win env)).
        - hwalk s4. apply hoare_ret. auto.
        - apply hoare_ret. auto. }
      intros info. hwalk s4.
      hnext I1 ltac:(intros; arrived; s4).
      hnext PHn ltac:(intros; arrived; s4).
      hwalk s4.
      eapply hoare_bind with (R := fun _ => J).
      * unfold with_open.
        hnext PHo ltac:(intros; arrived; s4).
        eapply hoare_try_finally with
          (N1 := fun _ => PHo) (X1 := XH PHo).
        -- hwalk s4.
           eapply hoare_bind with (R := fun _ => PHo).
           { eapply hoare_conseq;
               [apply hoare_while with (I := PHo); [apply backend_loop |]
               | | |]; s4. }
           intros _. hwalk s4. hcall ltac:(intros; arrived; s4).
        -- intros _. hcall ltac:(intros; arrived; s4).
        -- intros [msg |]; hcall ltac:(intros; arrived; s4).
        -- s4.
        -- s4.
      * intros _. hcall ltac:(intros; arrived; s4).
    + intros msg. apply handler_backend.
  - intros _. apply close_serial_stop.
  - intros e. apply U_cleanup_backend.
  - s4.
  - s4.
Qed.

Lemma raspberrypi_final_stop (fuel : nat) (port : string) (logfile : logarg) :
  hoare I0 (RaspberryPi.monitor_serial env fuel port logfile)
    (fun _ => FinalN) (XF false).
Proof.
  pose proof PHr_stable. unfold RaspberryPi.monitor_serial.
  eapply hoare_bind with (R := fun _ => I0).
  { apply hoare_modify. s4. }
  intros _. eapply hoare_bind with (R := fun _ => I0).
  { destruct (truthy logfile); [| apply hoare_ret; auto].
    destruct logfile; try (apply hoare_ret; auto).
    hstep s4. apply hoare_ret. auto. }
  intros name.
  eapply hoare_try_finally with
    (N1 := fun _ w => U w \/ PHr w) (X1 := X2).
  - eapply hoare_try_except with (X1 := X1 PHr); try solve [s4].
    + eapply hoare_conseq with
        (P' := I0) (N' := fun _ => PHr) (X' := X1 PHr);
        [| auto | s4 | auto].
      hnext I0b ltac:(intros; arrived; s4).
      hwalk s4.
      hnext I1 ltac:(intros; arrived; s4).
      hnext PHn ltac:(intros; arrived; s4).
      hwalk s4.
      eapply hoare_bind with (R := fun _ => PHr).
      { destruct (truthy name).
        - hnext PHr ltac:(intros; arrived; s4).
          eapply hoare_of_steady with (I := PHr) (E := fun _ => PHr);
            [unfold_ops; steadies hk4 s4 | s4 | s4 | s4].
        - apply hoare_ret. s4. }
      intros _.
      eapply hoare_bind with (R := fun _ => PHr).
      { eapply hoare_conseq;
          [apply hoare_while with (I := PHr); [apply raspberrypi_loop |]
          | | |]; s4. }
      intros _.
      eapply hoare_of_steady with (I := PHr) (E := fun _ => PHr);
        [unfold_ops; steadies hk4 s4 | s4 | s4 | s4].
    + intros msg. apply handler_raspberrypi.
  - intros _. apply close_log_then_serial_stop.
  - intros e. apply U_cleanup_raspberrypi.
  - s4.
  - s4.
Qed.

End Proofs.

Lemma I0_init_stop : I0 init_world.
Proof. u4. simpl. intuition. Qed.

Lemma handle_sigint_only_clears_flag : only_clears_flag handle_sigint.
Proof. intros w. unfold handle_sigint, set_running. simpl. tauto. Qed.

Lemma occurrences_count (p : event -> bool) (tr : list (Q * event)) :
  occurrences p (map snd (rev tr)) = count p tr.
Proof.
  unfold occurrences. induction tr as [| x tr IH]; [reflexivity |].
  simpl. rewrite map_app, filter_app, length_app, IH. simpl.
  destruct (p (snd x)); simpl; lia.
Qed.

Lemma count_app (p : event -> bool) (a b : list (Q * event)) :
  count p (a ++ b) = count p a + count p b.
Proof. induction a as [| x a IH]; simpl; [reflexivity | rewrite IH; lia]. Qed.

(** The events newer than any event satisfying [p] are among those newer
    than the oldest one. *)
Lemma after_first_prefix (p : event -> bool)
  (newer older : list (Q * event)) (x : Q * event) :
  p (snd x) = true ->
  exists rest, after_first p (newer ++ x :: older) = Some (newer ++ rest).
Proof.
  intros Hp. induction newer as [| y newer IH]; simpl.
  - destruct (after_first p older) as [l |]; [exists (x :: l) | exists []];
      [reflexivity | now rewrite Hp].
  - destruct IH as (rest & ->). exists rest. reflexivity.
Qed.

(** A trace whose newest event is the closing of the log. *)
Lemma newest_close_history (w : World) :
  newest_is is_log_close (trace w) = true ->
  exists pre, history w = (pre ++ [EvLogClose])%list.
Proof.
  unfold history. destruct (trace w) as [| [t e] tr]; simpl; [discriminate |].
  intros He. apply is_log_close_inv in He. subst e.
  exists (map snd (rev tr)). now rewrite map_app.
Qed.

Lemma stop_of_final (strict : bool) (o : outcome unit) (w : World) :
  post (fun _ => FinalN) (XF strict) o w -> cooperative_stop strict o w.
Proof.
  intros H pre s post0 Hh.
  apply history_split in Hh.
  destruct Hh as (newer & t & older & Htr & -> & ->).
  destruct (after_first_prefix is_handled newer older (t, EvSignal s true)
              eq_refl) as (rest & Haf).
  rewrite <- Htr in Haf.
  assert (Hnot : ~ NoSig w) by (unfold NoSig; congruence).
  assert (Hreads : forall n, count is_read (newer ++ rest) <= n ->
                     occurrences is_read (map snd (rev newer)) <= n).
  { intros n Hn. rewrite count_app in Hn. rewrite occurrences_count. lia. }
  destruct o as [[] | [msg |] | s' |]; simpl in H.
  - destruct H as [Hn | (Hinv & Hclose & Hlog)]; [contradiction |].
    unfold INV in Hinv. rewrite Haf in Hinv. destruct Hinv as [_ Hr].
    split; [apply Hreads; exact Hr |].
    split; [discriminate |]. intros _.
    unfold history. rewrite !occurrences_count. split.
    + intros (path & Hin). apply Hlog.
      eapply has_event; [exact Hin | reflexivity].
    + left. split; [reflexivity | exact Hclose].
  - destruct H as [Hn | (Hs & Hinv & Hclose & Hlog & Hnew)];
      [contradiction |].
    unfold INV in Hinv. rewrite Haf in Hinv. destruct Hinv as [_ Hr].
    split; [apply Hreads; exact Hr |].
    split; [discriminate |]. intros _.
    destruct (newest_close_history w Hnew) as (pre' & Hpre).
    split.
    + intros _. unfold history. rewrite occurrences_count. exact Hlog.
    + right. split; [exact Hs |]. exists msg, pre'.
      split; [reflexivity |]. split; [exact Hpre |].
      unfold history. rewrite occurrences_count. exact Hclose.
  - contradiction.
  - contradiction.
  - destruct H as [Hn | Hf]; [contradiction |].
    unfold Fresh in Hf. rewrite Haf in Hf. inversion Hf as [Hnil].
    apply app_eq_nil in Hnil. destruct Hnil as [-> _]. simpl.
    split; [unfold occurrences; simpl; lia |].
    split; [reflexivity |]. intros Hne. now destruct Hne.
Qed.

End C4Facts.

(** The handler clears [running] and changes nothing else.  In both
    scripts, once a signal has been handled, at most one read completes
    (the one in flight or about to start).  The backend monitor then
    returns, with the log, if it was opened, and the port closed exactly
    once each, unless the read the signal arrived in never returns.  So
    does the raspberrypi monitor, except when closing the log raises: it
    is then left by that exception and its port is not closed. *)
Theorem cancellation_is_cooperative (env : Env) (fuel : nat) :
  only_clears_flag handle_sigint /\
  (forall port logfile,
     cooperative_stop true
       (fst (Backend.monitor_serial env fuel port logfile init_world))
       (snd (Backend.monitor_serial env fuel port logfile init_world))) /\
  (forall port logfile,
     cooperative_stop false
       (fst (RaspberryPi.monitor_serial env fuel port logfile init_world))
       (snd (RaspberryPi.monitor_serial env fuel port logfile init_world))).
Proof.
  split; [apply C4Facts.handle_sigint_only_clears_flag |].
  split; intros port logfile; apply C4Facts.stop_of_final.
  - apply (hoare_run _ _ _ _ _ (C4Facts.backend_final_stop env fuel port logfile)
             C4Facts.I0_init_stop).
  - apply (hoare_run _ _ _ _ _
             (C4Facts.raspberrypi_final_stop env fuel port logfile)
             C4Facts.I0_init_stop).
Qed.

(** SIGINT during the second read of the backend monitor: that read
    completes, no other does, and port and log are closed once each.
    SIGINT during a read that never returns: the monitor is still
    waiting, the signal being the last thing that happened. *)
Lemma cancellation_is_cooperative_witness :
  (exists pre post,
     history (snd C4.cancelled_run)
     = (pre ++ EvSignal SIGINT true :: post)%list /\
     occurrences is_read post <= 1 /\
     fst C4.cancelled_run = Ok tt /\
     occurrences is_ser_close (history (snd C4.cancelled_run)) = 1 /\
     occurrences is_log_close (history (snd C4.cancelled_run)) = 1) /\
  (exists pre,
     history (snd C4.stuck_run) = (pre ++ [EvSignal SIGINT true])%list /\
     fst C4.stuck_run = Pending).
Proof.
  split.
  - unfold C4.cancelled_run.
    match goal with
    | |- exists pre post, history (snd ?run) = _ /\ _ =>
        assert (Hin : In (EvSignal SIGINT true) (history (snd run)))
          by (vm_compute; repeat first [left; reflexivity | right]);
        assert (Hopen : In (EvLogOpen "serial.log" None) (history (snd run)))
          by (vm_compute; repeat first [left; reflexivity | right]);
        assert (Hgo : fst run <> Pending)
          by (vm_compute; discriminate)
    end.
    destruct (in_split _ _ Hin) as (pre & post & Heq).
    destruct (proj1 (proj2 (cancellation_is_cooperative Sample.cancelled 3))
                (Some "/dev/ttyUSB0") (Some "serial.log") pre _ post Heq)
      as (Hread & _ & Hrest).
    destruct (Hrest Hgo) as (Hlog & [[Hok Hser] | [Hs _]]);
      [| discriminate Hs].
    exists pre, post.
    split; [exact Heq | split; [exact Hread | split; [exact Hok |]]].
    split; [exact Hser | apply Hlog; exists "serial.log"; exact Hopen].
  - unfold C4.stuck_run.
    match goal with
    | |- exists pre, history (snd ?run) = _ /\ _ =>
        assert (Hin : In (EvSignal SIGINT true) (history (snd run)))
          by (vm_compute; repeat first [left; reflexivity | right]);
        assert (Hwait : fst run = Pending)
          by (vm_compute; reflexivity)
    end.
    destruct (in_split _ _ Hin) as (pre & post & Heq).
    destruct (proj1 (proj2 (cancellation_is_cooperative Sample.stuck 3))
                (Some "/dev/ttyUSB0") (Some "serial.log") pre _ post Heq)
      as (_ & Hlast & _).
    exists pre. split; [| exact Hwait].
    rewrite Heq. f_equal. f_equal. exact (Hlast Hwait).
Defined.

(** C4, at the failing input.  The raspberrypi monitor logs; SIGINT
    arrives during its first read, which returns a frame; the disk is full
    when the session ends.  The loop stops after that read,
    [log_file.close()] raises in the [finally] block and [ser.close()] is
    skipped: the port is never closed and the monitor is left by the
    exception, against the claim.  The backend monitor, in the same
    situation, closes its port and returns. *)
Lemma cancelled_session_leaves_port_open :
  In (EvSignal SIGINT true) (history (snd C4.unclosed_run)) /\
  fst C4.unclosed_run = Raise (Exception "No space left on device") /\
  occurrences is_log_close (history (snd C4.unclosed_run)) = 1 /\
  occurrences is_ser_close (history (snd C4.unclosed_run)) = 0 /\
  ser (snd C4.unclosed_run) = Some true /\
  ~ cooperative_stop true (fst C4.unclosed_run) (snd C4.unclosed_run) /\
  fst C4.sibling_run = Ok tt /\
  occurrences is_ser_close (history (snd C4.sibling_run)) = 1.
Proof.
  assert (Hin : In (EvSignal SIGINT true) (history (snd C4.unclosed_run)))
    by (vm_compute; repeat first [left; reflexivity | right]).
  assert (Hexn : fst C4.unclosed_run
                 = Raise (Exception "No space left on device"))
    by (vm_compute; reflexivity).
  split; [exact Hin | split; [exact Hexn |]].
  split; [vm_compute; reflexivity |].
  split; [vm_compute; reflexivity |].
  split; [vm_compute; reflexivity |].
  split; [| split; vm_compute; reflexivity].
  intros H. destruct (in_split _ _ Hin) as (pre & post & Heq).
  destruct (H pre _ post Heq) as (_ & _ & Hrest).
  assert (Hgo : fst C4.unclosed_run <> Pending)
    by (rewrite Hexn; discriminate).
  destruct (Hrest Hgo) as (_ & [[Hok _] | [Hs _]]).
  - rewrite Hexn in Hok. discriminate Hok.
  - discriminate Hs.
Qed.

(* ================================================================= *)
(** * The log footer: proofs *)

Module C5Facts.
Import C5.

Ltac u5 :=
  unfold Start, FN, TriedB, Tried, Body, RQ, Closed, Written, WrittenB, Writing, Top, EQ, Pre,
    NoLog, Fine, Q, W1, W2, W3, footer_events in *.
Ltac push_logs5 :=
  repeat first
    [ rewrite rlogs_push_log by reflexivity
    | rewrite rlogs_push_other by reflexivity ].
Ltac fin5 :=
  lazymatch goal with
  | |- _ /\ _ => split; fin5
  | |- _ -> _ => intro; fin5
  | |- exists _, _ => first [congruence | eexists; fin5]
  | |- _ \/ _ => first [left; solve [fin5] | right; solve [fin5]]
  | |- _ =>
      first [ congruence | reflexivity | eassumption
            | solve [intuition (try congruence)] ]
  end.
Ltac s5 :=
  intros; clear_stable; u5; wsimpl;
  repeat match goal with
         | H : _ /\ _ |- _ => destruct H
         | H : _ \/ _ |- _ => destruct H
         | H : exists _, _ |- _ => destruct H
         | a : abrupt |- _ => destruct a as [[?|] | [|] |]
         | H : true = false |- _ => discriminate H
         | H : false = true |- _ => discriminate H
         | H : False |- _ => destruct H
         end;
  cbn [rev app] in *; push_logs5;
  repeat match goal with
         | H : rlogs _ = _ |- _ => rewrite H in *
         end;
  subst; fin5.
Ltac ix5 := intros ? ?; u5; intuition (try congruence).

Section Proofs.
Variable env : Env.

Lemma Pre_stable : sig_stable env Pre.
Proof. stab u5 ltac:(try s5). Qed.

Lemma backend_final_footer (fuel : nat) (port logfile : option string) :
  hoare Pre (Backend.monitor_serial env fuel port logfile)
    (fun _ => FN) (fun _ => Q).
Proof.
  pose proof Pre_stable. unfold Backend.monitor_serial.
  kstep ix5 s5.
  eapply hoare_try_finally with
    (N1 := fun _ => TriedB) (X1 := fun _ => Q).
  - eapply hoare_try_except with (X1 := fun _ => EQ); try solve [s5].
    + eapply hoare_conseq with (P' := Pre) (N' := fun _ => Closed)
        (X' := fun _ => EQ); [| auto | s5 | auto].
      kwalk ix5 s5.
      eapply hoare_bind with (R := fun _ => Closed).
      * unfold with_open. kstep ix5 s5.
        eapply hoare_try_finally with
          (N1 := fun _ => WrittenB) (X1 := fun _ => EQ).
        -- unfold Backend.loop_body. kwalk ix5 s5.
           hnext (Top [W1]) ltac:(intros; arrived; s5).
           eapply hoare_bind with (R := fun _ => Top [W1]);
             [hcall ltac:(intros; arrived; s5) | intros stop].
           hnext (Top [W2 stop; W1]) ltac:(intros; arrived; s5).
           hcall ltac:(intros; arrived; s5).
        -- intros _. hcall ltac:(intros; arrived; s5).
        -- intros e. hcall ltac:(intros; arrived; s5).
        -- s5.
        -- s5.
      * intros _. hcall ltac:(intros; arrived; s5).
    + intros msg.
      hnext RQ ltac:(intros; arrived; s5).
      hcall ltac:(intros; arrived; s5).
  - intros _.
    eapply hoare_bind with (R := fun _ => TriedB); [apply hoare_get; auto |].
    intros [[|] |]; [| apply hoare_ret; s5 | apply hoare_ret; s5].
    hcall ltac:(intros; arrived; s5).
  - intros e.
    eapply hoare_bind with (R := fun _ => Q); [apply hoare_get; auto |].
    intros [[|] |]; [| apply hoare_ret; s5 | apply hoare_ret; s5].
    hcall ltac:(intros; arrived; s5).
  - s5.
  - s5.
Qed.

Lemma close_serial_footer :
  hoare FN
    (s <- get ser ;;
     match s with
     | Some true => ser_close env
     | _ => ret tt
     end)
    (fun _ => FN) (fun _ => Q).
Proof.
  eapply hoare_bind with (R := fun _ => FN); [apply hoare_get; auto |].
  intros [[|] |]; [| apply hoare_ret; s5 | apply hoare_ret; s5].
  hcall ltac:(intros; arrived; s5).
Qed.

Lemma raspberrypi_final_footer (fuel : nat) (port : string) (logfile : logarg) :
  hoare Start (RaspberryPi.monitor_serial env fuel port logfile)
    (fun _ => FN) (fun _ => Q).
Proof.
  pose proof Pre_stable. unfold RaspberryPi.monitor_serial.
  eapply hoare_bind with (R := fun _ => Pre); [apply hoare_modify; s5 |].
  intros _. kstep ix5 s5.
  eapply hoare_try_finally with
    (N1 := fun _ => Tried) (X1 := fun _ => Q).
  - eapply hoare_try_except with (X1 := fun _ => EQ); try solve [s5].
    + eapply hoare_conseq with (P' := Pre) (N' := fun _ => Body)
        (X' := fun _ => EQ); [| auto | s5 | auto].
      unfold RaspberryPi.loop_body. do 16 (kstep ix5 s5).
      eapply hoare_bind with (R := fun f w => Pre w /\ f = log_file w);
        [apply hoare_get; auto |].
      intros [[|] |]; cbn [is_file];
        [| intros w Hw; exfalso; revert Hw; s5 | apply hoare_ret; s5].
      hnext (Writing [W1]) ltac:(intros; arrived; s5).
      eapply hoare_bind with (R := fun _ => Writing [W1]);
        [hcall ltac:(intros; arrived; s5) | intros stop].
      hnext (Writing [W2 stop; W1]) ltac:(intros; arrived; s5).
      hcall ltac:(intros; arrived; s5).
    + intros msg.
      hnext RQ ltac:(intros; arrived; s5).
      hcall ltac:(intros; arrived; s5).
  - intros _.
    eapply hoare_bind with (R := fun f w => Tried w /\ f = log_file w);
      [apply hoare_get; auto |].
    intros f. eapply hoare_bind with (R := fun _ => FN);
      [| intros _; apply close_serial_footer].
    destruct f as [b |]; cbn [is_file]; [| apply hoare_ret; s5].
    hcall ltac:(intros; arrived; s5).
  - intros e.
    eapply hoare_bind with (R := fun _ => Q); [apply hoare_get; auto |].
    intros f. eapply hoare_bind with (R := fun _ => Q).
    { destruct (is_file f); [| apply hoare_ret; auto].
      hcall ltac:(intros; arrived; s5). }
    intros _.
    eapply hoare_bind with (R := fun _ => Q); [apply hoare_get; auto |].
    intros [[|] |]; [| apply hoare_ret; s5 | apply hoare_ret; s5].
    hcall ltac:(intros; arrived; s5).
  - s5.
  - s5.
Qed.

End Proofs.
Lemma Pre_init : Pre init_world.
Proof. u5. simpl. intuition. Qed.

Lemma Start_init : Start init_world.
Proof. u5. simpl. intuition. Qed.

Lemma clean_stop_of_final (o : outcome unit) (w : World) :
  post (fun _ => FN) (fun _ => Q) o w -> footer_on_clean_stop o w.
Proof.
  intros H. split.
  - intros (path & Hopen) Hrep ->. simpl in H.
    destruct H as [_ [Hr | [Hn | (stop & _ & older & Hl)]]].
    + apply has_history in Hr. destruct Hr as (e & Hin & He).
      destruct e as [| | | | | | [] text | | | | | | | | |];
        try discriminate.
      destruct (Hrep text Hin).
    + rewrite (has_event is_log_open_ok w _ Hopen eq_refl) in Hn.
      discriminate.
    + exists stop, (rev older). unfold history.
      rewrite rlogs_log_events, Hl, rev_app_distr, rev_involutive.
      reflexivity.
  - intros (e & Hin & He) text err Hin'.
    assert (HQ : Q w).
    { destruct o as [[] | ex | s |]; simpl in H;
        [exact (proj1 H) | exact H ..]. }
    specialize (HQ (has_event is_fatal w e Hin He)).
    rewrite hasnt_history in HQ. specialize (HQ _ Hin'). discriminate.
Qed.

End C5Facts.

(** C5, as stated, fails: the backend monitor whose first read raises
    closes its log without a footer line. *)
Lemma footer_missing_after_read_error :
  In (EvRead 16 (inr "device disconnected")) (history (snd C5.failed_run)) /\
  In EvLogClose (history (snd C5.failed_run)) /\
  ~ footer_on_every_stop (snd C5.failed_run).
Proof.
  assert (Hread : In (EvRead 16 (inr "device disconnected"))
                     (history (snd C5.failed_run))).
  { vm_compute. repeat first [left; reflexivity | right]. }
  assert (Hclose : In EvLogClose (history (snd C5.failed_run))).
  { vm_compute. repeat first [left; reflexivity | right]. }
  split; [exact Hread | split; [exact Hclose |]].
  intros H. destruct (in_split _ _ Hclose) as (pre & post & Heq).
  assert (Hloop : exists size res,
             In (EvRead size res) (history (snd C5.failed_run))).
  { exists 16, (inr "device disconnected"). exact Hread. }
  destruct (H Hloop pre post Heq) as (text & Hin).
  assert (Hin' : In (EvLogWrite Footer text None)
                    (history (snd C5.failed_run))).
  { rewrite Heq. apply in_or_app. left. exact Hin. }
  assert (Hnone : has is_footer_write (trace (snd C5.failed_run)) = false).
  { vm_compute. reflexivity. }
  rewrite hasnt_history in Hnone. specialize (Hnone _ Hin').
  discriminate Hnone.
Qed.

(** C5, amended.  In both scripts, a monitor that returns without having
    reported an error ends its log with the three footer lines followed by
    the close of the file (no flush in between: closing flushes); and once
    a read, a record write or a flush has failed, no footer line is
    written. *)
Theorem footer_after_clean_stop (env : Env) (fuel : nat) :
  (forall port logfile,
     footer_on_clean_stop
       (fst (Backend.monitor_serial env fuel port logfile init_world))
       (snd (Backend.monitor_serial env fuel port logfile init_world))) /\
  (forall port logfile,
     footer_on_clean_stop
       (fst (RaspberryPi.monitor_serial env fuel port logfile init_world))
       (snd (RaspberryPi.monitor_serial env fuel port logfile init_world))).
Proof.
  split; intros port logfile; apply C5Facts.clean_stop_of_final.
  - apply (hoare_run _ _ _ _ _ (C5Facts.backend_final_footer env fuel port logfile)
             C5Facts.Pre_init).
  - apply (hoare_run _ _ _ _ _
             (C5Facts.raspberrypi_final_footer env fuel port logfile)
             C5Facts.Start_init).
Qed.

(** A cancelled raspberrypi session: its log ends with the footer. *)
Lemma footer_after_clean_stop_witness :
  exists stop rest,
    log_events (history (snd C5.cancelled_run))
    = (rest ++ footer_events stop)%list.
Proof.
  unfold C5.cancelled_run.
  apply (proj1 (proj2 (footer_after_clean_stop Sample.cancelled 3)
                  "/dev/ttyUSB0" (LogName "serial.log"))).
  - exists "serial.log". vm_compute. repeat first [left; reflexivity | right].
  - match goal with
    | |- forall text, ~ In _ (history ?w) =>
        assert (Hnone : has is_report (trace w) = false)
          by (vm_compute; reflexivity)
    end.
    rewrite hasnt_history in Hnone. intros text Hin.
    specialize (Hnone _ Hin). discriminate Hnone.
  - vm_compute. reflexivity.
Defined.

(* ================================================================= *)
(** * Failure to open the serial device: proofs *)

Module C6Facts.
Import C6.

Ltac u6 := unfold X1, X2, NT, Cut, F, Z1, Z0 in *.
Ltac s6 :=
  intros; clear_stable; u6; wsimpl;
  repeat match goal with
         | H : _ /\ _ |- _ => destruct H
         | H : _ \/ _ |- _ => destruct H
         | H : exists _, _ |- _ => destruct H
         | a : abrupt |- _ => destruct a as [[?|] | [|] |]
         | H : true = false |- _ => discriminate H
         | H : false = true |- _ => discriminate H
         | H : False |- _ => destruct H
         end;
  cbn [forallb open_fail_is is_report_of snd fst andb orb] in *;
  rewrite ?String.eqb_refl in *;
  first [ solve [intuition (try congruence)]
        | left; solve [intuition (try congruence)]
        | right; solve [intuition (try congruence)]
        | right;
          match goal with
          | m : string |- _ => exists m; solve [intuition (try congruence)]
          end ].

Section Proofs.
Variable env : Env.

Lemma Z1_stable : sig_stable env Z1.
Proof. stab u6 ltac:(try s6). Qed.

Lemma NT_stable : sig_stable env NT.
Proof. stab u6 ltac:(try s6). Qed.

Lemma handler_block_open (msg : string) :
  hoare (X1 (ARaise (Exception msg)))
    (print env ErrorReport ("❌ エラー: " ++ msg) ;; traceback_print_exc env)
    (fun _ => NT) X2.
Proof.
  hnext (fun w => Z1 w \/ F true msg w) ltac:(intros; arrived; s6).
  hcall ltac:(intros; arrived; s6).
Qed.

Lemma Cut_stable : sig_stable env Cut.
Proof. stab u6 ltac:(try s6). Qed.

Lemma no_fail_all (msg : string) (tr : list (Q * event)) :
  has is_ser_open_fail tr = false ->
  forallb (fun x => open_fail_is msg (snd x)) tr = true.
Proof.
  unfold has. induction tr as [| [t e] tr IH]; simpl; [reflexivity |].
  intros H. apply orb_false_iff in H. destruct H as [He Htr].
  rewrite (IH Htr), andb_true_r.
  destruct e as [| port [m |] | | | | | | | | | | | | | |];
    simpl in *; congruence.
Qed.

Lemma open_serial (port : string) :
  hoare Z0 (serial_Serial env port) (fun _ => Z1) X1.
Proof.
  unfold_ops. apply hoare_unit_fallible.
  - intros; arrived; s6.
  - intros w r w1 msg (Hf & Hl & Hr & Hn) Ha Hfail. simpl. right.
    arrived; unfold F; wsimpl; cbn [forallb open_fail_is snd];
      rewrite String.eqb_refl, (no_fail_all msg _ Hf); simpl;
      intuition congruence.
  - intros; arrived; s6.
Qed.

Lemma close_serial_open :
  hoare NT
    (s <- get ser ;;
     match s with
     | Some true => ser_close env
     | _ => ret tt
     end)
    (fun _ => NT) (fun _ => Cut).
Proof.
  eapply hoare_bind with (R := fun _ => NT).
  - apply hoare_get. auto.
  - intros [[|] |]; [| apply hoare_ret; auto | apply hoare_ret; auto].
    hcall ltac:(intros; arrived; s6).
Qed.

Lemma close_log_then_serial_open :
  hoare NT
    (f <- get log_file ;;
     (if is_file f then log_close env else ret tt) ;;
     s <- get ser ;;
     match s with
     | Some true => ser_close env
     | _ => ret tt
     end)
    (fun _ => NT) (fun _ => Cut).
Proof.
  eapply hoare_bind with (R := fun f w => NT w /\ f = log_file w).
  { apply hoare_get. auto. }
  intros f. eapply hoare_bind with (R := fun _ => NT).
  - destruct f as [b |]; cbn [is_file]; [| apply hoare_ret; tauto].
    hcall ltac:(intros; arrived; s6).
  - intros _. apply close_serial_open.
Qed.

Lemma Cut_close_serial (e : exn) :
  hoare (X2 (ARaise e))
    (s <- get ser ;;
     match s with
     | Some true => ser_close env
     | _ => ret tt
     end)
    (fun _ => Cut) (fun _ => Cut).
Proof.
  pose proof Cut_stable.
  eapply hoare_of_preserves with (I := Cut);
    [unfold_ops; pres s6 | destruct e; simpl; tauto | auto | auto].
Qed.

Lemma Cut_close_log_then_serial (e : exn) :
  hoare (X2 (ARaise e))
    (f <- get log_file ;;
     (if is_file f then log_close env else ret tt) ;;
     s <- get ser ;;
     match s with
     | Some true => ser_close env
     | _ => ret tt
     end)
    (fun _ => Cut) (fun _ => Cut).
Proof.
  eapply hoare_bind with (R := fun f w => Cut w /\ f = log_file w).
  { apply hoare_get. destruct e; simpl; tauto. }
  intros f. eapply hoare_bind with (R := fun _ => Cut).
  - destruct f as [b |]; cbn [is_file]; [| apply hoare_ret; tauto].
    hcall ltac:(intros; arrived; s6).
  - intros _. pose proof Cut_stable.
    eapply hoare_of_preserves with (I := Cut);
      [unfold_ops; pres s6 | auto | auto | auto].
Qed.

Lemma backend_final_open (fuel : nat) (port logfile : option string) :
  hoare Z0 (Backend.monitor_serial env fuel port logfile)
    (fun _ => NT) (fun _ => Cut).
Proof.
  pose proof Z1_stable. unfold Backend.monitor_serial.
  eapply hoare_bind with (R := fun _ => Z0).
  { destruct logfile; [apply hoare_ret; auto |].
    hstep s6. apply hoare_ret. auto. }
  intros name.
  eapply hoare_try_finally with (N1 := fun _ => NT) (X1 := X2).
  - eapply hoare_try_except with (X1 := X1); try solve [s6].
    + eapply hoare_bind with (R := fun _ => Z1); [apply open_serial |].
      intros _. eapply hoare_of_preserves with (I := Z1);
        [unfold Backend.loop_body; unfold_ops; pres s6 | s6 | s6 | s6].
    + intros msg. apply handler_block_open.
  - intros _. apply close_serial_open.
  - intros e. apply Cut_close_serial.
  - s6.
  - s6.
Qed.

Lemma raspberrypi_final_open (fuel : nat) (port : string) (logfile : logarg) :
  hoare Z0 (RaspberryPi.monitor_serial env fuel port logfile)
    (fun _ => NT) (fun _ => Cut).
Proof.
  pose proof Z1_stable. unfold RaspberryPi.monitor_serial.
  eapply hoare_bind with (R := fun _ => Z0).
  { apply hoare_modify. s6. }
  intros _. eapply hoare_bind with (R := fun _ => Z0).
  { destruct (truthy logfile); [| apply hoare_ret; auto].
    destruct logfile; try (apply hoare_ret; auto).
    hstep s6. apply hoare_ret. auto. }
  intros name.
  eapply hoare_try_finally with (N1 := fun _ => NT) (X1 := X2).
  - eapply hoare_try_except with (X1 := X1); try solve [s6].
    + eapply hoare_bind with (R := fun _ => Z1); [apply open_serial |].
      intros _. eapply hoare_of_preserves with (I := Z1);
        [unfold RaspberryPi.loop_body; unfold_ops; pres s6 | s6 | s6 | s6].
    + intros msg. apply handler_block_open.
  - intros _. apply close_log_then_serial_open.
  - intros e. apply Cut_close_log_then_serial.
  - s6.
  - s6.
Qed.

End Proofs.
Lemma Z0_init : Z0 init_world.
Proof. u6. simpl. intuition. Qed.

Lemma backend_main_monitors (env : Env) (fuel : nat) (script port : string)
  (rest : list string) :
  monitoring port ->
  Backend.main env fuel (script :: port :: rest) =
  Backend.monitor_serial env fuel (Some port)
    match rest with
    | name :: _ => Some name
    | [] => None
    end.
Proof.
  intros (H1 & H2 & H3). unfold Backend.main. now rewrite H1, H2, H3.
Qed.

Lemma raspberrypi_main_monitors (env : Env) (fuel : nat)
  (script port : string) (rest : list string) :
  monitoring port ->
  exists logfile,
    RaspberryPi.main env fuel (script :: port :: rest) =
    RaspberryPi.monitor_serial env fuel port logfile.
Proof.
  intros (H1 & H2 & H3). unfold RaspberryPi.main. rewrite H1, H2, H3.
  simpl. eexists. reflexivity.
Qed.

Lemma reported_of_final (o : outcome unit) (w : World) :
  post (fun _ => NT) (fun _ => Cut) o w -> open_failure_is_reported o w.
Proof.
  intros H port msg Hin.
  assert (Hfail : has is_ser_open_fail (trace w) = true)
    by (eapply has_event; [exact Hin | reflexivity]).
  assert (Hall : forall m,
    forallb (fun x => open_fail_is m (snd x)) (trace w) = true -> m = msg).
  { intros m Hm. apply In_history in Hin. destruct Hin as (t & Hin).
    rewrite forallb_forall in Hm. specialize (Hm _ Hin). simpl in Hm.
    apply String.eqb_eq in Hm. now subst. }
  assert (Hfacts : exists rep m, F rep m w /\
            (rep = false -> o <> Ok tt /\ has is_signal (trace w) = true) /\
            (rep = true -> o = Ok tt)).
  { destruct o as [[] | ex | s |]; simpl in H.
    - destruct H as [Hz | (m & Hf)]; [unfold Z1 in Hz; congruence |].
      exists true, m. intuition congruence.
    - destruct H as [Hz | (m & Hf & Hs)]; [unfold Z1 in Hz; congruence |].
      exists false, m. intuition congruence.
    - destruct H as [Hz | (m & Hf & Hs)]; [unfold Z1 in Hz; congruence |].
      exists false, m. intuition congruence.
    - destruct H as [Hz | (m & Hf & Hs)]; [unfold Z1 in Hz; congruence |].
      exists false, m. intuition congruence. }
  destruct Hfacts as (rep & m & (Hm & Hlog & Hread & _ & Hrep) & Hcut & Hok).
  apply Hall in Hm. subst m.
  split; [| split].
  - intros path err Hl. rewrite hasnt_history in Hlog.
    specialize (Hlog _ Hl). discriminate.
  - intros size res Hr. rewrite hasnt_history in Hread.
    specialize (Hread _ Hr). discriminate.
  - intros Hnone.
    assert (Hsig : has is_signal (trace w) = false).
    { apply hasnt_history. intros e He.
      destruct e as [s b | | | | | | | | | | | | | | |]; try reflexivity.
      destruct (Hnone s b He). }
    destruct rep; [| destruct (Hcut eq_refl); congruence].
    rewrite (Hok eq_refl). split; [| split; reflexivity].
    specialize (Hrep eq_refl Hsig). apply has_history in Hrep.
    destruct Hrep as (e & He & Hr).
    destruct e as [| | | | | | [] text | | | | | | | | |];
      try discriminate.
    simpl in Hr. apply String.eqb_eq in Hr. now subst text.
Qed.

End C6Facts.

(** C6, as stated, fails: the backend script started on a missing device
    reports the error and then ends with status 0. *)
Lemma open_failure_exit_status_zero :
  In (EvSerialOpen "/dev/ttyUSB9" (Some "could not open port /dev/ttyUSB9"))
     (history (snd C6.failed_start)) /\
  exit_status (fst C6.failed_start) = Some (Exit 0) /\
  ~ open_failure_exits_nonzero (fst C6.failed_start) (snd C6.failed_start).
Proof.
  assert (Hin : In (EvSerialOpen "/dev/ttyUSB9"
                      (Some "could not open port /dev/ttyUSB9"))
                   (history (snd C6.failed_start))).
  { vm_compute. repeat first [left; reflexivity | right]. }
  assert (Hexit : exit_status (fst C6.failed_start) = Some (Exit 0)).
  { vm_compute. reflexivity. }
  split; [exact Hin | split; [exact Hexit |]].
  intros H. destruct (H _ _ Hin) as (_ & _ & _ & t & Ht & Hne).
  rewrite Hexit in Ht. apply Hne. congruence.
Qed.

(** C6, amended.  When either script is started to monitor a port and the
    opening of the port fails, no log is opened and no read is made; if
    no signal cuts the run short, the error is printed with its message,
    the monitor returns, and the process ends with status 0. *)
Theorem open_failure_reported (env : Env) (fuel : nat)
  (script port : string) (rest : list string) :
  monitoring port ->
  open_failure_is_reported
    (fst (Backend.main env fuel (script :: port :: rest) init_world))
    (snd (Backend.main env fuel (script :: port :: rest) init_world)) /\
  open_failure_is_reported
    (fst (RaspberryPi.main env fuel (script :: port :: rest) init_world))
    (snd (RaspberryPi.main env fuel (script :: port :: rest) init_world)).
Proof.
  intros Hport. split.
  - rewrite (C6Facts.backend_main_monitors env fuel script port rest Hport).
    apply C6Facts.reported_of_final.
    apply (hoare_run _ _ _ _ _ (C6Facts.backend_final_open env fuel _ _)
             C6Facts.Z0_init).
  - destruct (C6Facts.raspberrypi_main_monitors env fuel script port rest
                Hport) as (logfile & ->).
    apply C6Facts.reported_of_final.
    apply (hoare_run _ _ _ _ _ (C6Facts.raspberrypi_final_open env fuel _ _)
             C6Facts.Z0_init).
Qed.

(** The backend script on the missing device. *)
Lemma open_failure_reported_witness :
  monitoring "/dev/ttyUSB9" /\
  open_failure_is_reported (fst C6.failed_start) (snd C6.failed_start).
Proof.
  assert (Hport : monitoring "/dev/ttyUSB9").
  { repeat split; reflexivity. }
  split; [exact Hport |]. unfold C6.failed_start.
  exact (proj1 (open_failure_reported Sample.no_device 3
                  "serial_debug_test.py" "/dev/ttyUSB9" [] Hport)).
Defined.

(* ================================================================= *)
(** * A failed log write ends the session: proofs *)

Module C7Facts.
Import C7.

Ltac u7 :=
  unfold XF, Left, XW, X1, X2, NT, EX, PH, I1, I0b, I0, E, PA, NC, Phi,
    hooked in *.
Ltac case_fail :=
  repeat match goal with
         | H : first_fail (trace ?w) = _ |- _ => rewrite H in *
         | H : context [first_fail (trace ?w)] |- _ =>
             destruct (first_fail (trace w)) as [[? ?] |] in *
         | |- context [first_fail (trace ?w)] =>
             destruct (first_fail (trace w)) as [[? ?] |] in *
         end.
Ltac s7 :=
  intros; clear_stable; u7; wsimpl;
  repeat match goal with
         | H : _ /\ _ |- _ => destruct H
         | H : _ \/ _ |- _ => destruct H
         | H : exists _, _ |- _ => destruct H
         | a : abrupt |- _ => destruct a as [[?|] | [|] |]
         | H : true = false |- _ => discriminate H
         | H : false = true |- _ => discriminate H
         | H : False |- _ => destruct H
         end;
  cbn [first_fail forallb quiet log_fail_msg newest_is snd fst] in *;
  case_fail;
  wsimpl;
  cbn [first_fail forallb quiet is_report_of newest_is negb orb andb] in *;
  rewrite ?String.eqb_refl in *;
  repeat match goal with
         | H : _ /\ _ |- _ => destruct H
         | H : False |- _ => destruct H
         | H : Some _ = None |- _ => discriminate H
         | H : None = Some _ |- _ => discriminate H
         end;
  first [ solve [intuition (try congruence)]
        | left; solve [intuition (try congruence)]
        | right; solve [intuition (try congruence)]
        | right;
          match goal with
          | m : string |- _ => exists m; solve [intuition (try congruence)]
          end
        | right; split; [reflexivity |];
          match goal with
          | m : string |- _ => exists m; solve [intuition (try congruence)]
          end ].
Ltac hk7 := intros ? ?; u7; tauto.

Section Proofs.
Variable env : Env.

Lemma PH_stable_fatal : sig_stable env PH.
Proof. stab u7 ltac:(try s7). Qed.
Lemma PA_stable : sig_stable env PA.
Proof. stab u7 ltac:(try s7). Qed.

Lemma PA_cleanup (strict : bool) (e : exn) :
  hoare (X2 (ARaise e))
    (f <- get log_file ;;
     (if is_file f then log_close env else ret tt) ;;
     s <- get ser ;;
     match s with
     | Some true => ser_close env
     | _ => ret tt
     end)
    (fun _ => XF strict (ARaise e)) (XF strict).
Proof.
  pose proof PA_stable.
  eapply hoare_of_preserves with (I := PA);
    [unfold_ops; pres s7 | destruct e; s7 | destruct e; s7 | s7].
Qed.

Lemma PA_close_serial (strict : bool) (e : exn) :
  hoare (X2 (ARaise e))
    (s <- get ser ;;
     match s with
     | Some true => ser_close env
     | _ => ret tt
     end)
    (fun _ => XF strict (ARaise e)) (XF strict).
Proof.
  pose proof PA_stable.
  eapply hoare_of_preserves with (I := PA);
    [unfold_ops; pres s7 | destruct e; s7 | destruct e; s7 | s7].
Qed.

Lemma handler_block_fatal (strict : bool) (msg : string) :
  hoare (X1 strict (ARaise (Exception msg)))
    (print env ErrorReport ("❌ エラー: " ++ msg) ;; traceback_print_exc env)
    (fun _ => NT strict true false) X2.
Proof.
  hnext (fun w => PA w \/ E strict true false msg w)
    ltac:(intros; arrived; s7).
  hcall ltac:(intros; arrived; s7).
Qed.

Lemma close_serial_fatal (strict : bool) :
  hoare (NT strict true false)
    (s <- get ser ;;
     match s with
     | Some true => ser_close env
     | _ => ret tt
     end)
    (fun _ => NT strict true true) (XF strict).
Proof.
  eapply hoare_bind with
    (R := fun s w => NT strict true false w /\ s = ser w).
  - apply hoare_get. auto.
  - intros [[|] |]; [| apply hoare_ret; s7 | apply hoare_ret; s7].
    hcall ltac:(intros; arrived; s7).
Qed.

(** The [finally] block of the raspberrypi monitor: when closing the log
    raises, the port is left open. *)
Lemma close_log_then_serial_fatal :
  hoare (NT false true false)
    (f <- get log_file ;;
     (if is_file f then log_close env else ret tt) ;;
     s <- get ser ;;
     match s with
     | Some true => ser_close env
     | _ => ret tt
     end)
    (fun _ => NT false true true) (XF false).
Proof.
  eapply hoare_bind with (R := fun _ => NT false true false).
  { apply hoare_get. auto. }
  intros f. eapply hoare_bind with (R := fun _ => NT false true false).
  - destruct (is_file f); [| apply hoare_ret; auto].
    hcall ltac:(intros; arrived; s7).
  - intros _. apply close_serial_fatal.
Qed.

Lemma backend_final_fatal (fuel : nat) (port logfile : option string) :
  hoare I0 (Backend.monitor_serial env fuel port logfile)
    (fun _ => NT true true true) (XF true).
Proof.
  pose proof PH_stable_fatal. unfold Backend.monitor_serial.
  eapply hoare_bind with (R := fun _ => I0).
  { destruct logfile; [apply hoare_ret; auto |].
    hstep s7. apply hoare_ret. auto. }
  intros name.
  eapply hoare_try_finally with
    (N1 := fun _ => NT true true false) (X1 := X2).
  - eapply hoare_try_except with (X1 := X1 true); try solve [s7].
    + eapply hoare_conseq with
        (P' := I0) (N' := fun _ => PH) (X' := X1 true);
        [| auto | s7 | auto].
      hnext I0b ltac:(intros; arrived; s7).
      eapply hoare_bind with (R := fun _ => I0b).
      { destruct (HAS_TERMIOS env && negb (win env)).
        - hwalk s7. apply hoare_ret. auto.
        - apply hoare_ret. auto. }
      intros info. hwalk s7.
      hnext I1 ltac:(intros; arrived; s7).
      hnext PH ltac:(intros; arrived; s7).
      hwalk s7.
      eapply hoare_bind with (R := fun _ => PH).
      * unfold with_open.
        hnext PH ltac:(intros; arrived; s7).
        eapply hoare_try_finally with
          (N1 := fun _ => PH) (X1 := XW true).
        -- match goal with
           | |- hoare ?I ?m _ _ => change (guarded I (EX true) m)
           end.
           unfold Backend.loop_body; unfold_ops. guards hk7 s7.
        -- intros _. hcall ltac:(intros; arrived; s7).
        -- intros [msg |]; hcall ltac:(intros; arrived; s7).
        -- s7.
        -- s7.
      * intros _. hcall ltac:(intros; arrived; s7).
    + intros msg. apply handler_block_fatal.
  - intros _. apply close_serial_fatal.
  - intros e. apply PA_close_serial.
  - s7.
  - s7.
Qed.

Lemma raspberrypi_final_fatal (fuel : nat) (port : string) (logfile : logarg) :
  hoare I0 (RaspberryPi.monitor_serial env fuel port logfile)
    (fun _ => NT false true true) (XF false).
Proof.
  pose proof PH_stable_fatal. unfold RaspberryPi.monitor_serial.
  eapply hoare_bind with (R := fun _ => I0).
  { apply hoare_modify. s7. }
  intros _. eapply hoare_bind with (R := fun _ => I0).
  { destruct (truthy logfile); [| apply hoare_ret; auto].
    destruct logfile; try (apply hoare_ret; auto).
    hstep s7. apply hoare_ret. auto. }
  intros name.
  eapply hoare_try_finally with
    (N1 := fun _ => NT false true false) (X1 := X2).
  - eapply hoare_try_except with (X1 := X1 false); try solve [s7].
    + eapply hoare_conseq with
        (P' := I0) (N' := fun _ => PH) (X' := X1 false);
        [| auto | s7 | auto].
      hnext I0b ltac:(intros; arrived; s7).
      hwalk s7.
      hnext I1 ltac:(intros; arrived; s7).
      hnext PH ltac:(intros; arrived; s7).
      eapply hoare_of_guarded with (I := PH) (E := EX false);
        [unfold RaspberryPi.loop_body; unfold_ops; guards hk7 s7
        | s7 | s7 | s7 | s7].
    + intros msg. apply handler_block_fatal.
  - intros _. apply close_log_then_serial_fatal.
  - intros e. apply PA_cleanup.
  - s7.
  - s7.
Qed.

End Proofs.

Lemma I0_init_fatal : I0 init_world.
Proof. u7. simpl. intuition. Qed.

Lemma first_fail_none (tr : list (Q * event)) :
  first_fail tr = None -> has is_log_fail tr = false.
Proof.
  induction tr as [| x older IH]; [reflexivity |]. simpl.
  destruct (first_fail older) as [[m newer] |]; [discriminate |].
  unfold is_log_fail at 1.
  destruct (log_fail_msg (snd x)); [discriminate |]. intros _. now apply IH.
Qed.

Lemma first_fail_split (tr : list (Q * event)) (m : string)
  (newer : list (Q * event)) :
  first_fail tr = Some (m, newer) ->
  exists x older, tr = newer ++ x :: older /\
                  log_fail_msg (snd x) = Some m /\
                  has is_log_fail older = false.
Proof.
  revert newer. induction tr as [| y older IH]; intros newer H;
    [discriminate |]. simpl in H.
  destruct (first_fail older) as [[m' newer'] |] eqn:Hf.
  - inversion H; subst m' newer. clear H.
    destruct (IH _ eq_refl) as (x & older' & -> & Hm & Hn).
    exists x, older'. auto.
  - destruct (log_fail_msg (snd y)) eqn:Hy; [| discriminate].
    inversion H; subst. exists y, older.
    split; [reflexivity | split; [exact Hy | now apply first_fail_none]].
Qed.

Lemma quiet_not_fail (newer : list (Q * event)) :
  forallb (fun x => quiet (snd x)) newer = true ->
  has is_log_fail newer = false.
Proof.
  intros H. apply has_false_iff. intros x Hx.
  rewrite forallb_forall in H. specialize (H x Hx). unfold quiet in H.
  apply negb_true_iff in H. rewrite !orb_false_iff in H. tauto.
Qed.

(** The oldest event satisfying [p] splits a trace in one way only. *)
Lemma split_unique (p : event -> bool)
  (n1 n2 o1 o2 : list (Q * event)) (x1 x2 : Q * event) :
  n1 ++ x1 :: o1 = n2 ++ x2 :: o2 ->
  has p n1 = false -> has p o1 = false -> p (snd x1) = true ->
  p (snd x2) = true ->
  n1 = n2 /\ x1 = x2 /\ o1 = o2.
Proof.
  revert n2. induction n1 as [| a n1 IH]; intros [| b n2] H Hn Ho Hp1 Hp2;
    simpl in *.
  - inversion H. auto.
  - inversion H; subst. rewrite has_app in Ho. simpl in Ho.
    rewrite Hp2 in Ho. rewrite orb_true_r in Ho. discriminate.
  - inversion H; subst. rewrite Hp2 in Hn. discriminate.
  - inversion H; subst. apply orb_false_iff in Hn. destruct Hn as [_ Hn].
    destruct (IH n2 H2 Hn Ho Hp1 Hp2) as (-> & -> & ->). auto.
Qed.

(** A trace whose newest event is the closing of the log. *)
Lemma closed_last (w : World) :
  newest_is is_log_close (trace w) = true ->
  exists pre, history w = (pre ++ [EvLogClose])%list.
Proof.
  unfold history. destruct (trace w) as [| [t e] tr]; simpl; [discriminate |].
  intros He. apply is_log_close_inv in He. subst e.
  exists (map snd (rev tr)). now rewrite map_app.
Qed.

(** What the events after the oldest failure are, from what is known of
    them newest first. *)
Lemma after_failure (w : World) (m : string) (newer : list (Q * event))
  (pre post0 : list event) (e : event) (msg : string) :
  first_fail (trace w) = Some (m, newer) ->
  forallb (fun x => quiet (snd x)) newer = true ->
  history w = (pre ++ e :: post0)%list -> log_fail_msg e = Some msg ->
  m = msg /\ post0 = map snd (rev newer).
Proof.
  intros Hff Hq Hh He.
  apply first_fail_split in Hff.
  destruct Hff as (x & older & Htr & Hm & Hold).
  apply history_split in Hh.
  destruct Hh as (newer' & t & older' & Htr' & -> & ->).
  rewrite Htr in Htr'.
  destruct (split_unique is_log_fail _ _ _ _ _ _ Htr'
              (quiet_not_fail _ Hq) Hold) as (<- & -> & <-).
  { unfold is_log_fail. now rewrite Hm. }
  { unfold is_log_fail. simpl. now rewrite He. }
  simpl in Hm. split; [congruence | reflexivity].
Qed.

Lemma quiet_after (newer : list (Q * event)) (e' : event) :
  forallb (fun x => quiet (snd x)) newer = true ->
  In e' (map snd (rev newer)) ->
  is_read e' = false /\ is_frame_record e' = false /\ is_idle e' = false.
Proof.
  intros Hq Hin. apply in_map_snd_rev in Hin. destruct Hin as (t' & Hin).
  rewrite forallb_forall in Hq. specialize (Hq _ Hin). unfold quiet in Hq.
  apply negb_true_iff in Hq. rewrite !orb_false_iff in Hq. simpl in Hq.
  tauto.
Qed.

Lemma reported_after (newer : list (Q * event)) (m : string) :
  has (is_report_of m) newer = true ->
  In (EvPrint ErrorReport ("❌ エラー: " ++ m)) (map snd (rev newer)).
Proof.
  intros Hrep. apply has_map_snd_rev in Hrep.
  destruct Hrep as (e' & Hin & Hr).
  destruct e' as [| | | | | | [] text | | | | | | | | |];
    try discriminate.
  simpl in Hr. apply String.eqb_eq in Hr. now subst text.
Qed.

Lemma fatal_of_final (strict : bool) (o : outcome unit) (w : World) :
  post (fun _ => NT strict true true) (XF strict) o w ->
  write_failure_is_fatal strict o w.
Proof.
  intros H pre e msg post0 Hh He.
  assert (Hfail : has is_log_fail (trace w) = true).
  { eapply has_event; [rewrite Hh; apply in_elt |].
    unfold is_log_fail. now rewrite He. }
  assert (Hnot : ~ PA w).
  { intros Hpa. apply first_fail_none in Hpa. congruence. }
  destruct o as [[] | [m0 |] | s |]; simpl in H; try contradiction.
  - destruct H as [Hpa | (m & _ & _ & Hf)]; [contradiction |].
    destruct (first_fail (trace w)) as [[m' newer] |] eqn:Hff;
      [| contradiction].
    destruct Hf as (Hm & Hq & Hrep & Hclo).
    destruct (after_failure w m' newer pre post0 e msg Hff Hq Hh He)
      as (-> & ->).
    split; [intros e'; apply quiet_after; exact Hq |].
    split.
    + exists m. split; [apply reported_after; auto |].
      intros Hs. symmetry. auto.
    + left. split; [reflexivity |].
      specialize (Hclo eq_refl). apply has_map_snd_rev in Hclo.
      destruct Hclo as (e' & Hin & Hc). apply is_ser_close_inv in Hc.
      now subst e'.
  - destruct H as [Hpa | (Hs & m & Hnc & Hnew & Hf)]; [contradiction |].
    destruct (first_fail (trace w)) as [[m' newer] |] eqn:Hff;
      [| contradiction].
    destruct Hf as (-> & Hq & Hrep & _).
    destruct (after_failure w m newer pre post0 e msg Hff Hq Hh He)
      as (-> & ->).
    split; [intros e'; apply quiet_after; exact Hq |].
    split.
    + exists msg. split; [apply reported_after; auto | reflexivity].
    + right. split; [exact Hs |].
      destruct (closed_last w Hnew) as (pre' & Hpre).
      exists m0, pre'. split; [reflexivity |]. split; [exact Hpre |].
      intros Hin. unfold NC in Hnc. rewrite hasnt_history in Hnc.
      specialize (Hnc _ Hin). discriminate.
Qed.

End C7Facts.

(** In both scripts, once a write or a flush on the log has raised, no
    further read is made and no frame record or idle notice is produced,
    and an error report is printed.  The backend monitor then closes the
    serial port and returns.  So does the raspberrypi monitor, whose
    report carries the message of the failed write, except when closing
    the log raises too: it is then left by that exception and its port is
    never closed. *)
Theorem log_write_failure_is_fatal (env : Env) (fuel : nat) :
  (forall port logfile,
     write_failure_is_fatal true
       (fst (Backend.monitor_serial env fuel port logfile init_world))
       (snd (Backend.monitor_serial env fuel port logfile init_world))) /\
  (forall port logfile,
     write_failure_is_fatal false
       (fst (RaspberryPi.monitor_serial env fuel port logfile init_world))
       (snd (RaspberryPi.monitor_serial env fuel port logfile init_world))).
Proof.
  split; intros port logfile; apply C7Facts.fatal_of_final.
  - apply (hoare_run _ _ _ _ _ (C7Facts.backend_final_fatal env fuel port logfile)
             C7Facts.I0_init_fatal).
  - apply (hoare_run _ _ _ _ _
             (C7Facts.raspberrypi_final_fatal env fuel port logfile)
             C7Facts.I0_init_fatal).
Qed.

(** A full disk on the first frame record of the backend monitor:
    reported, port closed. *)
Lemma log_write_failure_is_fatal_witness :
  exists pre text post,
    history (snd C7.failed_write)
    = (pre ++ EvLogWrite FrameRecord text (Some "No space left on device")
           :: post)%list /\
    (exists m, In (EvPrint ErrorReport ("❌ エラー: " ++ m)) post) /\
    In EvSerialClose post /\
    fst C7.failed_write = Ok tt.
Proof.
  unfold C7.failed_write.
  match goal with
  | |- exists pre text post, history ?w = _ /\ _ =>
      assert (Hin : In (EvLogWrite FrameRecord
                          ("[" ++ drop_last3 Sample.stamp ++ "] 受信 ("
                               ++ str_of_nat 1 ++ " バイト)" ++ nl)
                          (Some "No space left on device")) (history w))
        by (vm_compute; repeat first [left; reflexivity | right])
  end.
  destruct (in_split _ _ Hin) as (pre & post & Heq).
  destruct (proj1 (log_write_failure_is_fatal Sample.disk_full 3)
              (Some "/dev/ttyUSB0") (Some "serial.log")
              pre _ _ post Heq eq_refl)
    as (_ & (m & Hrep & _) & [[Hok Hclose] | [Hs _]]);
    [| discriminate Hs].
  exists pre. eexists. exists post.
  split; [exact Heq |].
  split; [exists m; exact Hrep | split; [exact Hclose | exact Hok]].
Defined.

(** C7, at the failing input.  The raspberrypi monitor logs to a disk
    that fills up and stays full.  The flush of the first frame record
    raises and is reported; in the [finally] block [log_file.close()]
    raises again and [ser.close()] is skipped: the port is never closed
    and the monitor is left by the exception, against the claim.  The
    backend monitor, in the same situation, closes its port and
    returns. *)
Lemma failed_write_leaves_port_open :
  In (EvLogFlush (Some "No space left on device"))
     (history (snd C7.unclosed_run)) /\
  In (EvPrint ErrorReport "❌ エラー: No space left on device")
     (history (snd C7.unclosed_run)) /\
  fst C7.unclosed_run = Raise (Exception "No space left on device") /\
  ~ In EvSerialClose (history (snd C7.unclosed_run)) /\
  ser (snd C7.unclosed_run) = Some true /\
  ~ write_failure_is_fatal true (fst C7.unclosed_run) (snd C7.unclosed_run) /\
  fst C7.sibling_run = Ok tt /\
  In EvSerialClose (history (snd C7.sibling_run)).
Proof.
  assert (Hin : In (EvLogFlush (Some "No space left on device"))
                   (history (snd C7.unclosed_run)))
    by (vm_compute; repeat first [left; reflexivity | right]).
  assert (Hexn : fst C7.unclosed_run
                 = Raise (Exception "No space left on device"))
    by (vm_compute; reflexivity).
  assert (Hnone : has is_ser_close (trace (snd C7.unclosed_run)) = false)
    by (vm_compute; reflexivity).
  split; [exact Hin |].
  split; [vm_compute; repeat first [left; reflexivity | right] |].
  split; [exact Hexn |].
  assert (Hno : ~ In EvSerialClose (history (snd C7.unclosed_run))).
  { intros Hc. rewrite hasnt_history in Hnone.
    specialize (Hnone _ Hc). discriminate Hnone. }
  split; [exact Hno |].
  split; [vm_compute; reflexivity |].
  split; [| split; [vm_compute; reflexivity
                   | vm_compute; repeat first [left; reflexivity | right]]].
  intros H. destruct (in_split _ _ Hin) as (pre & post & Heq).
  destruct (H pre _ _ post Heq eq_refl) as (_ & _ & [[Hok _] | [Hs _]]).
  - rewrite Hexn in Hok. discriminate Hok.
  - discriminate Hs.
Qed.

(* ================================================================= *)
(** * Release order: proofs *)

Module C8Facts.
Import C8.

Ltac u8 := unfold I0, I1, I2, D, hooked, J, XJ, Iin, G, LF, shape, complete in *.
Ltac s8 :=
  intros; clear_stable; u8; wsimpl;
  repeat match goal with
         | H : _ /\ _ |- _ => destruct H
         | H : log_file ?w = _ |- _ => progress (rewrite H in * )
         end;
  intuition (try congruence).

Section Proofs.
Variable env : Env.









End Proofs.



End C8Facts.



(* ================================================================= *)
(** * The log header: proofs *)

Module C9Facts.
Import C9.

Ltac u9 := unfold After, Bg, Began, Hx, H0, Hd, NR, rlogs in *.

Lemma Began_push (path : string) (lines : list string) (t : Q) (e : event)
  (tr : list (Q * event)) :
  (exists rest, rlogs tr = rest ++ rev (header_events path lines)) ->
  exists rest, rlogs ((t, e) :: tr) = rest ++ rev (header_events path lines).
Proof.
  intros (rest & H). destruct (is_log_event e) eqn:He.
  - rewrite (rlogs_push_log _ _ _ He), H. exists (e :: rest). reflexivity.
  - rewrite (rlogs_push_other _ _ _ He), H. exists rest. reflexivity.
Qed.

Ltac push_logs :=
  repeat first
    [ rewrite rlogs_push_log by reflexivity
    | rewrite rlogs_push_other by reflexivity ].
Ltac s9 :=
  intros; clear_stable; unfold After, Bg, Began, Hx, H0, Hd, NR in *; wsimpl;
  repeat match goal with
         | H : _ /\ _ |- _ => destruct H
         | H : _ \/ _ |- _ => destruct H
         | H : exists _, _ |- _ => destruct H
         | H : true = false |- _ => discriminate H
         | H : false = true |- _ => discriminate H
         end;
  first
    [ solve [intuition (try congruence)]
    | left; solve [intuition (try congruence)]
    | right; do 2 eexists; repeat apply Began_push; solve [eauto]
    | do 2 eexists; repeat apply Began_push; solve [eauto]
    | push_logs; solve [intuition (try congruence)]
    | left; push_logs; solve [intuition (try congruence)]
    | push_logs; split; [solve [intuition congruence] |];
      match goal with
      | H : rlogs _ = _ |- _ => rewrite H; reflexivity
      end
    | push_logs; do 2 eexists;
      match goal with
      | H : rlogs _ = _ |- _ => rewrite H
      end;
      match goal with
      | |- exists rest, ?l = _ => exists []; reflexivity
      end ].

Section Proofs.
Variable env : Env.
Variable lines : string -> list string.

Lemma NR_stable : sig_stable env NR.
Proof. stab u9 ltac:(try s9). Qed.

Lemma After_stable : sig_stable env (After lines).
Proof. stab ltac:(idtac) ltac:(try s9). Qed.

Lemma Bg_stable : sig_stable env (Bg lines).
Proof. stab ltac:(idtac) ltac:(try s9). Qed.

Lemma H0_stable : sig_stable env H0.
Proof. stab ltac:(idtac) ltac:(try s9). Qed.

Lemma handler_block_header (msg : string) :
  hoare (After lines)
    (print env ErrorReport ("❌ エラー: " ++ msg) ;; traceback_print_exc env)
    (fun _ => After lines) (fun _ => After lines).
Proof.
  pose proof After_stable.
  eapply hoare_of_preserves with (I := After lines);
    [unfold_ops; pres s9 | auto | auto | auto].
Qed.

Lemma close_serial_header :
  hoare (After lines)
    (s <- get ser ;;
     match s with
     | Some true => ser_close env
     | _ => ret tt
     end)
    (fun _ => After lines) (fun _ => After lines).
Proof.
  pose proof After_stable.
  eapply hoare_of_preserves with (I := After lines);
    [unfold_ops; pres s9 | auto | auto | auto].
Qed.

Lemma close_log_then_serial_header :
  hoare (After lines)
    (f <- get log_file ;;
     (if is_file f then log_close env else ret tt) ;;
     s <- get ser ;;
     match s with
     | Some true => ser_close env
     | _ => ret tt
     end)
    (fun _ => After lines) (fun _ => After lines).
Proof.
  pose proof After_stable.
  eapply hoare_of_preserves with (I := After lines);
    [unfold_ops; pres s9 | auto | auto | auto].
Qed.

End Proofs.

Section Backend.
Variable env : Env.

Lemma backend_final_header (fuel : nat) (port logfile : option string) :
  hoare H0 (Backend.monitor_serial env fuel port logfile)
    (fun _ => After
       (fun ts => spec_header "シリアル通信ログ" ts
          match port with
          | Some p => p
          | None => if win env then "COM3" else "/dev/ttyUSB0"
          end))
    (fun _ => After
       (fun ts => spec_header "シリアル通信ログ" ts
          match port with
          | Some p => p
          | None => if win env then "COM3" else "/dev/ttyUSB0"
          end)).
Proof.
  set (lines := fun ts => spec_header "シリアル通信ログ" ts _).
  pose proof (H0_stable env). pose proof (Bg_stable env lines).
  unfold Backend.monitor_serial.
  eapply hoare_bind with (R := fun _ => H0).
  { destruct logfile; [apply hoare_ret; auto |].
    hstep s9. apply hoare_ret. auto. }
  intros name.
  eapply hoare_try_finally with
    (N1 := fun _ => After lines) (X1 := fun _ => After lines);
    [| intros; apply close_serial_header | intros; apply close_serial_header | auto | auto].
  eapply hoare_try_except with (X1 := fun _ => After lines);
    [| intros; apply handler_block_header | auto | auto | auto].
  hnext H0 ltac:(intros; arrived; s9).
  eapply hoare_bind with (R := fun _ => H0).
  { destruct (HAS_TERMIOS env && negb (win env)).
    - hwalk s9. apply hoare_ret. auto.
    - apply hoare_ret. auto. }
  intros info. hwalk s9.
  eapply hoare_bind with (R := fun _ => After lines).
  - unfold with_open.
    hnext (Hx [EvLogOpen (log_path_of env name) None])
      ltac:(intros; arrived; s9).
    eapply hoare_try_finally with
      (N1 := fun _ => After lines) (X1 := fun _ => After lines).
    + hnext (Hx [EvLogWrite Header ("=== シリアル通信ログ ===" ++ nl) None;
                 EvLogOpen (log_path_of env name) None])
        ltac:(intros; arrived; s9).
      eapply hoare_bind with
        (R := fun start => Hd (log_path_of env name) (lines start) 2).
      { hcall ltac:(intros; arrived; s9). }
      intros start.
      hnext (Hd (log_path_of env name) (lines start) 3)
        ltac:(intros; arrived; s9).
      hnext (Hd (log_path_of env name) (lines start) 4)
        ltac:(intros; arrived; s9).
      hnext (Hd (log_path_of env name) (lines start) 5)
        ltac:(intros; arrived; s9).
      hnext (Hd (log_path_of env name) (lines start) 6)
        ltac:(intros; arrived; s9).
      hnext (Bg lines) ltac:(intros; arrived; s9).
      eapply hoare_of_preserves with (I := Bg lines);
        [unfold Backend.loop_body; unfold_ops; pres s9 | auto | s9 | s9].
    + intros _. hcall ltac:(intros; arrived; s9).
    + intros e. hcall ltac:(intros; arrived; s9).
    + auto.
    + auto.
  - intros _. hcall ltac:(intros; arrived; s9).
Qed.

End Backend.
Section RaspberryPi.
Variable env : Env.

Lemma raspberrypi_final_header (fuel : nat) (port : string) (logfile : logarg) :
  truthy logfile = true ->
  hoare H0 (RaspberryPi.monitor_serial env fuel port logfile)
    (fun _ => After (fun ts => raspberrypi_header "シリアル通信ログ" ts port))
    (fun _ => After (fun ts => raspberrypi_header "シリアル通信ログ" ts port)).
Proof.
  intros Hlog.
  set (lines := fun ts => raspberrypi_header "シリアル通信ログ" ts port).
  pose proof (H0_stable env). pose proof (Bg_stable env lines).
  unfold RaspberryPi.monitor_serial.
  eapply hoare_bind with (R := fun _ => H0).
  { apply hoare_modify. s9. }
  intros _.
  eapply hoare_bind with (R := fun name w => H0 w /\ truthy name = true).
  { rewrite Hlog. destruct logfile; try discriminate.
    - eapply hoare_bind with (R := fun _ => H0).
      + hcall ltac:(intros; arrived; s9).
      + intros ts. apply hoare_ret. intros w Hw. split; [exact Hw |].
        reflexivity.
    - apply hoare_ret. auto. }
  intros name.
  apply hoare_assume. intros Hname.
  rewrite Hname.
  set (path := match name with LogName n => log_path_of env n | _ => "" end).
  eapply hoare_try_finally with
    (N1 := fun _ => After lines) (X1 := fun _ => After lines);
    [| intros; apply close_log_then_serial_header
     | intros; apply close_log_then_serial_header | auto | auto].
  eapply hoare_try_except with (X1 := fun _ => After lines);
    [| intros; apply handler_block_header | auto | auto | auto].
  hwalk s9.
  eapply hoare_bind with (R := fun _ => Bg lines).
  - cbv iota.
    hnext (Hx [EvLogOpen path None]) ltac:(intros; arrived; s9).
    hnext (Hx [EvLogWrite Header ("=== シリアル通信ログ ===" ++ nl) None;
               EvLogOpen path None])
      ltac:(intros; arrived; s9).
    eapply hoare_bind with (R := fun start => Hd path (lines start) 2).
    { hcall ltac:(intros; arrived; s9). }
    intros start.
    hnext (Hd path (lines start) 3) ltac:(intros; arrived; s9).
    hnext (Hd path (lines start) 4) ltac:(intros; arrived; s9).
    hnext (Hd path (lines start) 5) ltac:(intros; arrived; s9).
    hnext (Hd path (lines start) 6) ltac:(intros; arrived; s9).
    hnext (Hd path (lines start) 7) ltac:(intros; arrived; s9).
    hcall ltac:(intros; arrived; s9).
  - intros _. eapply hoare_of_preserves with (I := Bg lines);
      [unfold RaspberryPi.loop_body; unfold_ops; pres s9 | auto | s9 | s9].
Qed.

End RaspberryPi.

Lemma H0_init : H0 init_world.
Proof. split; reflexivity. Qed.

Lemma header_written_of_after (lines : string -> list string) (w : World) :
  After lines w -> header_written lines w.
Proof.
  intros [Hnr | (path & ts & rest & Hb)] (size & res & Hin).
  - unfold NR in Hnr. rewrite hasnt_history in Hnr.
    specialize (Hnr _ Hin). discriminate.
  - exists path, ts, (rev rest). unfold history.
    rewrite rlogs_log_events, Hb, rev_app_distr, rev_involutive. reflexivity.
Qed.

End C9Facts.

(** C9, as stated, fails: the header the raspberrypi script writes is not
    the header of section 6; before the separator it has a line for the
    receive coalescing. *)
Lemma raspberrypi_header_differs :
  In (EvLogWrite Header ("VMIN=16, VTIME=5 (0.5秒)" ++ nl) None)
     (history (snd C9.session)) /\
  ~ header_written (fun ts => spec_header "シリアル通信ログ" ts "/dev/ttyUSB0")
      (snd C9.session).
Proof.
  split; [vm_compute; repeat first [left; reflexivity | right] |].
  intros H.
  assert (Hloop : exists size res,
             In (EvRead size res) (history (snd C9.session))).
  { exists 16, (inl []). vm_compute.
    repeat first [left; reflexivity | right]. }
  destruct (H Hloop) as (path & ts & rest & Heq).
  assert (Hfifth : nth_error (log_events (history (snd C9.session))) 5
                   = Some (EvLogWrite Header
                             ("VMIN=16, VTIME=5 (0.5秒)" ++ nl) None)).
  { vm_compute. reflexivity. }
  rewrite Heq in Hfifth. discriminate Hfifth.
Qed.

(** C9, amended.  In a run that entered the read loop, the events on the
    log begin with the opening of the file for writing as UTF-8, the
    header lines and a flush.  The header of the backend script is that of
    section 6: label, start time, port, link profile, separator.  The
    header of the raspberrypi script, when it logs, has one more line,
    for VMIN and VTIME, before the separator. *)
Theorem log_header_written (env : Env) (fuel : nat) :
  (forall port logfile,
     header_written
       (fun ts => spec_header "シリアル通信ログ" ts (port_of env port))
       (snd (Backend.monitor_serial env fuel port logfile init_world))) /\
  (forall port logfile,
     truthy logfile = true ->
     header_written
       (fun ts => raspberrypi_header "シリアル通信ログ" ts port)
       (snd (RaspberryPi.monitor_serial env fuel port logfile init_world))).
Proof.
  split; intros port logfile.
  - apply C9Facts.header_written_of_after.
    pose proof (hoare_run _ _ _ _ _
                  (C9Facts.backend_final_header env fuel port logfile)
                  C9Facts.H0_init) as H.
    destruct (fst (Backend.monitor_serial env fuel port logfile init_world));
      exact H.
  - intros Hlog. apply C9Facts.header_written_of_after.
    pose proof (hoare_run _ _ _ _ _
                  (C9Facts.raspberrypi_final_header env fuel port logfile Hlog)
                  C9Facts.H0_init) as H.
    destruct (fst (RaspberryPi.monitor_serial env fuel port logfile
                     init_world));
      exact H.
Qed.

(** The cancelled raspberrypi session: its log begins with the six-line
    header. *)
Lemma log_header_written_witness :
  exists path ts rest,
    log_events (history (snd C9.session))
    = (header_events path
         (raspberrypi_header "シリアル通信ログ" ts "/dev/ttyUSB0") ++ rest)%list.
Proof.
  unfold C9.session.
  apply (proj2 (log_header_written Sample.cancelled 3)
           "/dev/ttyUSB0" (LogName "serial.log") eq_refl).
  exists 16, (inl []). vm_compute. repeat first [left; reflexivity | right].
Defined.

(* ================================================================= *)
(** * Handler installation: proofs *)

Module C10Facts.
Import C10.

Ltac u10 :=
  unfold X1, Final, NFinal, Dj, Hooked, B, A2, A1, A0, Quiet, Safe, ORD in *.
Ltac s10 :=
  intros; clear_stable; u10; wsimpl;
  repeat match goal with
         | H : _ /\ _ |- _ => destruct H
         | H : _ \/ _ |- _ => destruct H
         | a : abrupt |- _ => destruct a as [[?|] | [|] |]
         | s : signal |- _ => destruct s
         | H : true = false |- _ => discriminate H
         | H : false = true |- _ => discriminate H
         end;
  wsimpl;
  first [ solve [intuition (try congruence)]
        | left; solve [intuition (try congruence)]
        | right; solve [intuition (try congruence)] ].

Ltac hk10 := intros ? ?; u10; unfold hooked; tauto.

Section Proofs.
Variable env : Env.
Variable termios : bool.

Lemma Hooked_stable : sig_stable env (Hooked termios).
Proof. stab u10 ltac:(intuition (try congruence)). Qed.

Lemma backend_body (fuel : nat) (port log_path : string) :
  termios = HAS_TERMIOS env && negb (win env) ->
  hoare (A0 termios)
       (serial_Serial env port ;;
        vmin_vtime_info <-
          (if HAS_TERMIOS env && negb (win env) then
             ser_fileno env ;;
             tcgetattr env ;;
             tcsetattr env 16 5 ;;
             ret "VMIN=16, VTIME=5 (0.5秒)"
           else ret "ブロッキングモード") ;;
        print env Banner ("📡 シリアルモニタリング開始: " ++ port) ;;
        print env Banner "    設定: 9600bps, 8bit, Even parity, 1 stop bit" ;;
        print env Banner ("    " ++ vmin_vtime_info) ;;
        print env Banner ("📝 ログファイル: " ++ log_path) ;;
        print env Banner ("    Ctrl+C で終了" ++ nl) ;;
        signal_signal env SIGINT ;;
        signal_signal env SIGTERM ;;
        t <- time_time env ;;
        modify (set_last_activity t) ;;
        with_open env log_path
          (log_write env Header ("=== シリアル通信ログ ===" ++ nl) ;;
           start <- strftime env "%Y-%m-%d %H:%M:%S" ;;
           log_write env Header ("開始時刻: " ++ start ++ nl) ;;
           log_write env Header ("ポート: " ++ port ++ nl) ;;
           log_write env Header
             ("設定: 9600bps, 8bit, Even parity, 1 stop bit" ++ nl) ;;
           log_write env Header (str_mul "=" 50 ++ nl ++ nl) ;;
           log_flush env ;;
           while_running fuel (Backend.loop_body env) ;;
           log_write env Footer (nl ++ str_mul "=" 50 ++ nl) ;;
           stop <- strftime env "%Y-%m-%d %H:%M:%S" ;;
           log_write env Footer ("終了時刻: " ++ stop ++ nl) ;;
           log_write env Footer (str_mul "=" 50 ++ nl)) ;;
        print env StopNotice (nl ++ "🛑 モニタリング終了"))
    (fun _ => Hooked termios) (X1 termios).
Proof.
  intros Ht. pose proof Hooked_stable.
  hnext (A1 termios) ltac:(intros; arrived; s10).
  eapply hoare_bind with (R := fun _ => A2 termios).
  { rewrite <- Ht. destruct termios.
    - do 2 hstep s10. hnext (A2 true) ltac:(intros; arrived; s10).
      apply hoare_ret. s10.
    - apply hoare_ret. s10. }
  intros info. hwalk s10.
  hnext (B termios) ltac:(intros; arrived; s10).
  hnext (Hooked termios) ltac:(intros; arrived; s10).
  eapply hoare_of_holds with (I := Hooked termios);
    [unfold Backend.loop_body; unfold_ops; hold hk10 s10
    | s10 | s10 | s10 | s10].
Qed.

Lemma handler_block_hooks (msg : string) :
  hoare (Dj termios)
    (print env ErrorReport ("❌ エラー: " ++ msg) ;; traceback_print_exc env)
    (fun _ => Dj termios) (X1 termios).
Proof.
  hstep s10. hcall ltac:(intros; arrived; s10).
Qed.

Lemma close_serial_hooks (I : World -> Prop) :
  (forall w r w1, I w -> arrive env w r w1 ->
     I (set_ser (Some false) (push (r_time r) EvSerialClose w1))) ->
  (forall w s w1, I w -> dropped env w s w1 ->
     Final termios (abort_of s) w1) ->
  hoare I
    (s <- get ser ;;
     match s with
     | Some true => ser_close env
     | _ => ret tt
     end)
    (fun _ => I) (Final termios).
Proof.
  intros Hc Hd. eapply hoare_bind with (R := fun _ => I).
  - apply hoare_get. auto.
  - intros [[|] |]; [| apply hoare_ret; auto | apply hoare_ret; auto].
    unfold_ops. apply hoare_unit_call; auto.
Qed.

Lemma close_log_then_serial_hooks (I : World -> Prop) :
  (forall w r w1, I w -> log_file w <> None -> arrive env w r w1 ->
     I (set_log_file (Some false) (push (r_time r) EvLogClose w1))) ->
  (forall w r w1 msg, I w -> log_file w <> None -> arrive env w r w1 ->
     Final termios (ARaise (Exception msg))
       (set_log_file (Some false) (push (r_time r) EvLogClose w1))) ->
  (forall w r w1, I w -> arrive env w r w1 ->
     I (set_ser (Some false) (push (r_time r) EvSerialClose w1))) ->
  (forall w s w1, I w -> dropped env w s w1 ->
     Final termios (abort_of s) w1) ->
  hoare I
    (f <- get log_file ;;
     (if is_file f then log_close env else ret tt) ;;
     s <- get ser ;;
     match s with
     | Some true => ser_close env
     | _ => ret tt
     end)
    (fun _ => I) (Final termios).
Proof.
  intros Hl Hx Hc Hd.
  eapply hoare_bind with (R := fun f w => I w /\ f = log_file w).
  { apply hoare_get. auto. }
  intros f. eapply hoare_bind with (R := fun _ => I).
  - destruct f as [b |]; cbn [is_file]; [| apply hoare_ret; tauto].
    apply hoare_log_close.
    + intros w r w1 [Hw Hf] Ha _. apply (Hl w r w1 Hw); [congruence | exact Ha].
    + intros w r w1 msg [Hw Hf] Ha _.
      apply (Hx w r w1 msg Hw); [congruence | exact Ha].
    + intros w s w1 [Hw _] Hdrop. eauto.
  - intros _. apply close_serial_hooks; auto.
Qed.

Lemma backend_final_hooks (fuel : nat) (port logfile : option string) :
  termios = HAS_TERMIOS env && negb (win env) ->
  hoare (A0 termios) (Backend.monitor_serial env fuel port logfile)
    (fun _ => NFinal termios) (Final termios).
Proof.
  intros Ht. unfold Backend.monitor_serial.
  eapply hoare_bind with (R := fun _ => A0 termios).
  { destruct logfile; [apply hoare_ret; auto |].
    hstep s10. apply hoare_ret. auto. }
  intros name.
  eapply hoare_try_finally with
    (N1 := fun _ => Dj termios) (X1 := X1 termios).
  - eapply hoare_try_except with (X1 := X1 termios); auto.
    + eapply hoare_conseq; [apply backend_body; exact Ht | | |]; s10.
    + intros msg. apply handler_block_hooks.
  - intros _. eapply hoare_conseq;
      [apply (close_serial_hooks (Dj termios)) | | |];
      try (intros; arrived); s10.
  - intros [msg |].
    + eapply hoare_conseq;
        [apply (close_serial_hooks (Dj termios)) | | |];
        try (intros; arrived); s10.
    + eapply hoare_conseq;
        [apply (close_serial_hooks (Quiet termios)) | | |];
        try (intros; arrived); s10.
  - s10.
  - s10.
Qed.

Lemma raspberrypi_final_hooks (fuel : nat) (port : string) (logfile : logarg) :
  termios = true ->
  hoare (A0 termios) (RaspberryPi.monitor_serial env fuel port logfile)
    (fun _ => NFinal termios) (Final termios).
Proof.
  intros Ht. pose proof Hooked_stable. unfold RaspberryPi.monitor_serial.
  eapply hoare_bind with (R := fun _ => A0 termios).
  { apply hoare_modify. s10. }
  intros _. eapply hoare_bind with (R := fun _ => A0 termios).
  { destruct (truthy logfile); [| apply hoare_ret; auto].
    destruct logfile; try (apply hoare_ret; auto).
    hstep s10. apply hoare_ret. auto. }
  intros name.
  eapply hoare_try_finally with
    (N1 := fun _ => Dj termios) (X1 := X1 termios).
  - eapply hoare_try_except with (X1 := X1 termios); auto.
    + eapply hoare_conseq with (P' := A0 termios)
                               (N' := fun _ => Hooked termios)
                               (X' := X1 termios); [| auto | s10 | auto].
      hnext (A1 termios) ltac:(intros; arrived; s10).
      do 2 hstep s10.
      hnext (A2 termios) ltac:(intros; arrived; s10).
      hwalk s10.
      hnext (B termios) ltac:(intros; arrived; s10).
      hnext (Hooked termios) ltac:(intros; arrived; s10).
      eapply hoare_of_holds with (I := Hooked termios);
        [unfold RaspberryPi.loop_body; unfold_ops; hold hk10 s10
        | s10 | s10 | s10 | s10].
    + intros msg. apply handler_block_hooks.
  - intros _. eapply hoare_conseq;
      [apply (close_log_then_serial_hooks (Dj termios)) | | |];
      try (intros; arrived); s10.
  - intros [msg |].
    + eapply hoare_conseq;
        [apply (close_log_then_serial_hooks (Dj termios)) | | |];
        try (intros; arrived); s10.
    + eapply hoare_conseq;
        [apply (close_log_then_serial_hooks (Quiet termios)) | | |];
        try (intros; arrived); s10.
  - s10.
  - s10.
Qed.

End Proofs.

Lemma A0_init (termios : bool) : A0 termios init_world.
Proof. u10. simpl. intuition. Qed.

Lemma handlers_after_setup_of_final (termios : bool) (o : outcome unit)
  (w : World) :
  post (fun _ => NFinal termios) (Final termios) o w ->
  handlers_after_setup termios o w.
Proof.
  intros H.
  assert (Hord : ORD termios w)
    by (destruct o as [[] | [msg |] | [|] |]; simpl in H; u10; tauto).
  assert (Hsafe : Safe w)
    by (destruct o as [[] | [msg |] | [|] |]; simpl in H; u10; tauto).
  destruct Hord as (Hopen & Htc & Hint & Hterm).
  split; [| split].
  - intros pre s post0 Hh. apply history_split in Hh.
    destruct Hh as (newer & t & older & Htr & -> & ->). split.
    + pose proof (preceded_split _ _ _ _ _ _ Hopen Htr eq_refl) as Hq.
      apply has_map_snd_rev in Hq. destruct Hq as (e & Hin & He).
      apply is_ser_open_ok_inv in He. destruct He as (port & ->). eauto.
    + intros Ht.
      pose proof (preceded_split _ _ _ _ _ _ (Htc Ht) Htr eq_refl) as Hq.
      apply has_map_snd_rev in Hq. destruct Hq as (e & Hin & He).
      apply is_tcset_ok_inv in He. now subst e.
  - intros s Hin.
    assert (Hd : has is_dropped (trace w) = true)
      by (eapply has_event; [exact Hin | reflexivity]).
    destruct (Hsafe Hd) as [Hrun Hread]. split; [exact Hrun |]. split.
    + intros size res Hr. rewrite hasnt_history in Hread.
      specialize (Hread _ Hr). discriminate.
    + destruct o as [[] | [msg |] | [|] |]; simpl in H; u10;
        try (destruct H as (_ & _ & Hn); congruence); auto.
  - intros pre s post0 Hh. apply history_split in Hh.
    destruct Hh as (newer & t & older & Htr & -> & ->).
    assert (Hq : has (is_handler s) older = true).
    { destruct s.
      - apply (preceded_split _ _ _ _ _ _ Hint Htr eq_refl).
      - apply (preceded_split _ _ _ _ _ _ Hterm Htr eq_refl). }
    apply has_map_snd_rev in Hq. destruct Hq as (e & Hin & He).
    apply is_handler_inv in He. now subst e.
Qed.

End C10Facts.

(** C10.  In both scripts every handler is installed after the port was
    opened and, where the script sets VMIN and VTIME at all, after they
    were set; a signal that arrives before its handler is installed is
    not turned into the flag: [running] stays set, no read is made and
    the monitor is left by KeyboardInterrupt or killed; every signal that
    is turned into the flag arrives after its handler was installed. *)
Theorem handlers_installed_after_setup (env : Env) (fuel : nat) :
  (forall port logfile,
     handlers_after_setup (HAS_TERMIOS env && negb (win env))
       (fst (Backend.monitor_serial env fuel port logfile init_world))
       (snd (Backend.monitor_serial env fuel port logfile init_world))) /\
  (forall port logfile,
     handlers_after_setup true
       (fst (RaspberryPi.monitor_serial env fuel port logfile init_world))
       (snd (RaspberryPi.monitor_serial env fuel port logfile init_world))).
Proof.
  split; intros port logfile; apply C10Facts.handlers_after_setup_of_final.
  - apply (hoare_run _ _ _ _ _
             (C10Facts.backend_final_hooks env _ fuel port logfile eq_refl)
             (C10Facts.A0_init _)).
  - apply (hoare_run _ _ _ _ _
             (C10Facts.raspberrypi_final_hooks env _ fuel port logfile eq_refl)
             (C10Facts.A0_init _)).
Qed.

(** An interrupt during [tcgetattr]: the flag is untouched, nothing is
    read, the monitor is left by KeyboardInterrupt. *)
Lemma handlers_installed_after_setup_witness :
  running (snd C10.interrupted) = true /\
  (forall size res, ~ In (EvRead size res) (history (snd C10.interrupted))) /\
  (fst C10.interrupted = Raise KeyboardInterrupt \/
   fst C10.interrupted = Killed SIGTERM).
Proof.
  unfold C10.interrupted.
  apply (proj1 (proj2 (proj2 (handlers_installed_after_setup
                                Sample.early_interrupt 3)
                         "/dev/ttyUSB0" LogNone)) SIGINT).
  vm_compute. repeat first [left; reflexivity | right].
Defined.

(* ================================================================= *)
(** * Rendering: further properties *)

Module TextFacts.
Import Render Text.

Lemma hex_app (a b : bytes) : hex (a ++ b) = (hex a ++ hex b)%string.
Proof. induction a as [| x a IH]; simpl; [reflexivity | now rewrite IH]. Qed.

Lemma upper_app (s t : string) : upper (s ++ t) = (upper s ++ upper t)%string.
Proof. induction s as [| c s IH]; simpl; [reflexivity | now rewrite IH]. Qed.

Lemma printable_char (b : byte) :
  is_printable_char (if printable b then chr b else "."%char) = true.
Proof. destruct b; vm_compute; reflexivity. Qed.

(** The renderings of a block made of two pieces are the renderings of
    the pieces, one after the other; an empty block renders as the empty
    string. *)
Theorem renderings_of_concatenation (a b : bytes) :
  hexstr (a ++ b) = (hexstr a ++ hexstr b)%string /\
  ascstr (a ++ b) = (ascstr a ++ ascstr b)%string /\
  hexstr [] = "" /\ ascstr [] = "".
Proof.
  split; [unfold hexstr; now rewrite hex_app, upper_app |].
  split; [| split; reflexivity].
  induction a as [| x a IH]; [reflexivity |].
  simpl app. rewrite !RenderFacts.ascstr_cons, IH. reflexivity.
Qed.

(** Two blocks with the same hex rendering are the same block. *)
Theorem hexstr_injective (a b : bytes) : hexstr a = hexstr b -> a = b.
Proof.
  intros H. pose proof (RenderFacts.fromhex_hexstr a) as Ha.
  rewrite H, RenderFacts.fromhex_hexstr in Ha. now inversion Ha.
Qed.

Lemma hexstr_injective_witness :
  hexstr [x05; x30] = hexstr [x05; x30] /\ [x05; x30] = [x05; x30].
Proof.
  split; [reflexivity |].
  apply (hexstr_injective [x05; x30] [x05; x30]). reflexivity.
Defined.

(** Whatever the bytes, the ASCII rendering holds printable characters
    only. *)
Theorem ascstr_is_printable (B : bytes) :
  all_chars is_printable_char (ascstr B) = true.
Proof.
  induction B as [| b rest IH]; [reflexivity |].
  rewrite RenderFacts.ascstr_cons. cbn [all_chars].
  now rewrite printable_char, IH.
Qed.

(** A block of printable bytes is rendered as its own text. *)
Theorem ascstr_of_printable_text (B : bytes) :
  forallb printable B = true -> ascstr B = text_of B.
Proof.
  unfold text_of. induction B as [| b rest IH]; [reflexivity |].
  simpl. intros H. apply andb_true_iff in H. destruct H as [Hb Hrest].
  rewrite RenderFacts.ascstr_cons, Hb, (IH Hrest). reflexivity.
Qed.

Lemma ascstr_of_printable_text_witness :
  forallb printable [x45; x4e; x51; x20; x31] = true /\
  ascstr [x45; x4e; x51; x20; x31] = "ENQ 1".
Proof.
  split; [reflexivity |].
  apply (ascstr_of_printable_text [x45; x4e; x51; x20; x31]). reflexivity.
Defined.

Lemma substring_all (s t : string) :
  String.substring 0 (String.length s) (s ++ t) = s.
Proof. induction s as [| c s IH]; simpl; [now destruct t | now rewrite IH]. Qed.

Lemma length_app (s t : string) :
  String.length (s ++ t) = String.length s + String.length t.
Proof. induction s as [| c s IH]; simpl; [reflexivity | now rewrite IH]. Qed.

Lemma substring_length (n : nat) (s : string) :
  n <= String.length s -> String.length (String.substring 0 n s) = n.
Proof.
  revert s. induction n as [| n IH]; intros s H.
  - now destruct s.
  - destruct s as [| c s]; simpl in *; [lia |]. rewrite IH; [reflexivity | lia].
Qed.

(** [s[:-3]] removes exactly the last three characters, and gives the
    empty string when there are no more than three. *)
Theorem drop_last3_spec (s t : string) :
  (String.length t = 3 -> drop_last3 (s ++ t) = s) /\
  String.length (drop_last3 s) = String.length s - 3 /\
  (String.length s <= 3 -> drop_last3 s = "").
Proof.
  unfold drop_last3. split; [| split].
  - intros Ht. rewrite length_app, Ht.
    replace (String.length s + 3 - 3) with (String.length s) by lia.
    apply substring_all.
  - apply substring_length. lia.
  - intros H. replace (String.length s - 3) with 0 by lia. now destruct s.
Qed.

(** The microseconds of a time stamp cut down to milliseconds. *)
Lemma drop_last3_spec_witness :
  drop_last3 "2025-11-04 12:00:00.123456" = "2025-11-04 12:00:00.123".
Proof.
  apply (proj1 (drop_last3_spec "2025-11-04 12:00:00.123" "456")).
  reflexivity.
Defined.

End TextFacts.

(* ================================================================= *)
(** * The port probe: proofs *)

Module ProbeFacts.
Import Probe.

Ltac up := unfold Fresh, RSaid, ROwed, R, BOpen, B, pick in *.
Ltac sp :=
  intros; clear_stable; up; wsimpl;
  cbn [flat_map tried_port opened_port probe_print probe_line app
       List.length map snd fst] in *;
  open_hyps; subst;
  repeat match goal with
         | H : flat_map _ (trace _) = _ |- _ => rewrite H in *
         | H : count _ (trace _) = _ |- _ => rewrite H in *
         end;
  cbn [app List.length map] in *; close.

Section Proofs.
Variable env : Env.

Lemma backend_probe_ports (ports rdone ravail : list string) :
  hoare (B rdone ravail) (Backend.probe_ports env ports (rev ravail))
    (fun r w => exists ravail',
       r = rev ravail' /\ B (rev ports ++ rdone) ravail' w)
    (fun _ _ => True).
Proof.
  revert rdone ravail. induction ports as [| port rest IH];
    intros rdone ravail; simpl.
  - apply hoare_ret. intros w Hw. exists ravail. auto.
  - eapply hoare_bind with
      (R := fun r w => exists ravail',
              r = rev ravail' /\ B (port :: rdone) ravail' w).
    + eapply hoare_try_except with
        (X1 := fun a w =>
                 match a with
                 | ARaise (Exception _) => B (port :: rdone) ravail w
                 | _ => True
                 end); [| | auto | auto | auto].
      * hnext (BOpen false port rdone ravail) ltac:(intros; arrived; sp).
        hnext (BOpen true port rdone ravail) ltac:(intros; arrived; sp).
        hnext (B (port :: rdone) (port :: ravail))
          ltac:(intros; arrived; sp).
        apply hoare_ret. intros w Hw. exists (port :: ravail). auto.
      * intros msg. apply hoare_ret. intros w Hw. exists ravail. auto.
    + intros r. intros w (ravail' & -> & Hw).
      rewrite <- app_assoc. apply (IH (port :: rdone) ravail' w Hw).
Qed.

Lemma backend_report (ports r ravail : list string) :
  r = rev ravail ->
  hoare (B (rev ports) ravail)
    (match r with
     | [] => print env ProbeReport not_found
     | _ :: _ => ret tt
     end ;; ret r)
    (fun r' w => r' = r /\ BDone ports r w) (fun _ _ => True).
Proof.
  intros Hr. unfold BDone.
  destruct r as [| p r'].
  - assert (ravail = []) as -> by (destruct ravail; [reflexivity |];
      simpl in Hr; destruct (rev ravail); discriminate).
    eapply hoare_bind with (R := fun _ w => BDone ports [] w).
    + hcall ltac:(intros; arrived; unfold BDone; cbv beta;
                  try (exists []); sp).
    + intros _. apply hoare_ret. auto.
  - eapply hoare_bind with (R := fun _ => B (rev ports) ravail).
    + apply hoare_ret. auto.
    + intros _. apply hoare_ret. intros w Hw. split; [reflexivity |].
      exists ravail. revert Hw. sp.
Qed.

Lemma backend_test :
  hoare Fresh
    (Backend.test_serial_ports env)
    (BDone (backend_ports env)) (fun _ _ => True).
Proof.
  unfold Backend.test_serial_ports. fold (backend_ports env).
  eapply hoare_bind with (R := fun _ => B [] []).
  { hcall ltac:(intros; arrived; sp). }
  intros _.
  eapply hoare_bind with
    (R := fun r w => exists ravail,
            r = rev ravail /\ B (rev (backend_ports env)) ravail w).
  - eapply hoare_conseq;
      [apply (backend_probe_ports (backend_ports env) [] [])
      | auto | | auto].
    intros r w (ravail & Hr & Hw). exists ravail.
    rewrite app_nil_r in Hw. auto.
  - intros r w (ravail & Hr & Hw).
    pose proof (backend_report (backend_ports env) r ravail Hr w Hw) as H.
    destruct (fst _); simpl in *; [| exact I ..].
    destruct H as [-> H]. exact H.
Qed.

Lemma raspberrypi_probe_ports (ports rdone lines : list string) (k : nat) :
  hoare (R rdone lines k) (RaspberryPi.probe_ports env ports)
    (fun _ w => exists lines' k', R (rev ports ++ rdone) lines' k' w)
    (fun _ _ => True).
Proof.
  revert rdone lines k. induction ports as [| port rest IH];
    intros rdone lines k; simpl.
  - apply hoare_ret. intros w Hw. exists lines, k. auto.
  - eapply hoare_bind with
      (R := fun _ w => exists lines' k', R (port :: rdone) lines' k' w).
    + eapply hoare_try_except with
        (X1 := fun a w =>
                 match a with
                 | ARaise (Exception msg) =>
                     ROwed true ("❌ " ++ port ++ ": " ++ msg) port rdone
                       lines k w
                 | _ => True
                 end); [| | auto | auto | auto].
      * hnext (ROwed false ("✅ " ++ port ++ ": 接続成功") port rdone lines k)
          ltac:(intros; arrived; sp).
        hnext (RSaid port rdone
                 (("✅ " ++ port ++ ": 接続成功")%string :: lines) k)
          ltac:(intros; arrived; sp).
        hcall ltac:(intros; arrived; cbv beta; try (do 2 eexists); sp).
      * intros msg. hcall ltac:(intros; arrived; cbv beta; try (do 2 eexists); sp).
    + intros _ w (lines' & k' & Hw).
      rewrite <- app_assoc. apply (IH (port :: rdone) lines' k' w Hw).
Qed.

Lemma raspberrypi_test :
  hoare Fresh (RaspberryPi.test_serial_ports env)
    (fun _ w => exists lines k, R (rev RaspberryPi.ports_to_test) lines k w)
    (fun _ _ => True).
Proof.
  unfold RaspberryPi.test_serial_ports.
  eapply hoare_bind with (R := fun _ => R [] [] 0).
  { hcall ltac:(intros; arrived; sp). }
  intros _. eapply hoare_conseq;
    [apply (raspberrypi_probe_ports RaspberryPi.ports_to_test [] [] 0)
    | auto | | auto].
  intros _ w (lines & k & Hw). exists lines, k.
  rewrite app_nil_r in Hw. exact Hw.
Qed.

End Proofs.
Lemma Fresh_init : Fresh init_world.
Proof. up. simpl. auto. Qed.

Lemma flat_map_rev {A B} (f : A -> list B) (l : list A) :
  (forall a, rev (f a) = f a) ->
  flat_map f (rev l) = rev (flat_map f l).
Proof.
  intros Hf. induction l as [| a l IH]; [reflexivity |]. simpl.
  rewrite flat_map_app, IH, rev_app_distr, Hf. simpl.
  now rewrite app_nil_r.
Qed.

Lemma pick_history (f : event -> list string) (w : World) :
  (forall e, rev (f e) = f e) ->
  flat_map f (history w) = rev (pick f (trace w)).
Proof.
  intros Hf. unfold history, pick.
  rewrite <- (flat_map_rev (fun x => f (snd x)) (trace w))
    by (intros; apply Hf).
  generalize (rev (trace w)). intros l.
  induction l as [| x l IH]; [reflexivity |]. simpl. now rewrite IH.
Qed.

Lemma tried_port_rev (e : event) : rev (tried_port e) = tried_port e.
Proof. destruct e; reflexivity. Qed.
Lemma opened_port_rev (e : event) : rev (opened_port e) = opened_port e.
Proof. destruct e as [| ? [|] | | | | | | | | | | | | | |]; reflexivity. Qed.
Lemma probe_print_rev (e : event) : rev (probe_print e) = probe_print e.
Proof. destruct e as [| | | | | | [] | | | | | | | | |]; reflexivity. Qed.
Lemma probe_line_rev (e : event) : rev (probe_line e) = probe_line e.
Proof. destruct e as [| ? [|] | | | | | | | | | | | | | |]; reflexivity. Qed.

Lemma closes_history (w : World) :
  occurrences is_ser_close (history w) = count is_ser_close (trace w).
Proof.
  unfold occurrences, history. induction (trace w) as [| x tr IH];
    [reflexivity |].
  simpl. rewrite map_app, filter_app, length_app, IH. simpl.
  destruct (is_ser_close (snd x)); simpl; lia.
Qed.

End ProbeFacts.

(** When the backend probe returns, it has tried every port of its list
    once and in order; the list it returns holds exactly the ports that
    opened, in that order, each announced on the console and closed
    again; the line for an empty result is printed exactly when the list
    is empty. *)
Theorem backend_probe_reports (env : Env) :
  backend_probed env
    (fst (Backend.test_serial_ports env init_world))
    (snd (Backend.test_serial_ports env init_world)).
Proof.
  pose proof (hoare_run _ _ _ _ _ (ProbeFacts.backend_test env)
                ProbeFacts.Fresh_init) as H.
  intros available Ho. rewrite Ho in H. unfold post in H.
  destruct H as (ravail & -> & Ht & Hop & Hc & Hp).
  rewrite ProbeFacts.closes_history, Hc, length_rev.
  rewrite !ProbeFacts.pick_history
    by (first [ apply ProbeFacts.tried_port_rev
              | apply ProbeFacts.opened_port_rev
              | apply ProbeFacts.probe_print_rev ]).
  rewrite Ht, Hop, Hp, rev_involutive, !rev_app_distr, map_rev. simpl.
  repeat split. destruct (rev ravail); reflexivity.
Qed.

(** Two of the five ports answer the backend probe: they are the list
    returned. *)
Lemma backend_probe_reports_witness :
  fst Probe.backend_probe = Ok ["/dev/ttyUSB1"; "/dev/ttyS0"] /\
  flat_map tried_port (history (snd Probe.backend_probe))
  = Backend.posix_ports /\
  occurrences is_ser_close (history (snd Probe.backend_probe)) = 2.
Proof.
  unfold Probe.backend_probe.
  assert (Ho : fst (Backend.test_serial_ports Probe.two_ports init_world)
               = Ok ["/dev/ttyUSB1"; "/dev/ttyS0"])
    by (vm_compute; reflexivity).
  split; [exact Ho |].
  destruct (backend_probe_reports Probe.two_ports _ Ho) as (Ht & _ & Hc & _).
  split; [exact Ht | exact Hc].
Defined.

(** When the raspberrypi probe returns, it has tried its five ports once
    and in order, has printed one line for each, in order, saying that the
    port opened or why it did not, and has closed every port it opened. *)
Theorem raspberrypi_probe_reports (env : Env) :
  raspberrypi_probed
    (fst (RaspberryPi.test_serial_ports env init_world))
    (snd (RaspberryPi.test_serial_ports env init_world)).
Proof.
  pose proof (hoare_run _ _ _ _ _ (ProbeFacts.raspberrypi_test env)
                ProbeFacts.Fresh_init) as H.
  intros Ho. rewrite Ho in H. unfold post in H.
  destruct H as (lines & k & Ht & Hl & Hp & Hc & Hop).
  rewrite ProbeFacts.closes_history, Hc.
  rewrite !ProbeFacts.pick_history
    by (first [ apply ProbeFacts.tried_port_rev
              | apply ProbeFacts.opened_port_rev
              | apply ProbeFacts.probe_print_rev
              | apply ProbeFacts.probe_line_rev ]).
  rewrite Ht, Hl, Hp, length_rev, Hop, rev_involutive, rev_app_distr.
  repeat split.
Qed.

(** One line for each of the five ports, after the first line. *)
Lemma raspberrypi_probe_reports_witness :
  flat_map probe_print (history (snd Probe.raspberrypi_probe))
  = [ searching;
      "❌ /dev/ttyUSB0: could not open port";
      "✅ /dev/ttyUSB1: 接続成功";
      "❌ /dev/ttyAMA0: could not open port";
      "✅ /dev/serial0: 接続成功";
      "✅ /dev/ttyS0: 接続成功" ]%string.
Proof.
  unfold Probe.raspberrypi_probe.
  destruct (raspberrypi_probe_reports Probe.two_ports) as (_ & Hp & _);
    [vm_compute; reflexivity |].
  rewrite Hp. vm_compute. reflexivity.
Defined.

(* ================================================================= *)
(** * The sub-commands: proofs *)

Module SubFacts.
Import Sub.

Ltac sv :=
  intros; clear_stable; unfold V, VH, untouched in *; wsimpl;
  cbn [forallb is_probe_or_usage is_usage_or_signal andb snd] in *;
  open_hyps; subst; wsimpl; close.

Section Proofs.
Variable env : Env.

Lemma backend_probe_only (ports available : list string) :
  hoare V (Backend.probe_ports env ports available)
    (fun _ => V) (fun _ => V).
Proof.
  revert available. induction ports as [| port rest IH]; intros available;
    simpl; [apply hoare_ret; sv |].
  eapply hoare_bind with (R := fun _ => V); [| intro; apply IH].
  eapply hoare_try_except with (X1 := fun _ => V);
    [hall sv | intro; apply hoare_ret; sv | sv | sv | sv].
Qed.

Lemma raspberrypi_probe_only (ports : list string) :
  hoare V (RaspberryPi.probe_ports env ports) (fun _ => V) (fun _ => V).
Proof.
  induction ports as [| port rest IH]; simpl; [apply hoare_ret; sv |].
  eapply hoare_bind with (R := fun _ => V); [| intro; apply IH].
  eapply hoare_try_except with (X1 := fun _ => V);
    [hall sv | intro; hall sv | sv | sv | sv].
Qed.

Lemma backend_test_only :
  hoare V (Backend.test_serial_ports env) (fun _ => V) (fun _ => V).
Proof.
  unfold Backend.test_serial_ports.
  eapply hoare_bind with (R := fun _ => V); [hall sv | intro].
  eapply hoare_bind with (R := fun _ => V);
    [apply backend_probe_only | intro; hall sv].
Qed.

Lemma raspberrypi_test_only :
  hoare V (RaspberryPi.test_serial_ports env) (fun _ => V) (fun _ => V).
Proof.
  unfold RaspberryPi.test_serial_ports.
  eapply hoare_bind with (R := fun _ => V);
    [hall sv | intro; apply raspberrypi_probe_only].
Qed.

Lemma backend_sub (fuel : nat) (argv : list string) :
  subcommand argv ->
  hoare V (Backend.main env fuel argv) (fun _ => V) (fun _ => V).
Proof.
  intros Hsub. unfold Backend.main.
  assert (Hnone : hoare V
            (Backend.usage env ;;
             print env Usage (nl ++ "利用可能なポートをテストします…" ++ nl) ;;
             Backend.test_serial_ports env ;; ret tt) (fun _ => V)
            (fun _ => V)).
  { eapply hoare_bind with (R := fun _ => V);
      [unfold Backend.usage; hall sv | intro].
    eapply hoare_bind with (R := fun _ => V); [hall sv | intro].
    eapply hoare_bind with (R := fun _ => V);
      [apply backend_test_only | intro; apply hoare_ret; sv]. }
  destruct argv as [| script [| arg1 rest]]; try exact Hnone.
  simpl in Hsub. destruct Hsub as [-> | [-> | ->]]; simpl.
  - eapply hoare_bind with (R := fun _ => V);
      [apply backend_test_only | intro; apply hoare_ret; sv].
  - unfold Backend.usage. hall sv.
  - unfold Backend.usage. hall sv.
Qed.

Lemma raspberrypi_sub (fuel : nat) (argv : list string) :
  subcommand argv ->
  hoare V (RaspberryPi.main env fuel argv) (fun _ => V) (fun _ => V).
Proof.
  intros Hsub. unfold RaspberryPi.main.
  assert (Hnone : hoare V
            (RaspberryPi.usage env ;;
             print env Usage (nl ++ "利用可能なポートをテストします…" ++ nl) ;;
             RaspberryPi.test_serial_ports env) (fun _ => V) (fun _ => V)).
  { eapply hoare_bind with (R := fun _ => V);
      [unfold RaspberryPi.usage; hall sv | intro].
    eapply hoare_bind with (R := fun _ => V);
      [hall sv | intro; apply raspberrypi_test_only]. }
  destruct argv as [| script [| arg1 rest]]; try exact Hnone.
  simpl in Hsub. destruct Hsub as [-> | [-> | ->]]; simpl.
  - apply raspberrypi_test_only.
  - eapply hoare_bind with (R := fun _ => V);
      [unfold RaspberryPi.usage; hall sv | intro; hall sv].
  - eapply hoare_bind with (R := fun _ => V);
      [unfold RaspberryPi.usage; hall sv | intro; hall sv].
Qed.

Lemma backend_help (fuel : nat) (argv : list string) :
  asks_help argv ->
  hoare VH (Backend.main env fuel argv) (fun _ => VH) (fun _ => VH).
Proof.
  intros Hh. unfold Backend.main.
  destruct argv as [| script [| arg1 rest]]; try destruct Hh.
  - subst. simpl. unfold Backend.usage. hall sv.
  - subst. simpl. unfold Backend.usage. hall sv.
Qed.

Lemma raspberrypi_help (fuel : nat) (argv : list string) :
  asks_help argv ->
  hoare VH (RaspberryPi.main env fuel argv) (fun _ => VH) (fun _ => VH).
Proof.
  intros Hh. unfold RaspberryPi.main.
  destruct argv as [| script [| arg1 rest]]; try destruct Hh.
  - subst. simpl. eapply hoare_bind with (R := fun _ => VH);
      [unfold RaspberryPi.usage; hall sv | intro; hall sv].
  - subst. simpl. eapply hoare_bind with (R := fun _ => VH);
      [unfold RaspberryPi.usage; hall sv | intro; hall sv].
Qed.

End Proofs.

Lemma V_init : V init_world.
Proof. unfold V, untouched. simpl. repeat split. Qed.

Lemma VH_init : VH init_world.
Proof. unfold VH, untouched. simpl. repeat split. Qed.

Lemma all_history (p : event -> bool) (w : World) :
  forallb (fun x => p (snd x)) (trace w) = true ->
  forall e, In e (history w) -> p e = true.
Proof.
  intros H e Hin. apply In_history in Hin. destruct Hin as (t & Hin).
  rewrite forallb_forall in H. apply (H _ Hin).
Qed.

Lemma only_subcommand_of_post {A} (o : outcome A) (w : World) :
  post (fun _ => V) (fun _ => V) o w -> only_subcommand w.
Proof.
  intros H. assert (Hv : V w) by (destruct o; exact H).
  destruct Hv as [Hall Hu]. split; [now apply all_history | exact Hu].
Qed.

Lemma only_help_of_post {A} (o : outcome A) (w : World) :
  post (fun _ => VH) (fun _ => VH) o w -> only_help w.
Proof.
  intros H. assert (Hv : VH w) by (destruct o; exact H).
  destruct Hv as [Hall _]. unfold only_help. now apply all_history.
Qed.

End SubFacts.

(** Started without argument or with [test], [help] or [-h], neither
    script monitors: it prints its usage and probe lines and opens and
    closes the ports it probes, and nothing else; it installs no signal
    handler, makes no read, touches no terminal setting and opens no log.
    With [help] or [-h] it does not even open a port. *)
Theorem subcommands_do_not_monitor (env : Env) (fuel : nat)
  (argv : list string) :
  subcommand argv ->
  only_subcommand (snd (Backend.main env fuel argv init_world)) /\
  only_subcommand (snd (RaspberryPi.main env fuel argv init_world)) /\
  (asks_help argv ->
   only_help (snd (Backend.main env fuel argv init_world)) /\
   only_help (snd (RaspberryPi.main env fuel argv init_world))).
Proof.
  intros Hsub. split; [| split].
  - eapply SubFacts.only_subcommand_of_post.
    apply (hoare_run _ _ _ _ _ (SubFacts.backend_sub env fuel argv Hsub)
             SubFacts.V_init).
  - eapply SubFacts.only_subcommand_of_post.
    apply (hoare_run _ _ _ _ _ (SubFacts.raspberrypi_sub env fuel argv Hsub)
             SubFacts.V_init).
  - intros Hh. split; eapply SubFacts.only_help_of_post.
    + apply (hoare_run _ _ _ _ _ (SubFacts.backend_help env fuel argv Hh)
               SubFacts.VH_init).
    + apply (hoare_run _ _ _ _ _ (SubFacts.raspberrypi_help env fuel argv Hh)
               SubFacts.VH_init).
Qed.

Lemma subcommands_do_not_monitor_witness :
  subcommand ["serial_debug_test.py"; "test"] /\
  only_subcommand
    (snd (Backend.main Probe.two_ports 0 ["serial_debug_test.py"; "test"]
            init_world)).
Proof.
  assert (H : subcommand ["serial_debug_test.py"; "test"])
    by (left; reflexivity).
  split; [exact H |].
  exact (proj1 (subcommands_do_not_monitor Probe.two_ports 0
                  ["serial_debug_test.py"; "test"] H)).
Defined.

(* ================================================================= *)
(** * Logging on request: proofs *)

Module NoLogFacts.
Import NoLog.

Ltac sn :=
  intros; clear_stable; unfold NL, NL0 in *; wsimpl; open_hyps; subst;
  wsimpl; close.

(** As [hall], knowing that [log_file] is [None]. *)
Ltac hnl :=
  lazymatch goal with
  | |- hoare ?Inv (bind (get log_file) _) _ _ =>
      eapply hoare_bind with (R := fun f w => Inv w /\ f = None);
      [ apply hoare_get; sn
      | intros ?f; apply hoare_assume; intros ->; cbn [is_file]; cbv iota;
        hnl ]
  | |- hoare _ (ret _) _ _ => apply hoare_ret; sn
  | |- hoare _ (get _) _ _ => apply hoare_get; sn
  | |- hoare _ (modify _) _ _ => apply hoare_modify; sn
  | |- hoare ?Inv (bind _ _) _ _ =>
      eapply hoare_bind with (R := fun _ => Inv); [hnl | intro; hnl]
  | |- hoare _ (if ?c then _ else _) _ _ => destruct c; hnl
  | |- hoare _ (match ?c with _ => _ end) _ _ => destruct c; hnl
  | |- hoare ?Inv (while_running _ _) _ ?Xp =>
      eapply hoare_conseq;
      [ apply hoare_while with (I := Inv) (X := Xp);
        [ eapply hoare_conseq with
            (P' := Inv) (N' := fun _ => Inv) (X' := Xp);
          [hnl | tauto | auto | auto]
        | sn ]
      | auto | intros ? ? [? _]; sn | auto ]
  | |- _ => hcall ltac:(intros; try arrived; sn)
  end.

Section Proofs.
Variable env : Env.

Lemma raspberrypi_silent (fuel : nat) (port : string) (logfile : logarg) :
  truthy logfile = false ->
  hoare NL0 (RaspberryPi.monitor_serial env fuel port logfile)
    (fun _ => NL) (fun _ => NL).
Proof.
  intros Hlog. unfold RaspberryPi.monitor_serial. rewrite Hlog.
  eapply hoare_bind with (R := fun _ => NL); [apply hoare_modify; sn |].
  intros _. eapply hoare_bind with
    (R := fun name w => NL w /\ name = logfile).
  { apply hoare_ret. sn. }
  intros name. apply hoare_assume. intros ->. rewrite Hlog. cbv iota.
  eapply hoare_try_finally with (N1 := fun _ => NL) (X1 := fun _ => NL);
    [| intros _; hnl | intros _; hnl | auto | auto].
  eapply hoare_try_except with (X1 := fun _ => NL);
    [| intros msg; hnl | auto | auto | auto].
  unfold RaspberryPi.loop_body. hnl.
Qed.

End Proofs.

Lemma NL0_init : NL0 init_world.
Proof. reflexivity. Qed.

Lemma logs_nothing_of_post {A} (o : outcome A) (w : World) :
  post (fun _ => NL) (fun _ => NL) o w -> logs_nothing w.
Proof.
  intros H. assert (Hn : NL w) by (destruct o; exact H).
  destruct Hn as [Hn Hf]. split; [| exact Hf].
  now apply hasnt_history.
Qed.

Lemma main_without_flag (env : Env) (fuel : nat) (script port : string)
  (rest : list string) :
  monitoring port -> without_log_flag rest ->
  RaspberryPi.main env fuel (script :: port :: rest)
  = RaspberryPi.monitor_serial env fuel port LogNone.
Proof.
  intros (H1 & H2 & H3) Hrest. unfold RaspberryPi.main.
  rewrite H1, H2, H3. simpl. destruct rest as [| arg2 rest']; [reflexivity |].
  simpl in Hrest. apply String.eqb_neq in Hrest. now rewrite Hrest.
Qed.

End NoLogFacts.

(** The raspberrypi monitor called without a log name (or with an empty
    one) does nothing on any log file.  The script logs only on [--log]:
    a file name given right after the port is ignored. *)
Theorem raspberrypi_logs_only_on_request (env : Env) (fuel : nat) :
  (forall port logfile,
     truthy logfile = false ->
     logs_nothing
       (snd (RaspberryPi.monitor_serial env fuel port logfile init_world))) /\
  (forall script port rest,
     monitoring port -> without_log_flag rest ->
     logs_nothing
       (snd (RaspberryPi.main env fuel (script :: port :: rest) init_world))).
Proof.
  split.
  - intros port logfile Hlog. eapply NoLogFacts.logs_nothing_of_post.
    apply (hoare_run _ _ _ _ _
             (NoLogFacts.raspberrypi_silent env fuel port logfile Hlog)
             NoLogFacts.NL0_init).
  - intros script port rest Hport Hrest.
    rewrite (NoLogFacts.main_without_flag env fuel script port rest Hport
               Hrest).
    eapply NoLogFacts.logs_nothing_of_post.
    apply (hoare_run _ _ _ _ _
             (NoLogFacts.raspberrypi_silent env fuel port LogNone eq_refl)
             NoLogFacts.NL0_init).
Qed.

(** [serial_debug_test.py /dev/ttyUSB0 elevator.log] on the raspberrypi:
    reads are made, no log is kept. *)
Lemma raspberrypi_logs_only_on_request_witness :
  In (EvRead 16 (inl [])) (history (snd NoLog.named_without_flag)) /\
  logs_nothing (snd NoLog.named_without_flag).
Proof.
  unfold NoLog.named_without_flag.
  split; [vm_compute; repeat first [left; reflexivity | right] |].
  apply (proj2 (raspberrypi_logs_only_on_request Sample.cancelled 3)
           "serial_debug_test.py" "/dev/ttyUSB0" ["elevator.log"]).
  - repeat split; reflexivity.
  - simpl. discriminate.
Defined.

(* ================================================================= *)
(** * What the monitor opens: proofs *)

Module ToldFacts.
Import Told.

Ltac ut := unfold Start, W, PB, P, NT in *.
Ltac st6 :=
  intros; clear_stable; ut; wsimpl;
  cbn [forallb open_is is_banner is_ser_open is_termios is_vmin_banner
       count andb orb snd fst Nat.add] in *;
  open_hyps; subst; rewrite ?String.eqb_refl in *;
  repeat match goal with
         | H : existsb _ (trace _) = true |- _ => rewrite H in *
         | H : forallb _ (trace _) = true |- _ => rewrite H in *
         | H : count _ (trace _) = _ |- _ => rewrite H in *
         end;
  rewrite ?orb_true_r, ?andb_true_r in *;
  cbn [andb orb Nat.add] in *; close.

Section Proofs.
Variable env : Env.
Variable port path : string.

Lemma W_handler (msg : string) :
  hoare (W port path)
    (print env ErrorReport ("❌ エラー: " ++ msg) ;; traceback_print_exc env)
    (fun _ => W port path) (fun _ => W port path).
Proof. hall st6. Qed.

Lemma W_close_serial :
  hoare (W port path)
    (s <- get ser ;;
     match s with
     | Some true => ser_close env
     | _ => ret tt
     end)
    (fun _ => W port path) (fun _ => W port path).
Proof. hall st6. Qed.

Lemma W_cleanup :
  hoare (W port path)
    (f <- get log_file ;;
     (if is_file f then log_close env else ret tt) ;;
     s <- get ser ;;
     match s with
     | Some true => ser_close env
     | _ => ret tt
     end)
    (fun _ => W port path) (fun _ => W port path).
Proof. hall st6. Qed.

End Proofs.

Section Backend.
Variable env : Env.

Lemma backend_told (fuel : nat) (port logfile : option string) :
  hoare
    (Start (port_of env port)
       (log_path_of env match logfile with
                        | Some name => name
                        | None => default_log_name env
                        end))
    (Backend.monitor_serial env fuel port logfile)
    (fun _ => W (port_of env port)
                (log_path_of env match logfile with
                                 | Some name => name
                                 | None => default_log_name env
                                 end))
    (fun _ => W (port_of env port)
                (log_path_of env match logfile with
                                 | Some name => name
                                 | None => default_log_name env
                                 end)).
Proof.
  set (name := match logfile with Some n => n | None => _ end).
  set (path := log_path_of env name). set (dev := port_of env port).
  unfold Backend.monitor_serial.
  eapply hoare_bind with (R := fun n w => P dev path 0 0 w /\ n = name).
  { destruct logfile as [n |].
    - apply hoare_ret. st6.
    - eapply hoare_bind with
        (R := fun ts w => P dev path 0 0 w /\ ts = r_str (oracle env 0)).
      + hcall ltac:(intros; arrived; st6).
      + intros ts. apply hoare_ret. subst name. unfold default_log_name.
        st6. }
  intros n. apply hoare_assume. intros ->. fold path. fold dev.
  eapply hoare_try_finally with
    (N1 := fun _ => W dev path) (X1 := fun _ => W dev path);
    [| intros _; apply W_close_serial | intros _; apply W_close_serial
     | auto | auto].
  eapply hoare_try_except with (X1 := fun _ => W dev path);
    [| intros msg; apply W_handler | auto | auto | auto].
  hnext (P dev path 1 0) ltac:(intros; arrived; st6).
  do 4 (eapply hoare_bind with (R := fun _ => P dev path 1 0);
        [hall st6 | intro]).
  hnext (PB dev path 0) ltac:(intros; arrived; unfold log_banner; st6).
  do 5 (eapply hoare_bind with (R := fun _ => PB dev path 0);
        [hall st6 | intro]).
  eapply hoare_bind with (R := fun _ => PB dev path 1);
    [| intro; hall st6].
  unfold with_open.
  hnext (PB dev path 1) ltac:(intros; arrived; st6).
  eapply hoare_try_finally with
    (N1 := fun _ => PB dev path 1) (X1 := fun _ => W dev path);
    [| intros _; hall st6 | intros _; hall st6 | auto | auto].
  unfold Backend.loop_body. hall st6.
Qed.

Lemma backend_plain (fuel : nat) (port logfile : option string) :
  HAS_TERMIOS env && negb (win env) = false ->
  hoare NT (Backend.monitor_serial env fuel port logfile)
    (fun _ => NT) (fun _ => NT).
Proof.
  intros Hplain. unfold Backend.monitor_serial. rewrite Hplain.
  eapply hoare_bind with (R := fun _ => NT); [hall st6 | intros name].
  eapply hoare_try_finally with (N1 := fun _ => NT) (X1 := fun _ => NT);
    [| intros _; hall st6 | intros _; hall st6 | auto | auto].
  eapply hoare_try_except with (X1 := fun _ => NT);
    [| intros msg; hall st6 | auto | auto | auto].
  eapply hoare_bind with (R := fun _ => NT); [hall st6 | intro].
  eapply hoare_bind with
    (R := fun info w => NT w /\ info = "ブロッキングモード"%string).
  { apply hoare_ret. st6. }
  intros info. apply hoare_assume. intros ->.
  do 9 (eapply hoare_bind with (R := fun _ => NT); [hall st6 | intro]).
  eapply hoare_bind with (R := fun _ => NT); [| intro; hall st6].
  unfold with_open.
  eapply hoare_bind with (R := fun _ => NT); [hall st6 | intro].
  eapply hoare_try_finally with (N1 := fun _ => NT) (X1 := fun _ => NT);
    [| intros _; hall st6 | intros _; hall st6 | auto | auto].
  unfold Backend.loop_body. hall st6.
Qed.

End Backend.
Section RaspberryPi.
Variable env : Env.

Lemma raspberrypi_told (fuel : nat) (port : string) (logfile : logarg) :
  truthy logfile = true ->
  hoare
    (Start port
       (log_path_of env match logfile with
                        | LogName name => name
                        | _ => default_log_name env
                        end))
    (RaspberryPi.monitor_serial env fuel port logfile)
    (fun _ => W port
                (log_path_of env match logfile with
                                 | LogName name => name
                                 | _ => default_log_name env
                                 end))
    (fun _ => W port
                (log_path_of env match logfile with
                                 | LogName name => name
                                 | _ => default_log_name env
                                 end)).
Proof.
  intros Hlog.
  set (name := match logfile with LogName n => n | _ => _ end).
  set (path := log_path_of env name).
  assert (Hname : truthy (LogName name) = true).
  { subst name. destruct logfile; try discriminate; [reflexivity | exact Hlog]. }
  unfold RaspberryPi.monitor_serial. rewrite Hlog.
  eapply hoare_bind with (R := fun _ => Start port path);
    [apply hoare_modify; st6 |].
  intros _.
  eapply hoare_bind with
    (R := fun l w => P port path 0 0 w /\ l = LogName name).
  { destruct logfile as [| | n]; try discriminate.
    - eapply hoare_bind with
        (R := fun ts w => P port path 0 0 w /\ ts = r_str (oracle env 0)).
      + hcall ltac:(intros; arrived; st6).
      + intros ts. apply hoare_ret. subst name. unfold default_log_name.
        st6.
    - apply hoare_ret. subst name. st6. }
  intros l. apply hoare_assume. intros ->. rewrite Hname. fold path.
  cbv iota.
  eapply hoare_try_finally with
    (N1 := fun _ => W port path) (X1 := fun _ => W port path);
    [| intros _; apply W_cleanup | intros _; apply W_cleanup | auto | auto].
  eapply hoare_try_except with (X1 := fun _ => W port path);
    [| intros msg; apply W_handler | auto | auto | auto].
  hnext (P port path 1 0) ltac:(intros; arrived; st6).
  do 6 (eapply hoare_bind with (R := fun _ => P port path 1 0);
        [hall st6 | intro]).
  hnext (PB port path 0) ltac:(intros; arrived; unfold log_banner; st6).
  do 5 (eapply hoare_bind with (R := fun _ => PB port path 0);
        [hall st6 | intro]).
  eapply hoare_bind with (R := fun _ => PB port path 1).
  { hnext (PB port path 1) ltac:(intros; arrived; st6). hall st6. }
  intros _. unfold RaspberryPi.loop_body. hall st6.
Qed.

End RaspberryPi.

Lemma Start_told (port path : string) : Start port path init_world.
Proof. ut. simpl. repeat split. Qed.

Lemma NT_init : NT init_world.
Proof. ut. simpl. repeat split. Qed.

Lemma count_history (p : event -> bool) (w : World) :
  occurrences p (history w) = count p (trace w).
Proof.
  unfold occurrences, history. induction (trace w) as [| x tr IH];
    [reflexivity |].
  simpl. rewrite map_app, filter_app, length_app, IH. simpl.
  destruct (p (snd x)); simpl; lia.
Qed.

Lemma told_of_post {A} (port path : string) (o : outcome A) (w : World) :
  post (fun _ => W port path) (fun _ => W port path) o w ->
  opens_as_told port path w.
Proof.
  intros H. assert (Hw : W port path w) by (destruct o; exact H).
  destruct Hw as (Hall & Hs & Hl & Hb).
  assert (Hin : forall e, In e (history w) -> open_is port path e = true).
  { intros e He. apply In_history in He. destruct He as (t & He).
    rewrite forallb_forall in Hall. apply (Hall _ He). }
  unfold opens_as_told. rewrite !count_history.
  split; [| split; [exact Hs | split; [| exact Hl]]].
  - intros p r Hp. specialize (Hin _ Hp). simpl in Hin.
    now apply String.eqb_eq in Hin.
  - intros pre p r post0 Hh. split.
    + assert (Hp : In (EvLogOpen p r) (history w))
        by (rewrite Hh; apply in_elt).
      specialize (Hin _ Hp). simpl in Hin. now apply String.eqb_eq in Hin.
    + apply history_split in Hh.
      destruct Hh as (newer & t & older & Htr & -> & ->).
      pose proof (preceded_split _ _ _ _ _ _ Hb Htr eq_refl) as Hq.
      apply has_map_snd_rev in Hq. destruct Hq as (e & He & Hq).
      destruct e as [| | | | | | [] text | | | | | | | | |];
        try discriminate.
      simpl in Hq. apply String.eqb_eq in Hq. now subst text.
Qed.

Lemma terminal_of_post {A} (o : outcome A) (w : World) :
  post (fun _ => NT) (fun _ => NT) o w -> leaves_terminal_alone w.
Proof.
  intros H. assert (Hw : NT w) by (destruct o; exact H).
  destruct Hw as [Ht Hv]. rewrite hasnt_history in Ht, Hv.
  intros e He. split; [apply Ht | apply Hv]; exact He.
Qed.

End ToldFacts.

(** Either monitor calls [serial.Serial] at most once, for the port it
    was given (the backend's default port when none is given), and
    [open] at most once, for the path that joins the script directory
    and the log name (when none is given, [serial_debug_], the time stamp
    asked for first, and [.log]); that path was announced on the console
    before. *)
Theorem monitor_opens_as_told (env : Env) (fuel : nat) :
  (forall port logfile,
     opens_as_told (port_of env port)
       (log_path_of env match logfile with
                        | Some name => name
                        | None => default_log_name env
                        end)
       (snd (Backend.monitor_serial env fuel port logfile init_world))) /\
  (forall port logfile,
     truthy logfile = true ->
     opens_as_told port
       (log_path_of env match logfile with
                        | LogName name => name
                        | _ => default_log_name env
                        end)
       (snd (RaspberryPi.monitor_serial env fuel port logfile init_world))).
Proof.
  split.
  - intros port logfile. eapply ToldFacts.told_of_post.
    apply (hoare_run _ _ _ _ _
             (ToldFacts.backend_told env fuel port logfile)
             (ToldFacts.Start_told _ _)).
  - intros port logfile Hlog. eapply ToldFacts.told_of_post.
    apply (hoare_run _ _ _ _ _
             (ToldFacts.raspberrypi_told env fuel port logfile Hlog)
             (ToldFacts.Start_told _ _)).
Qed.

(** [--log] without a name: the log opened is named after the time
    stamp. *)
Lemma monitor_opens_as_told_witness :
  In (EvLogOpen "serial_debug_2025-11-04 12:00:00.log" None)
     (history (snd Told.default_named)) /\
  opens_as_told "/dev/ttyUSB0" "serial_debug_2025-11-04 12:00:00.log"
    (snd Told.default_named).
Proof.
  unfold Told.default_named.
  split; [vm_compute; repeat first [left; reflexivity | right] |].
  exact (proj2 (monitor_opens_as_told Sample.cancelled 3)
           "/dev/ttyUSB0" LogTrue eq_refl).
Defined.

(** On Windows, or where [termios] cannot be imported, the backend
    monitor makes no call on the terminal settings and prints no line
    about VMIN and VTIME. *)
Theorem backend_without_termios (env : Env) (fuel : nat)
  (port logfile : option string) :
  HAS_TERMIOS env && negb (win env) = false ->
  leaves_terminal_alone
    (snd (Backend.monitor_serial env fuel port logfile init_world)).
Proof.
  intros Hplain. eapply ToldFacts.terminal_of_post.
  apply (hoare_run _ _ _ _ _
           (ToldFacts.backend_plain env fuel port logfile Hplain)
           ToldFacts.NT_init).
Qed.

Lemma backend_without_termios_witness :
  In (EvPrint Banner "    ブロッキングモード") (history (snd Told.plain_run)) /\
  leaves_terminal_alone (snd Told.plain_run).
Proof.
  unfold Told.plain_run.
  split; [vm_compute; repeat first [left; reflexivity | right] |].
  apply (backend_without_termios Told.plain_host 3 None None). reflexivity.
Defined.

(* ================================================================= *)
(** * The flag is never set again: proofs *)

Module FlagFacts.
Import Flag.

Ltac sf :=
  intros; clear_stable; unfold XA, XB, XT, Asked, reads_nothing in *; wsimpl;
  open_hyps; subst;
  repeat match goal with
         | H : trace ?w = _ |- _ => rewrite H in *; clear H
         end;
  rewrite ?app_comm_cons;
  first
    [ congruence
    | split; [congruence |];
      eexists; split; [reflexivity |]; wsimpl; cbn [is_open_of orb] in *;
      rewrite ?String.eqb_refl; cbn [orb];
      first [ congruence | split; first [congruence | reflexivity] ] ].

(** As [hall], for an invariant under which the loop body is not run. *)
Ltac hrf :=
  lazymatch goal with
  | |- hoare _ (ret _) _ _ => apply hoare_ret; sf
  | |- hoare _ (get _) _ _ => apply hoare_get; sf
  | |- hoare _ (modify _) _ _ => apply hoare_modify; sf
  | |- hoare ?Inv (bind _ _) _ _ =>
      eapply hoare_bind with (R := fun _ => Inv); [hrf | intro; hrf]
  | |- hoare _ (if ?c then _ else _) _ _ => destruct c; hrf
  | |- hoare _ (match ?c with _ => _ end) _ _ => destruct c; hrf
  | |- hoare ?Inv (while_running _ _) _ ?Xp =>
      eapply hoare_conseq;
      [ apply hoare_while with (I := Inv) (X := Xp);
        [ intros ?w [[? _] ?]; congruence
        | intros ?w [? _] ?; congruence ]
      | auto | intros ? ? [? _]; sf | auto ]
  | |- _ => hcall ltac:(intros; try arrived; sf)
  end.

Section Proofs.
Variable env : Env.
Variable w0 : World.

Lemma backend_idle (fuel : nat) (port logfile : option string) :
  hoare (reads_nothing w0) (Backend.monitor_serial env fuel port logfile)
    (fun _ => Asked (port_of env port) w0) (XT w0).
Proof.
  unfold Backend.monitor_serial. fold (port_of env port).
  set (dev := port_of env port).
  eapply hoare_bind with (R := fun _ => reads_nothing w0); [hrf | intro].
  eapply hoare_try_finally with
    (N1 := fun _ => Asked dev w0) (X1 := XT w0);
    [| intros _; hrf | intros e; destruct e; hrf | sf | sf].
  eapply hoare_try_except with (X1 := XB dev w0);
    [| intros msg; hrf | sf | sf | sf].
  hnext (Asked dev w0) ltac:(intros; arrived; sf).
  do 10 (eapply hoare_bind with (R := fun _ => Asked dev w0);
         [hrf | intro]).
  eapply hoare_bind with (R := fun _ => Asked dev w0);
    [| intro; hrf].
  unfold with_open.
  eapply hoare_bind with (R := fun _ => Asked dev w0); [hrf | intro].
  eapply hoare_try_finally with
    (N1 := fun _ => Asked dev w0) (X1 := XA dev w0);
    [| intros _; hrf | intros e; destruct e; hrf | sf | sf].
  hrf.
Qed.

Lemma raspberrypi_idle (fuel : nat) (port : string) (logfile : logarg) :
  hoare (reads_nothing w0) (RaspberryPi.monitor_serial env fuel port logfile)
    (fun _ => Asked port w0) (XT w0).
Proof.
  unfold RaspberryPi.monitor_serial.
  do 2 (eapply hoare_bind with (R := fun _ => reads_nothing w0);
        [hrf | intro]).
  eapply hoare_try_finally with
    (N1 := fun _ => Asked port w0) (X1 := XT w0);
    [| intros _; hrf | intros e; destruct e; hrf | sf | sf].
  eapply hoare_try_except with (X1 := XB port w0);
    [| intros msg; hrf | sf | sf | sf].
  hnext (Asked port w0) ltac:(intros; arrived; sf).
  hrf.
Qed.

Lemma reads_nothing_start : running w0 = false -> reads_nothing w0 w0.
Proof. intros H. split; [exact H |]. exists []. auto. Qed.

End Proofs.

Lemma idle_call_of_post (port : string) (w0 : World) (o : outcome unit)
  (w : World) :
  post (fun _ => Asked port w0) (XT w0) o w -> idle_call port w0 o w.
Proof.
  intros H.
  destruct o as [[] | e | s |]; simpl in H; [| | | destruct H].
  - destruct H as (Hr & new & Ht & Hn & Ho).
    split; [exact Hr |]. split; [discriminate |].
    exists new. split; [exact Ht |]. split; [exact Hn |]. intros _.
    apply has_map_snd_rev in Ho. destruct Ho as (ev & Hin & He).
    destruct ev as [| p r | | | | | | | | | | | | | |]; try discriminate.
    simpl in He. apply String.eqb_eq in He. subst p. eauto.
  - destruct H as (Hr & new & Ht & Hn).
    split; [exact Hr |]. split; [discriminate |].
    exists new. split; [exact Ht |]. split; [exact Hn |]. discriminate.
  - destruct H as (Hr & new & Ht & Hn).
    split; [exact Hr |]. split; [discriminate |].
    exists new. split; [exact Ht |]. split; [exact Hn |]. discriminate.
Qed.

End FlagFacts.

(** Neither monitor sets [running] again.  Called while the flag is
    cleared (after an earlier cancellation in the same process) it ends
    without entering the loop: it makes no read, leaves the flag cleared
    and is never left waiting; a call that returns has asked for the port
    it was given. *)
Theorem flag_is_never_set_again (env : Env) (fuel : nat) (w0 : World) :
  running w0 = false ->
  (forall port logfile,
     idle_call (port_of env port) w0
       (fst (Backend.monitor_serial env fuel port logfile w0))
       (snd (Backend.monitor_serial env fuel port logfile w0))) /\
  (forall port logfile,
     idle_call port w0
       (fst (RaspberryPi.monitor_serial env fuel port logfile w0))
       (snd (RaspberryPi.monitor_serial env fuel port logfile w0))).
Proof.
  intros Hstop. split; intros port logfile;
    apply FlagFacts.idle_call_of_post.
  - apply (hoare_run _ _ _ _ _
             (FlagFacts.backend_idle env w0 fuel port logfile)
             (FlagFacts.reads_nothing_start w0 Hstop)).
  - apply (hoare_run _ _ _ _ _
             (FlagFacts.raspberrypi_idle env w0 fuel port logfile)
             (FlagFacts.reads_nothing_start w0 Hstop)).
Qed.

(** A second call after a cancellation: the port and the log are opened,
    nothing is read, the call returns. *)
Lemma flag_is_never_set_again_witness :
  running Flag.stopped_world = false /\
  fst Flag.second_call = Ok tt /\
  In (EvLogOpen "serial.log" None) (history (snd Flag.second_call)) /\
  idle_call "/dev/ttyUSB0" Flag.stopped_world
    (fst Flag.second_call) (snd Flag.second_call).
Proof.
  assert (Hstop : running Flag.stopped_world = false) by reflexivity.
  split; [exact Hstop |]. unfold Flag.second_call.
  split; [vm_compute; reflexivity |].
  split; [vm_compute; repeat first [left; reflexivity | right] |].
  exact (proj1 (flag_is_never_set_again Sample.cancelled 3
                  Flag.stopped_world Hstop)
           (Some "/dev/ttyUSB0") (Some "serial.log")).
Defined.

(* ================================================================= *)
(** * The record of a frame: proofs *)

Module FrameFacts.
Import Frame.

Ltac uf := unfold Turn, Done, Clocked, Silent, St, picks in *.
Ltac push_rlogs :=
  repeat first
    [ rewrite rlogs_push_log by reflexivity
    | rewrite rlogs_push_other by reflexivity ].
Ltac tidy :=
  wsimpl;
  cbn [flat_map read_block frame_console app snd fst] in *;
  push_rlogs;
  repeat match goal with
         | H : flat_map _ _ = _ |- _ => rewrite H
         | H : rlogs _ = _ |- _ => rewrite H
         | H : existsb _ _ = _ |- _ => rewrite H
         end;
  cbn [app rev firstn console_record log_record] in *.
Ltac fin8 :=
  lazymatch goal with
  | |- _ /\ _ => split; [fin8 | tidy; fin8]
  | |- exists _, _ => first [congruence | eexists; fin8]
  | |- _ => first [congruence | reflexivity | eassumption | exact I]
  end.
Ltac s8 :=
  intros; clear_stable; uf; wsimpl; open_hyps; subst;
  repeat match goal with
         | H : trace ?w = _ |- _ => rewrite H in *; clear H
         end;
  tidy; rewrite ?app_comm_cons; fin8.

Section Proofs.
Variable env : Env.
Variable w0 : World.

Lemma St_start : St w0 [] [] [] w0.
Proof. exists []. repeat split. Qed.

Lemma silent_rest (m : M unit) :
  hoare (Silent w0) m (fun _ => Silent w0) (fun _ _ => True) ->
  forall logging,
    hoare (fun w => St w0 [[]] [] [] w /\ List.length (@nil byte) <= 16) m
      (fun _ => Turn logging w0) (fun _ _ => True).
Proof.
  intros H logging. eapply hoare_conseq; [exact H | | | auto].
  - intros w [(new & Ht & Hr & _) _]. exists new. auto.
  - intros a w Hw. left. exact Hw.
Qed.

Lemma backend_frame :
  hoare (St w0 [] [] []) (Backend.loop_body env)
    (fun _ => Turn true w0) (fun _ _ => True).
Proof.
  unfold Backend.loop_body.
  eapply hoare_bind with
    (R := fun data w => St w0 [data] [] [] w /\ List.length data <= 16).
  { hcall ltac:(intros; arrived; cbv beta;
                first [split; [s8 | apply firstn_le_length] | s8]). }
  intros [| b rest]; cbn [nonempty].
  { apply silent_rest. hall s8. }
  set (data := b :: rest). apply hoare_assume. intros Hlen.
  eapply hoare_bind with (R := fun _ => St w0 [data] [] []);
    [hcall ltac:(intros; arrived; s8) | intros ts].
  eapply hoare_bind with (R := fun _ => St w0 [data] [] []);
    [hcall ltac:(intros; arrived; s8) | intros now_s].
  hnext (St w0 [data] (firstn 1 (console_record ts data)) [])
    ltac:(intros; arrived; s8).
  hnext (St w0 [data] (rev (firstn 2 (console_record ts data))) [])
    ltac:(intros; arrived; s8).
  hnext (St w0 [data] (rev (console_record ts data)) [])
    ltac:(intros; arrived; s8).
  hnext (St w0 [data] (rev (console_record ts data))
           (rev (firstn 1 (log_record now_s data))))
    ltac:(intros; arrived; s8).
  hnext (St w0 [data] (rev (console_record ts data))
           (rev (firstn 2 (log_record now_s data))))
    ltac:(intros; arrived; s8).
  hnext (St w0 [data] (rev (console_record ts data))
           (rev (firstn 3 (log_record now_s data))))
    ltac:(intros; arrived; s8).
  hnext (St w0 [data] (rev (console_record ts data))
           (rev (log_record now_s data)))
    ltac:(intros; arrived; s8).
  eapply hoare_bind with
    (R := Clocked w0 [data] (rev (console_record ts data))
            (rev (log_record now_s data)));
    [hcall ltac:(intros; arrived; s8) | intros c].
  apply hoare_modify. intros w Hw. right. exists data, ts, now_s.
  split; [discriminate | split; [exact Hlen |]]. revert Hw. s8.
Qed.

Lemma raspberrypi_frame :
  hoare (St w0 [] [] []) (RaspberryPi.loop_body env)
    (fun _ => Turn (is_file (log_file w0)) w0) (fun _ _ => True).
Proof.
  unfold RaspberryPi.loop_body.
  eapply hoare_bind with
    (R := fun data w => St w0 [data] [] [] w /\ List.length data <= 16).
  { hcall ltac:(intros; arrived; cbv beta;
                first [split; [s8 | apply firstn_le_length] | s8]). }
  intros [| b rest]; cbn [nonempty].
  { apply silent_rest. hall s8. }
  set (data := b :: rest). apply hoare_assume. intros Hlen.
  eapply hoare_bind with (R := fun _ => St w0 [data] [] []);
    [hcall ltac:(intros; arrived; s8) | intros ts].
  eapply hoare_bind with (R := fun _ => St w0 [data] [] []);
    [hcall ltac:(intros; arrived; s8) | intros now_s].
  hnext (St w0 [data] (firstn 1 (console_record ts data)) [])
    ltac:(intros; arrived; s8).
  hnext (St w0 [data] (rev (firstn 2 (console_record ts data))) [])
    ltac:(intros; arrived; s8).
  hnext (St w0 [data] (rev (console_record ts data)) [])
    ltac:(intros; arrived; s8).
  eapply hoare_bind with
    (R := fun f w => St w0 [data] (rev (console_record ts data)) [] w /\
                     f = log_file w0).
  { apply hoare_get. intros w Hw. split; [exact Hw |].
    destruct Hw as (new & _ & _ & _ & _ & _ & Hf). exact Hf. }
  intros f. apply hoare_assume. intros ->.
  destruct (log_file w0) as [open |] eqn:Hfile; cbn [is_file].
  - eapply hoare_bind with
      (R := fun _ => St w0 [data] (rev (console_record ts data))
                       (rev (log_record now_s data))).
    { hnext (St w0 [data] (rev (console_record ts data))
               (rev (firstn 1 (log_record now_s data))))
        ltac:(intros; arrived; s8).
      hnext (St w0 [data] (rev (console_record ts data))
               (rev (firstn 2 (log_record now_s data))))
        ltac:(intros; arrived; s8).
      hnext (St w0 [data] (rev (console_record ts data))
               (rev (firstn 3 (log_record now_s data))))
        ltac:(intros; arrived; s8).
      hcall ltac:(intros; arrived; s8). }
    intros _.
    eapply hoare_bind with
      (R := Clocked w0 [data] (rev (console_record ts data))
              (rev (log_record now_s data)));
      [hcall ltac:(intros; arrived; s8) | intros c].
    apply hoare_modify. intros w Hw. right. exists data, ts, now_s.
    split; [discriminate | split; [exact Hlen |]]. revert Hw. s8.
  - eapply hoare_bind with
      (R := fun _ => St w0 [data] (rev (console_record ts data)) []);
      [apply hoare_ret; auto | intros _].
    eapply hoare_bind with
      (R := Clocked w0 [data] (rev (console_record ts data)) []);
      [hcall ltac:(intros; arrived; s8) | intros c].
    apply hoare_modify. intros w Hw. right. exists data, ts, now_s.
    split; [discriminate | split; [exact Hlen |]]. revert Hw. s8.
Qed.

End Proofs.

Lemma picks_events {B} (f : event -> list B) (tr : list (Q * event)) :
  (forall e, rev (f e) = f e) ->
  flat_map f (events_of tr) = rev (picks f tr).
Proof.
  intros Hf. unfold events_of, picks.
  induction tr as [| x tr IH]; [reflexivity |]. simpl.
  rewrite map_app, flat_map_app, IH, rev_app_distr, Hf. simpl.
  now rewrite app_nil_r.
Qed.

Lemma read_block_rev (e : event) : rev (read_block e) = read_block e.
Proof. destruct e as [| | | | | | | | | | | | | | ? [|] |]; reflexivity. Qed.

Lemma frame_console_rev (e : event) :
  rev (frame_console e) = frame_console e.
Proof. destruct e as [| | | | | | [] | | | | | | | | |]; reflexivity. Qed.

Lemma frame_turn_of_post (logging : bool) (w0 : World) (o : outcome unit)
  (w : World) :
  post (fun _ => Turn logging w0) (fun _ _ => True) o w ->
  frame_turn logging w0 o w.
Proof.
  intros H ->. simpl in H.
  destruct H as [(new & Ht & Hr)
                | (data & ts & now_s & Hne & Hlen & c & older & Ht & Hr & Hc
                   & Hl & Hi & Hla)].
  - exists new, []. split; [exact Ht |].
    rewrite (picks_events read_block new read_block_rev), Hr.
    split; [reflexivity | split; [simpl; lia |]]. intros Hn. now destruct Hn.
  - exists ((c, EvClock) :: older), data. split; [exact Ht |].
    rewrite (picks_events read_block _ read_block_rev).
    rewrite (picks_events frame_console _ frame_console_rev).
    unfold events_of. rewrite rlogs_log_events.
    rewrite rlogs_push_other by reflexivity.
    unfold picks in *. simpl flat_map. rewrite Hr, Hc, Hl.
    split; [reflexivity | split; [exact Hlen |]]. intros _.
    split; [exists ts; apply rev_involutive |].
    split; [exists now_s; destruct logging;
            [apply rev_involutive | reflexivity] |].
    split; [simpl; exact Hi |]. exists c, older. auto.
Qed.

End FrameFacts.

(** A turn of the loop that finishes makes one read, of at most 16 bytes.
    If the block is not empty the console gets the three lines of its
    record, with the hex and ASCII renderings of exactly that block; the
    log gets the same three lines, stamped to the millisecond, and a
    flush (in the backend always, in the raspberrypi script when a log
    file is open, and else nothing); no idle notice is produced, and the
    turn ends on a clock reading that becomes the last activity. *)
Theorem frame_is_recorded (env : Env) (w0 : World) :
  frame_turn true w0 (fst (Backend.loop_body env w0))
    (snd (Backend.loop_body env w0)) /\
  frame_turn (is_file (log_file w0)) w0
    (fst (RaspberryPi.loop_body env w0))
    (snd (RaspberryPi.loop_body env w0)).
Proof.
  split; apply FrameFacts.frame_turn_of_post.
  - apply (hoare_run _ _ _ _ _ (FrameFacts.backend_frame env w0)
             (FrameFacts.St_start w0)).
  - apply (hoare_run _ _ _ _ _ (FrameFacts.raspberrypi_frame env w0)
             (FrameFacts.St_start w0)).
Qed.

(** One ENQ byte read by the backend loop. *)
Lemma frame_is_recorded_witness :
  fst (Backend.loop_body Frame.answering init_world) = Ok tt /\
  In (EvRead 16 (inl [x05]))
     (history (snd (Backend.loop_body Frame.answering init_world))) /\
  frame_turn true init_world
    (fst (Backend.loop_body Frame.answering init_world))
    (snd (Backend.loop_body Frame.answering init_world)).
Proof.
  split; [vm_compute; reflexivity |].
  split; [vm_compute; repeat first [left; reflexivity | right] |].
  exact (proj1 (frame_is_recorded Frame.answering init_world)).
Defined.

(* ================================================================= *)
(** * The idle notice on console and log: proofs *)

Module IdleFacts.
Import Frame Idle.

Ltac ui := unfold Turn, Clocked, noticed, Still, Framed, Sofar, Begun, picks in *.
Ltac push_rlogs :=
  repeat first
    [ rewrite rlogs_push_log by reflexivity
    | rewrite rlogs_push_other by reflexivity ].
Ltac tidy :=
  wsimpl;
  cbn [flat_map read_block frame_console idle_console app snd fst] in *;
  push_rlogs;
  repeat match goal with
         | H : flat_map _ _ = _ |- _ => rewrite H
         | H : rlogs _ = _ |- _ => rewrite H
         end;
  cbn [app] in *.
Ltac fin9 :=
  lazymatch goal with
  | |- _ /\ _ => split; [fin9 | tidy; fin9]
  | |- exists _, _ => first [congruence | eexists; fin9]
  | |- _ => first [congruence | reflexivity | eassumption | exact I]
  end.
Ltac s9 :=
  intros; clear_stable; ui; wsimpl; open_hyps; subst;
  repeat match goal with
         | H : trace ?w = _ |- _ => rewrite H in *; clear H
         end;
  tidy; rewrite ?app_comm_cons; fin9.

Section Proofs.
Variable env : Env.
Variable w0 : World.

Lemma Begun_start : Begun w0 w0.
Proof. exists []. repeat split. Qed.

Lemma backend_idle_turn :
  hoare (Begun w0) (Backend.loop_body env)
    (fun _ => Turn true w0) (fun _ _ => True).
Proof.
  unfold Backend.loop_body.
  eapply hoare_bind with
    (R := fun data w =>
            match data with
            | [] => Still w0 w
            | _ :: _ => Framed w0 w
            end).
  { hcall ltac:(intros; arrived; cbv beta;
                try match goal with
                    | |- context [firstn ?n ?d] => destruct (firstn n d)
                    end; s9). }
  intros [| b rest]; cbn [nonempty].
  - eapply hoare_bind with (R := fun _ => Still w0);
      [hcall ltac:(intros; arrived; s9) | intros now].
    eapply hoare_bind with (R := fun _ => Still w0);
      [apply hoare_get; auto | intros la].
    destruct (Qlt_le_dec 10 (now - la)).
    + eapply hoare_bind with (R := fun _ => Still w0);
        [hcall ltac:(intros; arrived; s9) | intros ts].
      hnext (Sofar w0 [(wait_msg ts ++ nl)%string] [])
        ltac:(intros; arrived; unfold wait_msg; s9).
      hnext (Sofar w0 [(wait_msg ts ++ nl)%string]
               [EvLogWrite IdleNotice (wait_msg ts ++ nl) None])
        ltac:(intros; arrived; unfold wait_msg; s9).
      hnext (Sofar w0 [(wait_msg ts ++ nl)%string] (noticed true ts))
        ltac:(intros; arrived; s9).
      eapply hoare_bind with (R := Clocked true w0 ts);
        [hcall ltac:(intros; arrived; s9) | intros c].
      apply hoare_modify. intros w Hw. right. right. exists ts, c.
      split; [| reflexivity]. revert Hw. s9.
    + apply hoare_ret. intros w Hw. right. left. exact Hw.
  - eapply hoare_conseq with
      (P' := Framed w0) (N' := fun _ => Framed w0) (X' := fun _ _ => True);
      [hall s9 | auto | intros a w Hw; left; exact Hw | auto].
Qed.

Lemma raspberrypi_idle_turn :
  hoare (Begun w0) (RaspberryPi.loop_body env)
    (fun _ => Turn (is_file (log_file w0)) w0) (fun _ _ => True).
Proof.
  unfold RaspberryPi.loop_body.
  eapply hoare_bind with
    (R := fun data w =>
            match data with
            | [] => Still w0 w
            | _ :: _ => Framed w0 w
            end).
  { hcall ltac:(intros; arrived; cbv beta;
                try match goal with
                    | |- context [firstn ?n ?d] => destruct (firstn n d)
                    end; s9). }
  intros [| b rest]; cbn [nonempty].
  - eapply hoare_bind with (R := fun _ => Still w0);
      [hcall ltac:(intros; arrived; s9) | intros now].
    eapply hoare_bind with (R := fun _ => Still w0);
      [apply hoare_get; auto | intros la].
    destruct (Qlt_le_dec 10 (now - la)).
    + eapply hoare_bind with (R := fun _ => Still w0);
        [hcall ltac:(intros; arrived; s9) | intros ts].
      hnext (Sofar w0 [(wait_msg ts ++ nl)%string] [])
        ltac:(intros; arrived; unfold wait_msg; s9).
      eapply hoare_bind with
        (R := fun f w => Sofar w0 [(wait_msg ts ++ nl)%string] [] w /\
                         f = log_file w0).
      { apply hoare_get. intros w Hw. split; [exact Hw |].
        destruct Hw as (new & _ & _ & _ & _ & _ & Hf). exact Hf. }
      intros f. apply hoare_assume. intros ->.
      destruct (log_file w0) as [open |] eqn:Hfile; cbn [is_file].
      * eapply hoare_bind with
          (R := fun _ => Sofar w0 [(wait_msg ts ++ nl)%string] (noticed true ts)).
        { hnext (Sofar w0 [(wait_msg ts ++ nl)%string]
                   [EvLogWrite IdleNotice (wait_msg ts ++ nl) None])
            ltac:(intros; arrived; unfold wait_msg; s9).
          hcall ltac:(intros; arrived; s9). }
        intros _.
        eapply hoare_bind with (R := Clocked true w0 ts);
          [hcall ltac:(intros; arrived; s9) | intros c].
        apply hoare_modify. intros w Hw. right. right. exists ts, c.
        split; [| reflexivity]. revert Hw. s9.
      * eapply hoare_bind with
          (R := fun _ => Sofar w0 [(wait_msg ts ++ nl)%string] (noticed false ts));
          [apply hoare_ret; auto | intros _].
        eapply hoare_bind with (R := Clocked false w0 ts);
          [hcall ltac:(intros; arrived; s9) | intros c].
        apply hoare_modify. intros w Hw. right. right. exists ts, c.
        split; [| reflexivity]. revert Hw. s9.
    + apply hoare_ret. intros w Hw. right. left. exact Hw.
  - eapply hoare_conseq with
      (P' := Framed w0) (N' := fun _ => Framed w0) (X' := fun _ _ => True);
      [hall s9 | auto | intros a w Hw; left; exact Hw | auto].
Qed.

End Proofs.

Lemma idle_console_rev (e : event) : rev (idle_console e) = idle_console e.
Proof. destruct e as [| | | | | | [] | | | | | | | | |]; reflexivity. Qed.

Lemma idle_turn_of_post (logging : bool) (w0 : World) (o : outcome unit)
  (w : World) :
  post (fun _ => Turn logging w0) (fun _ _ => True) o w ->
  idle_turn logging w0 o w.
Proof.
  intros H ->. simpl in H.
  destruct H as [(new & b & rest & Ht & Hr)
                | [((new & Ht & Hr & Hc & Hi & Hl & Hf) & Hla)
                  | (ts & c & (older & Ht & Hr & Hc & Hi & Hl) & Hla)]].
  - exists new. split; [exact Ht |].
    rewrite (FrameFacts.picks_events read_block new FrameFacts.read_block_rev).
    rewrite Hr. discriminate.
  - exists new. split; [exact Ht |]. intros _.
    rewrite (FrameFacts.picks_events frame_console _
               FrameFacts.frame_console_rev).
    rewrite (FrameFacts.picks_events idle_console _ idle_console_rev).
    unfold events_of. rewrite rlogs_log_events.
    rewrite Hc, Hi, Hl. split; [reflexivity |]. left. auto.
  - exists ((c, EvClock) :: older). split; [exact Ht |]. intros _.
    rewrite (FrameFacts.picks_events frame_console _
               FrameFacts.frame_console_rev).
    rewrite (FrameFacts.picks_events idle_console _ idle_console_rev).
    unfold events_of. rewrite rlogs_log_events.
    rewrite rlogs_push_other by reflexivity.
    unfold picks in *. simpl flat_map. rewrite Hc, Hi, Hl.
    split; [reflexivity |]. right. exists ts.
    split; [reflexivity |].
    split; [destruct logging; reflexivity |]. exists c, older. auto.
Qed.

End IdleFacts.

(** A turn of the loop that finishes after a read that returned nothing
    prints no frame record.  Either it prints and logs nothing and leaves
    the last activity as it was, or it prints one idle notice, writes
    that very line to the log and flushes it (in the backend always, in
    the raspberrypi script when a log file is open, and else nothing),
    and ends on a clock reading that becomes the last activity. *)
Theorem idle_notice_is_logged (env : Env) (w0 : World) :
  idle_turn true w0 (fst (Backend.loop_body env w0))
    (snd (Backend.loop_body env w0)) /\
  idle_turn (is_file (log_file w0)) w0
    (fst (RaspberryPi.loop_body env w0))
    (snd (RaspberryPi.loop_body env w0)).
Proof.
  split; apply IdleFacts.idle_turn_of_post.
  - apply (hoare_run _ _ _ _ _ (IdleFacts.backend_idle_turn env w0)
             (IdleFacts.Begun_start w0)).
  - apply (hoare_run _ _ _ _ _ (IdleFacts.raspberrypi_idle_turn env w0)
             (IdleFacts.Begun_start w0)).
Qed.

(** A silent device, long after the last activity: the backend loop
    prints a notice. *)
Lemma idle_notice_is_logged_witness :
  fst (Backend.loop_body Sample.silent Idle.overdue) = Ok tt /\
  In (EvRead 16 (inl []))
     (history (snd (Backend.loop_body Sample.silent Idle.overdue))) /\
  In (EvPrint IdleNotice (wait_msg Sample.stamp ++ nl))
     (history (snd (Backend.loop_body Sample.silent Idle.overdue))) /\
  idle_turn true Idle.overdue
    (fst (Backend.loop_body Sample.silent Idle.overdue))
    (snd (Backend.loop_body Sample.silent Idle.overdue)).
Proof.
  split; [vm_compute; reflexivity |].
  split; [vm_compute; repeat first [left; reflexivity | right] |].
  split; [vm_compute; repeat first [left; reflexivity | right] |].
  exact (proj1 (idle_notice_is_logged Sample.silent Idle.overdue)).
Defined.

